(** * Markdown pipe tables to Slack Block Kit table blocks

    A shallow embedding of [src/slack/table-blocks.ts] (raw_text cells
    only, module [RawTable]) and of the version of the same file with
    rich_text cells ([src/unnamed/part_000], module [RichTable]), together
    with the properties the specification states about them.

    JavaScript strings are sequences of UTF-16 code units; a code unit is a
    number [N].  The built-ins the program calls ([trim], [split], [slice],
    [join], regular expressions without the [u] flag) are modelled on code
    units, after ECMAScript. *)

From Stdlib Require Import Ascii String.
From Stdlib Require Import List ZArith NArith Lia Bool.
Import ListNotations.

Set Implicit Arguments.

(** ** JavaScript values and built-ins *)

Module Js.

Definition char := N.
Definition jsstring := list char.

(** An ASCII literal of the source as code units. *)
Definition lit (s : string) : jsstring :=
  map N_of_ascii (list_ascii_of_string s).
Arguments lit s%_string.

Definition ch (a : ascii) : char := N_of_ascii a.
Arguments ch a%_char.

(** Truthiness of a string: [Boolean(s)], [if (s)], [s || d]. *)
Definition truthy (s : jsstring) : bool :=
  match s with [] => false | _ :: _ => true end.

Definition orElse (s d : jsstring) : jsstring := if truthy s then s else d.

(** [a ?? b] on a possibly undefined value. *)
Definition nullish {A} (a : option A) (b : A) : A :=
  match a with Some x => x | None => b end.

Definition isSome {A} (a : option A) : bool :=
  match a with Some _ => true | None => false end.

(** WhiteSpace and LineTerminator of ECMAScript: what [trim] strips and what
    [\s] matches. *)
Definition isWhiteSpace (c : char) : bool :=
  ((c =? 9) || (c =? 10) || (c =? 11) || (c =? 12) || (c =? 13) || (c =? 32)
   || (c =? 160) || (c =? 5760) || ((8192 <=? c) && (c <=? 8202))
   || (c =? 8232) || (c =? 8233) || (c =? 8239) || (c =? 8287)
   || (c =? 12288) || (c =? 65279))%N.

Definition isLineTerminator (c : char) : bool :=
  ((c =? 10) || (c =? 13) || (c =? 8232) || (c =? 8233))%N.

Fixpoint dropWhile (p : char -> bool) (s : jsstring) : jsstring :=
  match s with
  | [] => []
  | c :: s' => if p c then dropWhile p s' else s
  end.

Definition trimStart (s : jsstring) : jsstring := dropWhile isWhiteSpace s.
Definition trimEnd (s : jsstring) : jsstring :=
  rev (dropWhile isWhiteSpace (rev s)).
Definition trim (s : jsstring) : jsstring := trimEnd (trimStart s).

(** [s.split(c)] for a one-character separator: never the empty array. *)
Fixpoint split (c : char) (s : jsstring) : list jsstring :=
  match s with
  | [] => [[]]
  | x :: s' =>
      if (x =? c)%N then [] :: split c s'
      else match split c s' with
           | l :: ls => (x :: l) :: ls
           | [] => [[x]]
           end
  end.

(** [xs.join(sep)]. *)
Fixpoint join (sep : jsstring) (xs : list jsstring) : jsstring :=
  match xs with
  | [] => []
  | [x] => x
  | x :: rest => x ++ sep ++ join sep rest
  end.

Definition startsWith (c : char) (s : jsstring) : bool :=
  match s with
  | x :: _ => (x =? c)%N
  | [] => false
  end.

Definition endsWith (c : char) (s : jsstring) : bool :=
  match rev s with
  | x :: _ => (x =? c)%N
  | [] => false
  end.

(** [s.includes(c, from)]. *)
Definition includes (c : char) (from : nat) (s : jsstring) : bool :=
  existsb (fun x => (x =? c)%N) (skipn from s).

(** [s.slice(a, b)] and [s.slice(a)], with the clamping of relative
    indices. *)
Definition clampIndex (len k : Z) : Z :=
  if (k <? 0)%Z then Z.max (len + k) 0 else Z.min k len.

Definition slice (s : jsstring) (a b : Z) : jsstring :=
  let len := Z.of_nat (length s) in
  let from := clampIndex len a in
  let to := clampIndex len b in
  firstn (Z.to_nat (to - from)) (skipn (Z.to_nat from) s).

Definition sliceFrom (s : jsstring) (a : Z) : jsstring :=
  slice s a (Z.of_nat (length s)).

(** *** Results of a call: a value, an exception, or no return *)

Inductive exn := TypeError.

Inductive outcome (A : Type) : Type :=
| Returns (a : A)
| Throws (e : exn)
| Diverges.
Arguments Returns {A} a.
Arguments Throws {A} e.
Arguments Diverges {A}.

Definition bind {A B} (m : outcome A) (f : A -> outcome B) : outcome B :=
  match m with
  | Returns a => f a
  | Throws e => Throws e
  | Diverges => Diverges
  end.

Notation "x <- m ;; k" := (bind m (fun x => k))
  (at level 61, m at next level, right associativity).

Fixpoint mapM {A B} (f : A -> outcome B) (xs : list A) : outcome (list B) :=
  match xs with
  | [] => Returns []
  | x :: rest =>
      y <- f x ;; ys <- mapM f rest ;; Returns (y :: ys)
  end.

(** *** Regular expressions

    The backtracking matcher of ECMAScript for the operators the program
    uses.  Quantifiers range over one-character atoms, as they do in every
    pattern of the source. *)

Inductive regex :=
| One (p : char -> bool)          (* a character, [.], [\s], [[^x]] *)
| Bol                             (* [^] without the [m] flag *)
| Eol                             (* [$] without the [m] flag *)
| Cat (r1 r2 : regex)
| Alt (r1 r2 : regex)
| Opt (p : char -> bool)          (* [x?] *)
| Star (p : char -> bool)         (* [x*] *)
| Plus (p : char -> bool)         (* [x+] *)
| PlusLazy (p : char -> bool)     (* [x+?] *)
| Group (n : nat) (r : regex).    (* the n-th capturing parentheses *)

Definition isChar (c : char) : char -> bool := fun x => (x =? c)%N.
Definition isNot (c : char) : char -> bool := fun x => negb (x =? c)%N.
Definition dot : char -> bool := fun x => negb (isLineTerminator x).

Definition Chr (a : ascii) : regex := One (isChar (N_of_ascii a)).
Arguments Chr a%_char.

Fixpoint seq (rs : list regex) : regex :=
  match rs with
  | [] => Star (fun _ => false)
  | [r] => r
  | r :: rest => Cat r (seq rest)
  end.

Fixpoint alt (r : regex) (rs : list regex) : regex :=
  match rs with
  | [] => r
  | r' :: rest => Alt r (alt r' rest)
  end.

Definition caps := list (nat * jsstring).

Fixpoint getcap (n : nat) (cs : caps) : option jsstring :=
  match cs with
  | [] => None
  | (m, v) :: rest => if Nat.eqb m n then Some v else getcap n rest
  end.

Section Matcher.
Variable A : Type.
(** The continuation receives the position reached, the rest of the input
    and the captures so far; [None] makes the matcher backtrack. *)
Definition cont := nat -> jsstring -> caps -> option A.

Fixpoint greedyRun (p : char -> bool) (pos : nat) (s : jsstring) (cs : caps)
         (k : cont) : option A :=
  match s with
  | c :: s' =>
      if p c then
        match greedyRun p (S pos) s' cs k with
        | Some x => Some x
        | None => k pos s cs
        end
      else k pos s cs
  | [] => k pos s cs
  end.

Fixpoint lazyRun (p : char -> bool) (pos : nat) (s : jsstring) (cs : caps)
         (k : cont) : option A :=
  match k pos s cs with
  | Some x => Some x
  | None =>
      match s with
      | c :: s' => if p c then lazyRun p (S pos) s' cs k else None
      | [] => None
      end
  end.

Fixpoint rmatch (r : regex) (pos : nat) (s : jsstring) (cs : caps)
         (k : cont) : option A :=
  match r with
  | One p =>
      match s with
      | c :: s' => if p c then k (S pos) s' cs else None
      | [] => None
      end
  | Bol => if Nat.eqb pos 0 then k pos s cs else None
  | Eol => match s with [] => k pos s cs | _ :: _ => None end
  | Cat r1 r2 =>
      rmatch r1 pos s cs (fun pos' s' cs' => rmatch r2 pos' s' cs' k)
  | Alt r1 r2 =>
      match rmatch r1 pos s cs k with
      | Some x => Some x
      | None => rmatch r2 pos s cs k
      end
  | Opt p =>
      match s with
      | c :: s' =>
          if p c then
            match k (S pos) s' cs with
            | Some x => Some x
            | None => k pos s cs
            end
          else k pos s cs
      | [] => k pos s cs
      end
  | Star p => greedyRun p pos s cs k
  | Plus p =>
      match s with
      | c :: s' => if p c then greedyRun p (S pos) s' cs k else None
      | [] => None
      end
  | PlusLazy p =>
      match s with
      | c :: s' => if p c then lazyRun p (S pos) s' cs k else None
      | [] => None
      end
  | Group n r' =>
      rmatch r' pos s cs
        (fun pos' s' cs' => k pos' s' ((n, firstn (pos' - pos) s) :: cs'))
  end.
End Matcher.

(** What [exec] returns: [index], [match[0]] and the captures. *)
Record MatchResult := mkMatch {
  index : nat;
  matched : jsstring;
  groups : caps
}.

Definition accept : cont (nat * caps) := fun pos _ cs => Some (pos, cs).

Definition matchAt (re : regex) (pos : nat) (s : jsstring)
  : option MatchResult :=
  match rmatch re pos s [] accept with
  | Some (e, cs) => Some (mkMatch pos (firstn (e - pos) s) cs)
  | None => None
  end.

(** The leftmost position, from [pos] on, at which the pattern matches. *)
Fixpoint search (re : regex) (pos : nat) (s : jsstring)
  : option MatchResult :=
  match matchAt re pos s with
  | Some m => Some m
  | None =>
      match s with
      | [] => None
      | _ :: s' => search re (S pos) s'
      end
  end.

(** [re.exec(text)] of a [g] pattern whose [lastIndex] is [lastIndex]. *)
Definition exec (re : regex) (text : jsstring) (lastIndex : nat)
  : option MatchResult :=
  if length text <? lastIndex then None
  else search re lastIndex (skipn lastIndex text).

(** [re.test(text)] of a pattern without flags. *)
Definition test (re : regex) (text : jsstring) : bool :=
  isSome (search re 0 text).

(** [text.replace(re, "")] of a pattern without flags: the first match is
    removed. *)
Definition replaceEmpty (re : regex) (text : jsstring) : jsstring :=
  match search re 0 text with
  | Some m => firstn (index m) text ++ skipn (index m + length (matched m)) text
  | None => text
  end.

(** [xs[i]] for a number [i]: [undefined] outside the array. *)
Definition item {A} (xs : list A) (i : Z) : option A :=
  if (i <? 0)%Z then None else nth_error xs (Z.to_nat i).

End Js.

Import Js.

(** ** Data of the program *)

Record TableData := mkTableData {
  headers : list jsstring;
  rows : list (list jsstring);
  start : Z;       (* start index in the original text *)
  end_ : Z         (* end index in the original text, exclusive *)
}.

Inductive ElemType := Text | Link.

Record Style := mkStyle {
  bold : bool; italic : bool; strike : bool; code : bool
}.

Module Elem.
Record t := mk {
  type : ElemType;
  text : option jsstring;
  url : option jsstring;
  style : option Style
}.
End Elem.
Definition RichTextElement := Elem.t.

Inductive RichTextSection :=
| rich_text_section (elements : list RichTextElement).

Inductive TableCell :=
| raw_text (text : jsstring)
| rich_text (elements : list RichTextSection).

Inductive ColumnSetting := is_wrapped (b : bool).

(** The block [{ type: "table", column_settings, rows }]. *)
Module Block.
Record t := mk {
  column_settings : list ColumnSetting;
  rows : list (list TableCell)
}.
End Block.
Definition KnownBlock := Block.t.

Record SlackTableExtraction := mkExtraction {
  text : jsstring;                 (* text with the first table removed *)
  tableBlock : option KnownBlock   (* [null] if no table was found *)
}.

(** The local variables of the scanning loop of [extractFirstTable]. *)
Record ScanState := mkScan {
  tableStart : Z;
  tableEnd : Z;
  curHeaders : list jsstring;
  curRows : list (list jsstring);
  inTable : bool;
  pastSeparator : bool
}.

Definition initScan : ScanState := mkScan (-1) (-1) [] [] false false.

Definition nl : char := 10%N.
Definition pipe : char := ch "|".

(** [for (let i = from; n iterations; i++) acc += lines[i].length + 1]:
    reading [length] of an [undefined] line throws. *)
Fixpoint addLineLengths (lines : list jsstring) (i : Z) (n : nat) (acc : Z)
  : outcome Z :=
  match n with
  | O => Returns acc
  | S n' =>
      match item lines i with
      | Some l => addLineLengths lines (i + 1) n' (acc + (Z.of_nat (length l) + 1))
      | None => Throws TypeError
      end
  end.

(** ** [src/slack/table-blocks.ts]: raw_text cells *)

Module RawTable.

(** [/^\|/] and [/\|$/] *)
Definition leadingPipe : regex := Cat Bol (Chr "|").
Definition trailingPipe : regex := Cat (Chr "|") Eol.

Definition parsePipeRow (line : jsstring) : list jsstring :=
  let trimmed := replaceEmpty trailingPipe (replaceEmpty leadingPipe line) in
  map trim (split pipe trimmed).

(** [/^\s*:?-+:?\s*$/] *)
Definition separatorCell : regex :=
  seq [Bol; Star isWhiteSpace; Opt (isChar (ch ":")); Plus (isChar (ch "-"));
       Opt (isChar (ch ":")); Star isWhiteSpace; Eol].

Definition isSeparatorRow (line : jsstring) : bool :=
  if negb (startsWith pipe line) then false
  else
    let inner := replaceEmpty trailingPipe (replaceEmpty leadingPipe line) in
    let cells := split pipe inner in
    forallb (test separatorCell) cells.

(** The loop over the lines: [i] is the index of the head of [rest], so that
    [lines[i + 1]] is the second element of [rest]. *)
Fixpoint scanLines (i : Z) (rest : list jsstring) (st : ScanState)
  : ScanState :=
  match rest with
  | [] => st
  | l :: rest' =>
      let line := trim l in
      if negb (inTable st) then
        if startsWith pipe line && endsWith pipe line && includes pipe 1 line
        then
          let cells := parsePipeRow line in
          if 1 <=? length cells then
            let nextLine := option_map trim (nth_error rest' 0) in
            if match nextLine with
               | Some n => truthy n && isSeparatorRow n
               | None => false
               end
            then
              scanLines (i + 1) rest'
                (mkScan i (tableEnd st) cells (curRows st) true false)
            else scanLines (i + 1) rest' st
          else scanLines (i + 1) rest' st
        else scanLines (i + 1) rest' st
      else if negb (pastSeparator st) then
        if isSeparatorRow line then
          scanLines (i + 1) rest'
            (mkScan (tableStart st) (tableEnd st) (curHeaders st) (curRows st)
                    (inTable st) true)
        else
          scanLines (i + 1) rest'
            (mkScan (tableStart st) (tableEnd st) [] (curRows st)
                    false (pastSeparator st))
      else if startsWith pipe line then
        let cells := parsePipeRow line in
        scanLines (i + 1) rest'
          (mkScan (tableStart st) i (curHeaders st) (curRows st ++ [cells])
                  (inTable st) (pastSeparator st))
      else st
  end.

Definition extractFirstTable (text : jsstring) : outcome (option TableData) :=
  let lines := split nl text in
  let st := scanLines 0 lines initScan in
  if negb (inTable st) || (length (curHeaders st) =? 0)
     || (length (curRows st) =? 0)
  then Returns None
  else
    let tableStart := tableStart st in
    let tableEnd := tableEnd st in
    charStart <- addLineLengths lines 0 (Z.to_nat tableStart) 0 ;;
    charEnd <- addLineLengths lines tableStart
                 (Z.to_nat ((if (tableEnd =? -1)%Z then tableStart + 1
                             else tableEnd) + 1 - tableStart)) charStart ;;
    charEnd <- addLineLengths lines 0
                 (Z.to_nat (Z.max tableEnd (tableStart + 1) + 1)) 0 ;;
    charStart <- addLineLengths lines 0 (Z.to_nat tableStart) 0 ;;
    Returns (Some (mkTableData
                     (firstn 20 (curHeaders st))
                     (map (firstn 20) (firstn 99 (curRows st)))
                     charStart charEnd)).

(** The placeholder literal of this file, three code units. *)
Definition placeholder : jsstring := [226; 8364; 8220]%N.

Definition buildTableBlock (table : TableData) : KnownBlock :=
  let headerRow := map (fun h => raw_text (orElse h (lit " "))) (headers table) in
  let dataRows :=
    map (fun row =>
           map (fun i =>
                  raw_text (orElse (trim (nullish (nth_error row i) placeholder))
                                   (lit " ")))
               (List.seq 0 (length (headers table))))
        (rows table) in
  let allRows := headerRow :: dataRows in
  let columnSettings := map (fun _ => is_wrapped true) (headers table) in
  Block.mk columnSettings allRows.

Definition extractSlackTableBlock (markdown : jsstring)
  : outcome SlackTableExtraction :=
  table <- extractFirstTable markdown ;;
  match table with
  | None => Returns (mkExtraction markdown None)
  | Some table =>
      let before := trimEnd (slice markdown 0 (start table)) in
      let after := trimStart (sliceFrom markdown (end_ table)) in
      let text := join [nl; nl] (filter truthy [before; after]) in
      Returns (mkExtraction text (Some (buildTableBlock table)))
  end.

End RawTable.

(** ** [src/unnamed/part_000]: the same module with rich_text cells *)

Module RichTable.

(** [/^\|/] and [/\|$/] *)
Definition leadingPipe : regex := Cat Bol (Chr "|").
Definition trailingPipe : regex := Cat (Chr "|") Eol.

Definition parsePipeRow (line : jsstring) : list jsstring :=
  let trimmed := replaceEmpty trailingPipe (replaceEmpty leadingPipe line) in
  map trim (split pipe trimmed).

(** [/^\s*:?-+:?\s*$/] *)
Definition separatorCell : regex :=
  seq [Bol; Star isWhiteSpace; Opt (isChar (ch ":")); Plus (isChar (ch "-"));
       Opt (isChar (ch ":")); Star isWhiteSpace; Eol].

Definition isSeparatorRow (line : jsstring) : bool :=
  if negb (startsWith pipe line) then false
  else
    let inner := replaceEmpty trailingPipe (replaceEmpty leadingPipe line) in
    let cells := split pipe inner in
    forallb (test separatorCell) cells.

(** The loop over the lines: [i] is the index of the head of [rest], so that
    [lines[i + 1]] is the second element of [rest]. *)
Fixpoint scanLines (i : Z) (rest : list jsstring) (st : ScanState)
  : ScanState :=
  match rest with
  | [] => st
  | l :: rest' =>
      let line := trim l in
      if negb (inTable st) then
        if startsWith pipe line && endsWith pipe line && includes pipe 1 line
        then
          let cells := parsePipeRow line in
          if 1 <=? length cells then
            let nextLine := option_map trim (nth_error rest' 0) in
            if match nextLine with
               | Some n => truthy n && isSeparatorRow n
               | None => false
               end
            then
              scanLines (i + 1) rest'
                (mkScan i (tableEnd st) cells (curRows st) true false)
            else scanLines (i + 1) rest' st
          else scanLines (i + 1) rest' st
        else scanLines (i + 1) rest' st
      else if negb (pastSeparator st) then
        if isSeparatorRow line then
          scanLines (i + 1) rest'
            (mkScan (tableStart st) (tableEnd st) (curHeaders st) (curRows st)
                    (inTable st) true)
        else
          scanLines (i + 1) rest'
            (mkScan (tableStart st) (tableEnd st) [] (curRows st)
                    false (pastSeparator st))
      else if startsWith pipe line then
        let cells := parsePipeRow line in
        scanLines (i + 1) rest'
          (mkScan (tableStart st) i (curHeaders st) (curRows st ++ [cells])
                  (inTable st) (pastSeparator st))
      else st
  end.

Definition extractFirstTable (text : jsstring) : outcome (option TableData) :=
  let lines := split nl text in
  let st := scanLines 0 lines initScan in
  if negb (inTable st) || (length (curHeaders st) =? 0)
     || (length (curRows st) =? 0)
  then Returns None
  else
    let tableStart := tableStart st in
    let tableEnd := tableEnd st in
    charStart <- addLineLengths lines 0 (Z.to_nat tableStart) 0 ;;
    charEnd <- addLineLengths lines tableStart
                 (Z.to_nat ((if (tableEnd =? -1)%Z then tableStart + 1
                             else tableEnd) + 1 - tableStart)) charStart ;;
    charEnd <- addLineLengths lines 0
                 (Z.to_nat (Z.max tableEnd (tableStart + 1) + 1)) 0 ;;
    charStart <- addLineLengths lines 0 (Z.to_nat tableStart) 0 ;;
    Returns (Some (mkTableData
                     (firstn 20 (curHeaders st))
                     (map (firstn 20) (firstn 99 (curRows st)))
                     charStart charEnd)).

(** The pattern of [parseInlineMarkdown]:
    [/\*\*(.+?)\*\*|__(.+?)__|\*(.+?)\*|_(.+?)_|~~(.+?)~~|`([^`]+)`|\[([^\]]+)\]\(([^)]+)\)/g] *)
Definition boldStars : regex :=
  seq [Chr "*"; Chr "*"; Group 1 (PlusLazy dot); Chr "*"; Chr "*"].
Definition boldUnderscores : regex :=
  seq [Chr "_"; Chr "_"; Group 2 (PlusLazy dot); Chr "_"; Chr "_"].
Definition italicStar : regex :=
  seq [Chr "*"; Group 3 (PlusLazy dot); Chr "*"].
Definition italicUnderscore : regex :=
  seq [Chr "_"; Group 4 (PlusLazy dot); Chr "_"].
Definition strikeTildes : regex :=
  seq [Chr "~"; Chr "~"; Group 5 (PlusLazy dot); Chr "~"; Chr "~"].
Definition codeTicks : regex :=
  seq [Chr "`"; Group 6 (Plus (isNot (ch "`"))); Chr "`"].
Definition linkBrackets : regex :=
  seq [Chr "["; Group 7 (Plus (isNot (ch "]"))); Chr "]";
       Chr "("; Group 8 (Plus (isNot (ch ")"))); Chr ")"].

Definition inlineRe : regex :=
  alt boldStars [boldUnderscores; italicStar; italicUnderscore; strikeTildes;
                 codeTicks; linkBrackets].

Definition textElement (t : jsstring) : RichTextElement :=
  Elem.mk Text (Some t) None None.

Definition styled (t : option jsstring) (st : Style) : RichTextElement :=
  Elem.mk Text t None (Some st).

(** The element pushed for one match, if any. *)
Definition matchElement (m : MatchResult) : list RichTextElement :=
  let g n := getcap n (groups m) in
  if isSome (g 1) || isSome (g 2) then
    [styled (match g 1 with Some t => Some t | None => g 2 end)
            (mkStyle true false false false)]
  else if isSome (g 3) || isSome (g 4) then
    [styled (match g 3 with Some t => Some t | None => g 4 end)
            (mkStyle false true false false)]
  else if isSome (g 5) then
    [styled (g 5) (mkStyle false false true false)]
  else if isSome (g 6) then
    [styled (g 6) (mkStyle false false false true)]
  else if isSome (g 7) && isSome (g 8) then
    [Elem.mk Link (g 7) (g 8) None]
  else [].

(** The [while ((match = inlineRe.exec(text)) !== null)] loop.  The pattern
    keeps its own [lastIndex], which after a match equals the variable
    [lastIndex]; a match that does not advance it is found again for
    ever. *)
Fixpoint parseLoop (fuel : nat) (text : jsstring) (lastIndex : nat)
         (elements : list RichTextElement)
  : outcome (list RichTextElement * nat) :=
  match fuel with
  | O => Diverges
  | S fuel' =>
      match exec inlineRe text lastIndex with
      | None => Returns (elements, lastIndex)
      | Some m =>
          let elements1 :=
            if lastIndex <? index m then
              let before :=
                slice text (Z.of_nat lastIndex) (Z.of_nat (index m)) in
              if truthy before then elements ++ [textElement before]
              else elements
            else elements in
          let elements2 := elements1 ++ matchElement m in
          let lastIndex' := index m + length (matched m) in
          if lastIndex' <=? lastIndex then Diverges
          else parseLoop fuel' text lastIndex' elements2
      end
  end.

Definition parseInlineMarkdown (text : jsstring)
  : outcome (list RichTextElement) :=
  r <- parseLoop (S (length text)) text 0 [] ;;
  let '(elements, lastIndex) := r in
  let elements :=
    if lastIndex <? length text then
      let remaining := sliceFrom text (Z.of_nat lastIndex) in
      if truthy remaining then elements ++ [textElement remaining]
      else elements
    else elements in
  let elements :=
    if (length elements =? 0) && truthy text
    then elements ++ [textElement text]
    else elements in
  Returns elements.

(** [/\*\*.+?\*\*|__.+?__|\*.+?\*|_.+?_|~~.+?~~|`[^`]+`|\[.+?\]\(.+?\)/] *)
Definition formattingRe : regex :=
  alt (seq [Chr "*"; Chr "*"; PlusLazy dot; Chr "*"; Chr "*"])
      [seq [Chr "_"; Chr "_"; PlusLazy dot; Chr "_"; Chr "_"];
       seq [Chr "*"; PlusLazy dot; Chr "*"];
       seq [Chr "_"; PlusLazy dot; Chr "_"];
       seq [Chr "~"; Chr "~"; PlusLazy dot; Chr "~"; Chr "~"];
       seq [Chr "`"; Plus (isNot (ch "`")); Chr "`"];
       seq [Chr "["; PlusLazy dot; Chr "]"; Chr "("; PlusLazy dot; Chr ")"]].

Definition hasInlineFormatting (text : jsstring) : bool :=
  test formattingRe text.

Definition buildCell (text : jsstring) : outcome TableCell :=
  let trimmed := orElse (trim text) (lit " ") in
  if negb (hasInlineFormatting trimmed) then Returns (raw_text trimmed)
  else
    elements <- parseInlineMarkdown trimmed ;;
    Returns (rich_text [rich_text_section elements]).

(** The placeholder literal of this file: U+2013. *)
Definition placeholder : jsstring := [8211]%N.

Definition buildTableBlock (table : TableData) : outcome KnownBlock :=
  headerRow <- mapM (fun h => buildCell (orElse h (lit " "))) (headers table) ;;
  dataRows <-
    mapM (fun row =>
            mapM (fun i => buildCell (nullish (nth_error row i) placeholder))
                 (List.seq 0 (length (headers table))))
         (rows table) ;;
  let allRows := headerRow :: dataRows in
  let columnSettings := map (fun _ => is_wrapped true) (headers table) in
  Returns (Block.mk columnSettings allRows).

Definition extractSlackTableBlock (markdown : jsstring)
  : outcome SlackTableExtraction :=
  table <- extractFirstTable markdown ;;
  match table with
  | None => Returns (mkExtraction markdown None)
  | Some table =>
      let before := trimEnd (slice markdown 0 (start table)) in
      let after := trimStart (sliceFrom markdown (end_ table)) in
      let text := join [nl; nl] (filter truthy [before; after]) in
      block <- buildTableBlock table ;;
      Returns (mkExtraction text (Some block))
  end.

End RichTable.

Unset Implicit Arguments.

(** ** Definitions used to state the properties *)

(** Every line followed by its newline. *)
Definition unlines (ls : list jsstring) : jsstring :=
  concat (map (fun l => l ++ [nl]) ls).

(** The characters of the lines and of one newline after each. *)
Definition lengthNl (ls : list jsstring) : Z :=
  Z.of_nat (length (unlines ls)).

Definition allWhite (s : jsstring) : Prop :=
  Forall (fun c => isWhiteSpace c = true) s.

(** A line the locator takes for a header, and one it takes for a data row. *)
Definition headerLine (l : jsstring) : bool :=
  let line := trim l in
  startsWith pipe line && endsWith pipe line && includes pipe 1 line.

Definition pipeLine (l : jsstring) : bool := startsWith pipe (trim l).

(** The words a pattern stands for: [w] is matched at position [pos] with
    [rest] left of the input. *)
Fixpoint denote (r : regex) (pos : nat) (w rest : jsstring) : Prop :=
  match r with
  | One p => exists c, w = [c] /\ p c = true
  | Bol => w = [] /\ pos = 0
  | Eol => w = [] /\ rest = []
  | Cat r1 r2 =>
      exists w1 w2, w = w1 ++ w2 /\ denote r1 pos w1 (w2 ++ rest)
                    /\ denote r2 (pos + length w1) w2 rest
  | Alt r1 r2 => denote r1 pos w rest \/ denote r2 pos w rest
  | Opt p => w = [] \/ exists c, w = [c] /\ p c = true
  | Star p => Forall (fun c => p c = true) w
  | Plus p | PlusLazy p => w <> [] /\ Forall (fun c => p c = true) w
  | Group _ r' => denote r' pos w rest
  end.

(** The same with the captures: matching [w] turns the captures [cs] into
    [cs']. *)
Fixpoint derives (r : regex) (pos : nat) (w rest : jsstring) (cs cs' : caps)
  : Prop :=
  match r with
  | Cat r1 r2 =>
      exists w1 w2 cs1,
        w = w1 ++ w2 /\ derives r1 pos w1 (w2 ++ rest) cs cs1
        /\ derives r2 (pos + length w1) w2 rest cs1 cs'
  | Alt r1 r2 => derives r1 pos w rest cs cs' \/ derives r2 pos w rest cs cs'
  | Group n r' => exists cs1, derives r' pos w rest cs cs1 /\ cs' = (n, w) :: cs1
  | _ => denote r pos w rest /\ cs' = cs
  end.

(** Every captured text is non-empty. *)
Definition capsNonEmpty (cs : caps) : Prop :=
  forall n v, In (n, v) cs -> v <> [].

(** A run with a text of at least one character. *)
Definition nonEmptyText (e : RichTextElement) : Prop :=
  exists t, Elem.text e = Some t /\ t <> [].

(** A cell that shows at least one character. *)
Definition cellNonEmpty (c : TableCell) : Prop :=
  match c with
  | raw_text t => t <> []
  | rich_text secs =>
      exists els, secs = [rich_text_section els] /\ els <> []
                  /\ Forall nonEmptyText els
  end.

(** The em dash, U+2014. *)
Definition emDash : jsstring := [8212]%N.

(** The table of header [a], [b] and the single short data row [1]. *)
Definition shortRowTable : TableData :=
  mkTableData [lit "a"; lit "b"] [[lit "1"]] 0 0.

(** The separator grammar in the specification's words: one leading and one
    trailing pipe are stripped, and a cell is optional whitespace, an
    optional colon, one or more dashes, an optional colon and optional
    whitespace. *)
Definition stripLeadingPipe (s : jsstring) : jsstring :=
  match s with
  | c :: s' => if (c =? pipe)%N then s' else s
  | [] => []
  end.

Definition stripTrailingPipe (s : jsstring) : jsstring :=
  if endsWith pipe s then removelast s else s.

Definition optionalColon (s : jsstring) : Prop := s = [] \/ s = [ch ":"].

Definition alignmentCell (cell : jsstring) : Prop :=
  exists ws1 c1 n c2 ws2,
    cell = ws1 ++ c1 ++ repeat (ch "-") (S n) ++ c2 ++ ws2
    /\ allWhite ws1 /\ optionalColon c1 /\ optionalColon c2 /\ allWhite ws2.

(** A header candidate followed by a line that is no separator. *)
Definition abandonedText : jsstring :=
  lit "| a | b |" ++ [nl] ++ lit "| abc | --- |" ++ [nl] ++ lit "| 1 | 2 |".

(** The five pattern families of the tokenizer, in their order of
    precedence. *)
Inductive Family := Bold | Italic | Strike | Code | Hyperlink.

Definition familyRe (f : Family) : regex :=
  match f with
  | Bold => Alt RichTable.boldStars RichTable.boldUnderscores
  | Italic => Alt RichTable.italicStar RichTable.italicUnderscore
  | Strike => RichTable.strikeTildes
  | Code => RichTable.codeTicks
  | Hyperlink => RichTable.linkBrackets
  end.

Definition precedence : list Family := [Bold; Italic; Strike; Code; Hyperlink].

(** The match of the first family, in the given order, that matches at a
    position. *)
Fixpoint firstMatch (fs : list Family) (pos : nat) (s : jsstring)
  : option MatchResult :=
  match fs with
  | [] => None
  | f :: fs' =>
      match matchAt (familyRe f) pos s with
      | Some m => Some m
      | None => firstMatch fs' pos s
      end
  end.

(** What a family emits: the kind of run, its style, and how the matched
    text is made of delimiters around the text [t] of the run (and the
    target [u] of a link). *)
Definition typeOf (f : Family) : ElemType :=
  match f with Hyperlink => Link | _ => Text end.

Definition styleOf (f : Family) : option Style :=
  match f with
  | Bold => Some (mkStyle true false false false)
  | Italic => Some (mkStyle false true false false)
  | Strike => Some (mkStyle false false true false)
  | Code => Some (mkStyle false false false true)
  | Hyperlink => None
  end.

Definition delimited (f : Family) (t : jsstring) (u : option jsstring)
           (whole : jsstring) : Prop :=
  match f with
  | Bold => u = None /\ (whole = lit "**" ++ t ++ lit "**"
                         \/ whole = lit "__" ++ t ++ lit "__")
  | Italic => u = None /\ (whole = lit "*" ++ t ++ lit "*"
                           \/ whole = lit "_" ++ t ++ lit "_")
  | Strike => u = None /\ whole = lit "~~" ++ t ++ lit "~~"
  | Code => u = None /\ whole = lit "`" ++ t ++ lit "`"
  | Hyperlink =>
      exists url, u = Some url /\ url <> []
                  /\ whole = lit "[" ++ t ++ lit "](" ++ url ++ lit ")"
  end.

(** The unstyled run for the text between [lastIndex] and a match. *)
Definition gapRun (text : jsstring) (lastIndex : nat) (m : MatchResult)
  : list RichTextElement :=
  if lastIndex <? index m
  then [RichTable.textElement
          (slice text (Z.of_nat lastIndex) (Z.of_nat (index m)))]
  else [].

Definition boldRun (t : string) : RichTextElement :=
  Elem.mk Text (Some (lit t)) None (Some (mkStyle true false false false)).
Definition italicRun (t : string) : RichTextElement :=
  Elem.mk Text (Some (lit t)) None (Some (mkStyle false true false false)).
Definition strikeRun (t : string) : RichTextElement :=
  Elem.mk Text (Some (lit t)) None (Some (mkStyle false false true false)).
Definition codeRun (t : string) : RichTextElement :=
  Elem.mk Text (Some (lit t)) None (Some (mkStyle false false false true)).
Definition plainRun (t : string) : RichTextElement :=
  Elem.mk Text (Some (lit t)) None None.
Definition linkRun (t u : string) : RichTextElement :=
  Elem.mk Link (Some (lit t)) (Some (lit u)) None.

(** ** The locator as a rule on the lines *)

Fixpoint takeWhile {A} (p : A -> bool) (xs : list A) : list A :=
  match xs with
  | [] => []
  | x :: rest => if p x then x :: takeWhile p rest else []
  end.

(** The first line that is a header line with a separator line after it:
    the lines before it, the two lines, and the lines after them. *)
Fixpoint findHeader (ls : list jsstring)
  : option (list jsstring * jsstring * jsstring * list jsstring) :=
  match ls with
  | [] => None
  | l :: rest =>
      match rest with
      | sp :: after =>
          if headerLine l && RichTable.isSeparatorRow (trim sp)
          then Some ([], l, sp, after)
          else match findHeader rest with
               | Some (pre, h, s, a) => Some (l :: pre, h, s, a)
               | None => None
               end
      | [] => None
      end
  end.

(** The table of the first header and separator: the run of lines starting
    with a pipe that follows them, none if that run is empty. *)
Definition locate (text : jsstring) : option TableData :=
  match findHeader (split nl text) with
  | None => None
  | Some (pre, h, sp, after) =>
      match takeWhile pipeLine after with
      | [] => None
      | data =>
          Some (mkTableData
                  (firstn 20 (RichTable.parsePipeRow (trim h)))
                  (map (firstn 20)
                       (firstn 99
                          (map (fun l => RichTable.parsePipeRow (trim l)) data)))
                  (lengthNl pre)
                  (lengthNl (pre ++ h :: sp :: data)))
      end
  end.

(** The characters that open a pattern of the formatting detector. *)
Definition isMarker (c : char) : bool :=
  ((c =? ch "*") || (c =? ch "_") || (c =? ch "~") || (c =? ch "`")
   || (c =? ch "["))%N.

(** A run against the piece of the text it stands for: an unstyled run is
    its piece; the run of a family is the text between the delimiters of
    its piece. *)
Definition spanOf (e : RichTextElement) (span : jsstring) : Prop :=
  (span <> [] /\ e = RichTable.textElement span)
  \/ exists f t u,
       t <> [] /\ delimited f t u span
       /\ e = Elem.mk (typeOf f) (Some t) u (styleOf f).

(** No line of [pre] is a header line with a separator line after it; the
    line after the last line of [pre] is [next]. *)
Fixpoint noHeaderIn (pre : list jsstring) (next : jsstring) : Prop :=
  match pre with
  | [] => True
  | l :: rest =>
      headerLine l && RichTable.isSeparatorRow (trim (hd next rest)) = false
      /\ noHeaderIn rest next
  end.

(** *** A table beyond the limits *)

(** A line of [n] cells that hold the character [c]. *)
Definition wideLine (n : nat) (c : char) : jsstring :=
  pipe :: concat (repeat [c; pipe] n).

(** A text with a table of 21 columns and 100 data rows between two
    words. *)
Definition wideTable : jsstring :=
  lit "x" ++ [nl] ++ wideLine 21 (ch "a") ++ [nl] ++ lit "|-|" ++ [nl]
  ++ concat (repeat (wideLine 21 (ch "1") ++ [nl]) 100) ++ lit "y".

(** * [src/slack/work-objects.ts]: work objects for Linear tickets *)

Set Implicit Arguments.

(** ** Patterns with word boundaries and counted repetition

    [IDENTIFIER_RE] needs two operators more than the patterns of the table
    module: [\b], which looks at the character before the position, and
    [x{min,max}].  The matcher is the same backtracking matcher, with the
    previous character carried along. *)

Module WordRe.

(** [\w]: [[A-Za-z0-9_]] *)
Definition isWordChar (c : char) : bool :=
  (((65 <=? c) && (c <=? 90)) || ((97 <=? c) && (c <=? 122))
   || ((48 <=? c) && (c <=? 57)) || (c =? 95))%N.

(** [[A-Z]] and [\d] *)
Definition isUpper (c : char) : bool := ((65 <=? c) && (c <=? 90))%N.
Definition isDigit (c : char) : bool := ((48 <=? c) && (c <=? 57))%N.

Definition wordAt (c : option char) : bool :=
  match c with Some x => isWordChar x | None => false end.

Inductive regex :=
| One (p : char -> bool)
| Boundary                                   (* [\b] *)
| Repeat (p : char -> bool) (min max : nat)  (* [x{min,max}], greedy *)
| Cat (r1 r2 : regex)
| Group (n : nat) (r : regex).

Section Matcher.
Variable A : Type.
(** The continuation receives the character before the position reached,
    that position, the rest of the input and the captures. *)
Definition cont := option char -> nat -> jsstring -> caps -> option A.

(** RepeatMatcher of ECMAScript for a one-character atom. *)
Fixpoint repeatRun (p : char -> bool) (min max : nat) (prev : option char)
         (pos : nat) (s : jsstring) (cs : caps) (k : cont) : option A :=
  match max with
  | O => k prev pos s cs
  | S max' =>
      let more :=
        match s with
        | c :: s' =>
            if p c
            then repeatRun p (Nat.pred min) max' (Some c) (S pos) s' cs k
            else None
        | [] => None
        end in
      if Nat.eqb min 0 then
        match more with
        | Some x => Some x
        | None => k prev pos s cs
        end
      else more
  end.

Fixpoint rmatch (r : regex) (prev : option char) (pos : nat) (s : jsstring)
         (cs : caps) (k : cont) : option A :=
  match r with
  | One p =>
      match s with
      | c :: s' => if p c then k (Some c) (S pos) s' cs else None
      | [] => None
      end
  | Boundary =>
      if xorb (wordAt prev) (wordAt (hd_error s)) then k prev pos s cs
      else None
  | Repeat p min max => repeatRun p min max prev pos s cs k
  | Cat r1 r2 =>
      rmatch r1 prev pos s cs
        (fun prev' pos' s' cs' => rmatch r2 prev' pos' s' cs' k)
  | Group n r' =>
      rmatch r' prev pos s cs
        (fun prev' pos' s' cs' =>
           k prev' pos' s' ((n, firstn (pos' - pos) s) :: cs'))
  end.
End Matcher.

Definition accept : cont (nat * caps) := fun _ pos _ cs => Some (pos, cs).

Definition matchAt (re : regex) (prev : option char) (pos : nat)
           (s : jsstring) : option MatchResult :=
  match rmatch re prev pos s [] accept with
  | Some (e, cs) => Some (mkMatch pos (firstn (e - pos) s) cs)
  | None => None
  end.

Fixpoint search (re : regex) (prev : option char) (pos : nat) (s : jsstring)
  : option MatchResult :=
  match matchAt re prev pos s with
  | Some m => Some m
  | None =>
      match s with
      | [] => None
      | c :: s' => search re (Some c) (S pos) s'
      end
  end.

(** The character before index [i] of the text. *)
Definition charBefore (text : jsstring) (i : nat) : option char :=
  match i with
  | O => None
  | S j => nth_error text j
  end.

(** [re.exec(text)] of a [g] pattern whose [lastIndex] is [lastIndex]. *)
Definition exec (re : regex) (text : jsstring) (lastIndex : nat)
  : option MatchResult :=
  if length text <? lastIndex then None
  else search re (charBefore text lastIndex) lastIndex (skipn lastIndex text).

End WordRe.

Module WorkObjects.

(** A JavaScript value that is a string or [undefined]. *)
Definition maybeString := option jsstring.

Definition maybeString_eqb (a b : maybeString) : bool :=
  match a, b with
  | Some x, Some y => if list_eq_dec N.eq_dec x y then true else false
  | None, None => true
  | _, _ => false
  end.

Definition string_eqb (x y : jsstring) : bool :=
  if list_eq_dec N.eq_dec x y then true else false.

(** *** Identifier extraction *)

(** [/\b([A-Z]{2,10}-\d{1,6})\b/g] *)
Definition IDENTIFIER_RE : WordRe.regex :=
  WordRe.Cat WordRe.Boundary
    (WordRe.Cat
       (WordRe.Group 1
          (WordRe.Cat (WordRe.Repeat WordRe.isUpper 2 10)
             (WordRe.Cat (WordRe.One (isChar (ch "-")))
                         (WordRe.Repeat WordRe.isDigit 1 6))))
       WordRe.Boundary).

(** [matches.add(x)] on a [Set], kept in insertion order. *)
Definition setAdd (x : maybeString) (xs : list maybeString)
  : list maybeString :=
  if existsb (maybeString_eqb x) xs then xs else xs ++ [x].

(** The [while ((match = IDENTIFIER_RE.exec(text)) !== null)] loop; the
    pattern keeps its [lastIndex], and a match that does not advance it is
    found again for ever. *)
Fixpoint identifierLoop (fuel : nat) (text : jsstring) (lastIndex : nat)
         (matches : list maybeString) : outcome (list maybeString) :=
  match fuel with
  | O => Diverges
  | S fuel' =>
      match WordRe.exec IDENTIFIER_RE text lastIndex with
      | None => Returns matches
      | Some m =>
          let matches' := setAdd (getcap 1 (groups m)) matches in
          let lastIndex' := index m + length (matched m) in
          if lastIndex' <=? lastIndex then Diverges
          else identifierLoop fuel' text lastIndex' matches'
      end
  end.

Definition extractIdentifiers (text : jsstring) : outcome (list maybeString) :=
  identifierLoop (S (length text)) text 0 [].

(** *** Issues and task entities *)

(** A number as a property key: an integer, or a number whose key is no
    integer (a fraction, [NaN], an infinity). *)
Inductive JsNumber := Integer (z : Z) | NotInteger.

Record IssueState := mkState {
  state_name : jsstring; state_color : jsstring; state_type : jsstring
}.

Record IssueAssignee := mkAssignee {
  assignee_name : jsstring; assignee_email : option jsstring
}.

Record LinearIssue := mkIssue {
  issue_id : jsstring;
  identifier : jsstring;
  title : jsstring;
  description : option jsstring;
  priority : JsNumber;
  priorityLabel : jsstring;
  createdAt : jsstring;
  updatedAt : jsstring;
  issue_url : jsstring;
  state : option IssueState;
  assignee : option IssueAssignee;
  project : option jsstring
}.

(** What a property read of an object literal gives: an own string, or a
    member inherited from [Object.prototype]. *)
Inductive PropertyValue :=
| Str (s : jsstring)
| Inherited (key : jsstring).

Definition objectPrototypeKeys : list jsstring :=
  [lit "constructor"; lit "__defineGetter__"; lit "__defineSetter__";
   lit "hasOwnProperty"; lit "__lookupGetter__"; lit "__lookupSetter__";
   lit "isPrototypeOf"; lit "propertyIsEnumerable"; lit "toString";
   lit "valueOf"; lit "__proto__"; lit "toLocaleString"].

Fixpoint assoc {V} (key : jsstring) (table : list (jsstring * V)) : option V :=
  match table with
  | [] => None
  | (k, v) :: rest => if string_eqb k key then Some v else assoc key rest
  end.

(** [table[key]] for an object literal with string values. *)
Definition getProperty (table : list (jsstring * jsstring)) (key : jsstring)
  : option PropertyValue :=
  match assoc key table with
  | Some v => Some (Str v)
  | None =>
      if existsb (string_eqb key) objectPrototypeKeys
      then Some (Inherited key) else None
  end.

Definition STATE_TYPE_COLORS : list (jsstring * jsstring) :=
  [(lit "backlog", lit "gray"); (lit "unstarted", lit "blue");
   (lit "started", lit "yellow"); (lit "completed", lit "green");
   (lit "cancelled", lit "red"); (lit "triage", lit "blue")].

Definition PRIORITY_COLORS : list (Z * jsstring) :=
  [(0, lit "gray"); (1, lit "red"); (2, lit "red"); (3, lit "yellow");
   (4, lit "blue")]%Z.

(** [PRIORITY_COLORS[n]]: the key of a number is its decimal form, which is
    an own key for 0 to 4 only and never a member of [Object.prototype]. *)
Definition getPriorityColor (n : JsNumber) : option PropertyValue :=
  match n with
  | Integer z =>
      match find (fun kv => (fst kv =? z)%Z) PRIORITY_COLORS with
      | Some kv => Some (Str (snd kv))
      | None => None
      end
  | NotInteger => None
  end.

Record AssigneeField := mkAssigneeField {
  user_text : jsstring;
  user_email : option jsstring;
  assignee_field_type : jsstring
}.

Section Entities.
(** [Math.floor(new Date(s).getTime() / 1000)] is left to the host: a
    number, [NaN] for a string that is no date. *)
Variable Num : Type.
Variable epochSeconds : jsstring -> Num.

Record Fields := mkFields {
  description_value : jsstring;
  description_format : jsstring;
  status_value : jsstring;
  status_tag_color : PropertyValue;
  status_link : jsstring;
  priority_value : jsstring;
  priority_tag_color : PropertyValue;
  date_created : Num;
  date_updated : Num;
  field_assignee : option AssigneeField
}.

Record TaskEntity := mkEntity {
  entity_url : jsstring;
  external_ref_id : jsstring;
  external_ref_type : jsstring;
  entity_type : jsstring;
  title_text : jsstring;
  display_id : jsstring;
  display_type : jsstring;
  product_name : jsstring;
  metadata_last_modified : Num;
  fields : Fields
}.

Definition buildTaskEntity (issue : LinearIssue) : TaskEntity :=
  let stateColor :=
    nullish (getProperty STATE_TYPE_COLORS
               (nullish (option_map state_type (state issue)) []))
            (Str (lit "grey")) in
  let priorityColor :=
    nullish (getPriorityColor (priority issue)) (Str (lit "grey")) in
  let fields :=
    mkFields
      (nullish (option_map (fun d => slice d 0 500) (description issue)) [])
      (lit "markdown")
      (nullish (option_map state_name (state issue)) (lit "Unknown"))
      stateColor
      (issue_url issue)
      (orElse (priorityLabel issue) (lit "No priority"))
      priorityColor
      (epochSeconds (createdAt issue))
      (epochSeconds (updatedAt issue))
      (match assignee issue with
       | Some a =>
           Some (mkAssigneeField
                   (assignee_name a)
                   (match assignee_email a with
                    | Some e => if truthy e then Some e else None
                    | None => None
                    end)
                   (lit "slack#/types/user"))
       | None => None
       end) in
  mkEntity
    (issue_url issue)
    (issue_id issue)
    (lit "issue")
    (lit "slack#/entities/task")
    (identifier issue ++ lit ": " ++ title issue)
    (identifier issue)
    (lit "Issue")
    (lit "Linear")
    (epochSeconds (updatedAt issue))
    fields.

End Entities.

(** *** The issue cache and the request *)

Record CacheEntry := mkEntry { entry_issue : option LinearIssue; ts : Z }.

(** The [Map] [issueCache], as the list of its [set]s, latest first. *)
Definition Cache := list (maybeString * CacheEntry).

Fixpoint cacheGet (key : maybeString) (c : Cache) : option CacheEntry :=
  match c with
  | [] => None
  | (k, e) :: rest => if maybeString_eqb k key then Some e else cacheGet key rest
  end.

Definition cacheSet (key : maybeString) (e : CacheEntry) (c : Cache) : Cache :=
  (key, e) :: c.

Definition CACHE_TTL_MS : Z := 60000.

(** What comes back from the request: [fetch] rejects; or a response with
    its [ok] flag and its body, where [json()] rejects or gives [null]
    (reading [data.data] throws), or gives a value whose [data?.issue] is
    an issue or nullish. *)
Inductive Body :=
| BodyThrows
| BodyNull
| BodyData (issue : option LinearIssue).

Inductive Reply :=
| FetchThrows
| Response (ok : bool) (body : Body).

(** The module state, and how often [Date.now()] has been read. *)
Record World := mkWorld { cache : Cache; reads : nat }.

Section Requests.
(** The host: the value of the n-th reading of [Date.now()], and the reply
    to the request for an identifier with a key, sent after n readings. *)
Variable clock : nat -> Z.
Variable network : jsstring -> maybeString -> nat -> Reply.

Definition store (key : maybeString) (issue : option LinearIssue) (w : World)
  : World :=
  mkWorld (cacheSet key (mkEntry issue (clock (reads w))) (cache w))
          (S (reads w)).

(** The [try] block of [fetchLinearIssue]: the request and what is done
    with the reply.  [logVerbose] writes to the log and does nothing
    else. *)
Definition request (key : maybeString) (apiKey : jsstring) (w : World)
  : option LinearIssue * World :=
  match network apiKey key (reads w) with
  | FetchThrows => (None, w)
  | Response ok body =>
      if negb ok then (None, store key None w)
      else
        match body with
        | BodyThrows => (None, w)
        | BodyNull => (None, w)
        | BodyData issue => (issue, store key issue w)
        end
  end.

Definition fetchLinearIssue (key : maybeString) (apiKey : jsstring) (w : World)
  : option LinearIssue * World :=
  match cacheGet key (cache w) with
  | Some cached =>
      let w' := mkWorld (cache w) (S (reads w)) in
      if (clock (reads w) - ts cached <? CACHE_TTL_MS)%Z
      then (entry_issue cached, w')
      else request key apiKey w'
  | None => request key apiKey w
  end.

(** [xs.slice(0, k)] of an array. *)
Definition arrayPrefix {A} (xs : list A) (k : Z) : list A :=
  firstn (Z.to_nat (clampIndex (Z.of_nat (length xs)) k)) xs.

Variable Num : Type.
Variable epochSeconds : jsstring -> Num.

(** The [for (const id of toFetch)] loop. *)
Fixpoint fetchAll (ids : list maybeString) (apiKey : jsstring) (w : World)
         (entities : list (TaskEntity Num))
  : list (TaskEntity Num) * World :=
  match ids with
  | [] => (entities, w)
  | id :: rest =>
      let (issue, w') := fetchLinearIssue id apiKey w in
      match issue with
      | Some i =>
          fetchAll rest apiKey w' (entities ++ [buildTaskEntity epochSeconds i])
      | None => fetchAll rest apiKey w' entities
      end
  end.

(** [buildLinearWorkObjects(text, { limit })], with the value of the
    environment variable [LINEAR_API_KEY]. *)
Definition buildLinearWorkObjects (env : option jsstring) (text : jsstring)
           (limit : option Z) (w : World)
  : outcome (option (list (TaskEntity Num)) * World) :=
  match option_map trim env with
  | None => Returns (None, w)
  | Some apiKey =>
      if negb (truthy apiKey) then Returns (None, w)
      else
        identifiers <- extractIdentifiers text ;;
        if length identifiers =? 0 then Returns (None, w)
        else
          let limit := nullish limit 5%Z in
          let toFetch := arrayPrefix identifiers limit in
          let (entities, w') := fetchAll toFetch apiKey w [] in
          if length entities =? 0 then Returns (None, w')
          else Returns (Some entities, w')
  end.

End Requests.

End WorkObjects.

Unset Implicit Arguments.

(** ** Definitions used to state the properties of the work objects *)

(** The character before the end of [w], or [prev] when [w] is empty. *)
Fixpoint lastOr (prev : option char) (w : jsstring) : option char :=
  match w with
  | [] => prev
  | c :: w' => lastOr (Some c) w'
  end.

(** The words of a pattern with boundaries: [w] is matched after the
    character [prev], with [rest] left, and turns the captures [cs] into
    [cs']. *)
Fixpoint wderives (r : WordRe.regex) (prev : option char) (w rest : jsstring)
         (cs cs' : caps) : Prop :=
  match r with
  | WordRe.One p => (exists c, w = [c] /\ p c = true) /\ cs' = cs
  | WordRe.Boundary =>
      w = []
      /\ xorb (WordRe.wordAt prev) (WordRe.wordAt (hd_error rest)) = true
      /\ cs' = cs
  | WordRe.Repeat p min max =>
      Forall (fun c => p c = true) w /\ min <= length w <= max /\ cs' = cs
  | WordRe.Cat r1 r2 =>
      exists w1 w2 cs1,
        w = w1 ++ w2 /\ wderives r1 prev w1 (w2 ++ rest) cs cs1
        /\ wderives r2 (lastOr prev w1) w2 rest cs1 cs'
  | WordRe.Group n r' =>
      exists cs1, wderives r' prev w rest cs cs1 /\ cs' = (n, w) :: cs1
  end.

(** Every counted repetition of the pattern has its bounds in order. *)
Fixpoint boundsOrdered (r : WordRe.regex) : Prop :=
  match r with
  | WordRe.Repeat _ min max => min <= max
  | WordRe.Cat r1 r2 => boundsOrdered r1 /\ boundsOrdered r2
  | WordRe.Group _ r' => boundsOrdered r'
  | _ => True
  end.

(** A ticket identifier: 2 to 10 capital letters, a hyphen, 1 to 6
    digits. *)
Definition identifierShape (id : jsstring) : Prop :=
  exists letters digits,
    id = letters ++ [ch "-"] ++ digits
    /\ 2 <= length letters <= 10
    /\ Forall (fun c => WordRe.isUpper c = true) letters
    /\ 1 <= length digits <= 6
    /\ Forall (fun c => WordRe.isDigit c = true) digits.

(** [id] stands in the text at index [p], with no word character right
    before it and none right after it. *)
Definition occursBounded (text id : jsstring) (p : nat) : Prop :=
  exists a b,
    text = a ++ id ++ b /\ length a = p
    /\ WordRe.wordAt (lastOr None a) = false
    /\ WordRe.wordAt (hd_error b) = false.

(** [x] stands somewhere in the text before every place where [y]
    stands. *)
Definition seenBefore (text x y : jsstring) : Prop :=
  exists p,
    occursBounded text x p /\ forall p', occursBounded text y p' -> p < p'.

(** The identifiers of [ids] are listed by their first appearance in the
    text. *)
Fixpoint byFirstAppearance (text : jsstring) (ids : list jsstring) : Prop :=
  match ids with
  | [] => True
  | x :: rest =>
      Forall (seenBefore text x) rest /\ byFirstAppearance text rest
  end.

(** The tag colours that Slack accepts, as the source lists them. *)
Definition validTagColors : list jsstring :=
  [lit "red"; lit "yellow"; lit "green"; lit "gray"; lit "blue"].

Definition validTagColor (v : WorkObjects.PropertyValue) : Prop :=
  exists c, In c validTagColors /\ v = WorkObjects.Str c.

(** A request that gives no answer to store: it is rejected, or the body
    of an accepted response cannot be read. *)
Definition unanswered (r : WorkObjects.Reply) : Prop :=
  r = WorkObjects.FetchThrows
  \/ r = WorkObjects.Response true WorkObjects.BodyThrows
  \/ r = WorkObjects.Response true WorkObjects.BodyNull.

(** The entry of the cache is younger than a minute at the next reading of
    the clock. *)
Definition fresh (clock : nat -> Z) (w : WorkObjects.World)
           (e : WorkObjects.CacheEntry) : Prop :=
  (clock (WorkObjects.reads w) - WorkObjects.ts e < WorkObjects.CACHE_TTL_MS)%Z.

(** *** A sample host *)

Definition sampleIssue : WorkObjects.LinearIssue :=
  WorkObjects.mkIssue
    (lit "6f1c") (lit "ENG-1475") (lit "Tables in Slack")
    (Some (lit "Render *tables* as blocks")) (WorkObjects.Integer 2)
    (lit "High") (lit "2025-01-01T00:00:00Z") (lit "2025-01-02T00:00:00Z")
    (lit "https://linear.app/issue/ENG-1475")
    (Some (WorkObjects.mkState (lit "In Progress") (lit "#f2c94c")
             (lit "started")))
    (Some (WorkObjects.mkAssignee (lit "Ada") None))
    None.

(** A clock that advances by a second at every reading. *)
Definition sampleClock (n : nat) : Z := (1000 * Z.of_nat n)%Z.

(** A service that knows one ticket. *)
Definition sampleNetwork (apiKey : jsstring) (key : WorkObjects.maybeString)
           (n : nat) : WorkObjects.Reply :=
  if WorkObjects.maybeString_eqb key (Some (lit "ENG-1475"))
  then WorkObjects.Response true (WorkObjects.BodyData (Some sampleIssue))
  else WorkObjects.Response true (WorkObjects.BodyData None).

(** A service that is down. *)
Definition downNetwork (apiKey : jsstring) (key : WorkObjects.maybeString)
           (n : nat) : WorkObjects.Reply :=
  WorkObjects.FetchThrows.

(** A service that refuses every request. *)
Definition refusingNetwork (apiKey : jsstring) (key : WorkObjects.maybeString)
           (n : nat) : WorkObjects.Reply :=
  WorkObjects.Response false WorkObjects.BodyThrows.

Definition emptyWorld : WorkObjects.World := WorkObjects.mkWorld [] 0.

(** A service that knows one ticket and is down for every other. *)
Definition patchyNetwork (apiKey : jsstring) (key : WorkObjects.maybeString)
           (n : nat) : WorkObjects.Reply :=
  if WorkObjects.maybeString_eqb key (Some (lit "ENG-1475"))
  then WorkObjects.Response true (WorkObjects.BodyData (Some sampleIssue))
  else WorkObjects.FetchThrows.

(** * Posting a message: [src/slack/send.ts] *)

Set Implicit Arguments.

Module Send.

(** [hay.includes(needle)] on strings. *)
Fixpoint startsWithString (needle hay : jsstring) : bool :=
  match needle, hay with
  | [], _ => true
  | _ :: _, [] => false
  | x :: needle', y :: hay' => (x =? y)%N && startsWithString needle' hay'
  end.

Fixpoint includesString (needle hay : jsstring) : bool :=
  startsWithString needle hay
  || match hay with
     | [] => false
     | _ :: hay' => includesString needle hay'
     end.

(** [xs.includes(x)] on an array of strings. *)
Definition arrayIncludes (x : jsstring) (xs : list jsstring) : bool :=
  existsb (WorkObjects.string_eqb x) xs.

(** [Boolean(s)] of a string that may be undefined. *)
Definition given (s : option jsstring) : bool :=
  match s with Some x => truthy x | None => false end.

Record SlackSendIdentity := mkIdentity {
  username : option jsstring;
  iconUrl : option jsstring;
  iconEmoji : option jsstring
}.

(** [identity?.field] *)
Definition field (f : SlackSendIdentity -> option jsstring)
           (identity : option SlackSendIdentity) : option jsstring :=
  match identity with Some i => f i | None => None end.

Definition hasCustomIdentity (identity : option SlackSendIdentity) : bool :=
  given (field username identity) || given (field iconUrl identity)
  || given (field iconEmoji identity).

(** What a failed call throws: a value that is no [Error], or an [Error]
    with the [data] of the Slack client, if any. *)
Record ScopeLists := mkScopeLists {
  scopes : option (list jsstring);
  acceptedScopes : option (list jsstring)
}.

Record ErrorData := mkErrorData {
  error : option jsstring;
  needed : option jsstring;
  response_metadata : option ScopeLists
}.

Inductive Thrown :=
| NotAnError
| AnError (data : option ErrorData).

Section Send.
(** [String.prototype.toLowerCase] is left to the host. *)
Variable toLowerCase : jsstring -> jsstring.

Definition isSlackCustomizeScopeError (err : Thrown) : bool :=
  match err with
  | NotAnError => false
  | AnError data =>
      let code :=
        option_map toLowerCase
          (match data with Some d => error d | None => None end) in
      if negb (WorkObjects.maybeString_eqb code (Some (lit "missing_scope")))
      then false
      else
        let needed :=
          option_map toLowerCase
            (match data with Some d => needed d | None => None end) in
        if match needed with
           | Some n => includesString (lit "chat:write.customize") n
           | None => false
           end
        then true
        else
          let meta :=
            match data with Some d => response_metadata d | None => None end in
          let scopes :=
            map toLowerCase
              (nullish (match meta with Some m => scopes m | None => None end)
                       []
               ++ nullish (match meta with
                           | Some m => acceptedScopes m
                           | None => None
                           end) []) in
          arrayIncludes (lit "chat:write.customize") scopes
  end.

(** The blocks and the work object metadata are passed on as they are. *)
Variable Block : Type.
Variable Metadata : Type.
Variable Response : Type.

Record Params := mkParams {
  channelId : jsstring;
  text : jsstring;
  threadTs : option jsstring;
  identity : option SlackSendIdentity;
  blocks : option (list Block);
  workObjectMetadata : option Metadata
}.

(** The object sent; a key that is left out is [None]. *)
Record Payload := mkPayload {
  channel : jsstring;
  payload_text : jsstring;
  thread_ts : option jsstring;
  payload_blocks : option (list Block);
  payload_username : option jsstring;
  icon_url : option jsstring;
  icon_emoji : option jsstring;
  metadata : option Metadata
}.

Inductive Call :=
| ApiCall (method : jsstring) (p : Payload)
| ChatPostMessage (p : Payload).

Definition payloadOf (c : Call) : Payload :=
  match c with ApiCall _ p => p | ChatPostMessage p => p end.

Inductive Result :=
| Resolved (r : Response)
| Rejected (err : Thrown).

(** The client: the outcome of the n-th call made. *)
Variable client : Call -> nat -> Result.

(** [...(s ? { key: s } : {})] *)
Definition whenGiven (s : option jsstring) : option jsstring :=
  if given s then s else None.

Definition basePayload (params : Params) : Payload :=
  mkPayload (channelId params) (text params) (threadTs params)
    (match blocks params with
     | Some (b :: bs) => Some (b :: bs)
     | _ => None
     end)
    None None None None.

(** [{ ...p, ...identityPayload }] *)
Definition withIdentity (p : Payload)
           (u url emoji : option jsstring) : Payload :=
  mkPayload (channel p) (payload_text p) (thread_ts p) (payload_blocks p)
    (match u with Some x => Some x | None => payload_username p end)
    (match url with Some x => Some x | None => icon_url p end)
    (match emoji with Some x => Some x | None => icon_emoji p end)
    (metadata p).

Definition withMetadata (p : Payload) (m : option Metadata) : Payload :=
  mkPayload (channel p) (payload_text p) (thread_ts p) (payload_blocks p)
    (payload_username p) (icon_url p) (icon_emoji p)
    (match m with Some x => Some x | None => metadata p end).

(** The first call of [postSlackMessageBestEffort]. *)
Definition firstCall (params : Params) : Call :=
  let i := identity params in
  let identityPayload :=
    if given (field iconUrl i)
    then (whenGiven (field username i), field iconUrl i, None)
    else if given (field iconEmoji i)
    then (whenGiven (field username i), None, field iconEmoji i)
    else if given (field username i)
    then (field username i, None, None)
    else (None, None, None) in
  match workObjectMetadata params with
  | Some m =>
      let '(u, url, emoji) := identityPayload in
      ApiCall (lit "chat.postMessage")
        (withMetadata (withIdentity (basePayload params) u url emoji) (Some m))
  | None =>
      if given (field iconUrl i)
      then ChatPostMessage
             (withIdentity (basePayload params)
                (whenGiven (field username i)) (field iconUrl i) None)
      else if given (field iconEmoji i)
      then ChatPostMessage
             (withIdentity (basePayload params)
                (whenGiven (field username i)) None (field iconEmoji i))
      else ChatPostMessage
             (withIdentity (basePayload params)
                (whenGiven (field username i)) None None)
  end.

(** [postSlackMessageBestEffort(params)] when [n] calls have been made:
    its outcome and the calls it makes.  [logVerbose] writes to the log and
    does nothing else. *)
Definition postSlackMessageBestEffort (params : Params) (n : nat)
  : Result * list Call :=
  match client (firstCall params) n with
  | Resolved r => (Resolved r, [firstCall params])
  | Rejected err =>
      if negb (hasCustomIdentity (identity params))
         || negb (isSlackCustomizeScopeError err)
      then (Rejected err, [firstCall params])
      else
        let retry := ChatPostMessage (basePayload params) in
        (client retry (S n), [firstCall params; retry])
  end.

End Send.

End Send.

Unset Implicit Arguments.

(** ** Definitions used to state the properties of the posting *)

(** The identity names a user name, an icon URL or an icon emoji that is
    not empty. *)
Definition customIdentity (identity : option Send.SlackSendIdentity) : Prop :=
  exists i s,
    identity = Some i /\ s <> []
    /\ (Send.username i = Some s \/ Send.iconUrl i = Some s
        \/ Send.iconEmoji i = Some s).

(** What was thrown is an [Error] whose data has the code missing_scope
    and names the scope chat:write.customize, inside its [needed] string or
    as one of its scopes or accepted scopes, letter case apart. *)
Definition customizeScopeError (toLowerCase : jsstring -> jsstring)
           (err : Send.Thrown) : Prop :=
  exists d code,
    err = Send.AnError (Some d)
    /\ Send.error d = Some code
    /\ toLowerCase code = lit "missing_scope"
    /\ ((exists nd a b,
           Send.needed d = Some nd
           /\ toLowerCase nd = a ++ lit "chat:write.customize" ++ b)
        \/ exists m s,
             Send.response_metadata d = Some m
             /\ (In s (nullish (Send.scopes m) [])
                 \/ In s (nullish (Send.acceptedScopes m) []))
             /\ toLowerCase s = lit "chat:write.customize").

(** The second call: the message again, with no identity and no
    metadata. *)
Definition plainRepeatOf {Block Metadata : Type}
           (first retry : Send.Call Block Metadata) : Prop :=
  (exists p, retry = Send.ChatPostMessage p)
  /\ Send.channel (Send.payloadOf retry) = Send.channel (Send.payloadOf first)
  /\ Send.payload_text (Send.payloadOf retry)
     = Send.payload_text (Send.payloadOf first)
  /\ Send.thread_ts (Send.payloadOf retry)
     = Send.thread_ts (Send.payloadOf first)
  /\ Send.payload_blocks (Send.payloadOf retry)
     = Send.payload_blocks (Send.payloadOf first)
  /\ Send.payload_username (Send.payloadOf retry) = None
  /\ Send.icon_url (Send.payloadOf retry) = None
  /\ Send.icon_emoji (Send.payloadOf retry) = None
  /\ Send.metadata (Send.payloadOf retry) = None.

(** ** Facts about the built-ins *)

Section StringFacts.

Lemma dropWhile_split (p : char -> bool) (s : jsstring) :
  exists ws, s = ws ++ dropWhile p s /\ Forall (fun c => p c = true) ws.
Proof.
  induction s as [|c s IH]; simpl.
  - exists []. split; [reflexivity | constructor].
  - destruct (p c) eqn:E.
    + destruct IH as [ws [H1 H2]]. exists (c :: ws). split.
      * simpl. f_equal. exact H1.
      * constructor; assumption.
    + exists []. split; [reflexivity | constructor].
Qed.

Lemma dropWhile_head (p : char -> bool) (s : jsstring) c r :
  dropWhile p s = c :: r -> p c = false.
Proof.
  induction s as [|x s IH]; simpl; [discriminate|].
  destruct (p x) eqn:E; [exact IH|].
  intros H. injection H as -> _. exact E.
Qed.

Lemma dropWhile_fixed (p : char -> bool) (s : jsstring) :
  (forall c r, s = c :: r -> p c = false) -> dropWhile p s = s.
Proof.
  destruct s as [|c r]; simpl; [reflexivity|].
  intros H. rewrite (H c r eq_refl). reflexivity.
Qed.

Lemma dropWhile_incl (p : char -> bool) (s : jsstring) x :
  In x (dropWhile p s) -> In x s.
Proof.
  induction s as [|c s IH]; simpl; [tauto|].
  destruct (p c); simpl; tauto.
Qed.

Lemma trimStart_split (s : jsstring) :
  exists ws, s = ws ++ trimStart s /\ allWhite ws.
Proof. apply dropWhile_split. Qed.

Lemma trimEnd_split (s : jsstring) :
  exists ws, s = trimEnd s ++ ws /\ allWhite ws.
Proof.
  unfold trimEnd.
  destruct (dropWhile_split isWhiteSpace (rev s)) as [ws [H1 H2]].
  exists (rev ws). split.
  - rewrite <- rev_app_distr, <- H1, rev_involutive. reflexivity.
  - apply Forall_rev. exact H2.
Qed.

Lemma trim_incl (s : jsstring) x : In x (trim s) -> In x s.
Proof.
  unfold trim, trimEnd, trimStart. intros H.
  apply in_rev in H. apply dropWhile_incl in H. apply in_rev in H.
  apply dropWhile_incl in H. exact H.
Qed.

Lemma trim_head (s : jsstring) c r :
  trim s = c :: r -> isWhiteSpace c = false.
Proof.
  unfold trim. intros H.
  destruct (trimEnd_split (trimStart s)) as [ws [H1 _]].
  rewrite H in H1. simpl in H1.
  exact (dropWhile_head _ _ _ _ H1).
Qed.

Lemma trim_last (s : jsstring) c r :
  rev (trim s) = c :: r -> isWhiteSpace c = false.
Proof.
  unfold trim, trimEnd. rewrite rev_involutive.
  apply dropWhile_head.
Qed.

Lemma trim_idempotent (s : jsstring) : trim (trim s) = trim s.
Proof.
  unfold trim at 1.
  assert (H : trimStart (trim s) = trim s).
  { apply dropWhile_fixed. intros c r. apply trim_head. }
  rewrite H. unfold trimEnd at 1.
  rewrite dropWhile_fixed.
  - apply rev_involutive.
  - intros c r. apply trim_last.
Qed.

Lemma trim_white (s : jsstring) : allWhite s -> trim s = [].
Proof.
  intros H. unfold trim, trimStart.
  assert (E : dropWhile isWhiteSpace s = []).
  { induction H as [|c s Hc _ IH]; simpl; [reflexivity|].
    rewrite Hc. exact IH. }
  rewrite E. reflexivity.
Qed.

(** [split] and [join] *)

Lemma split_nonempty c s : split c s <> [].
Proof.
  destruct s as [|x s]; simpl; [discriminate|].
  destruct (x =? c)%N; [discriminate|].
  destruct (split c s); discriminate.
Qed.

Lemma unlines_app (a b : list jsstring) : unlines (a ++ b) = unlines a ++ unlines b.
Proof. unfold unlines. rewrite map_app, concat_app. reflexivity. Qed.

Lemma unlines_split (s : jsstring) : unlines (split nl s) = s ++ [nl].
Proof.
  induction s as [|x s IH]; simpl; [reflexivity|].
  destruct (x =? nl)%N eqn:E.
  - apply N.eqb_eq in E. subst x. unfold unlines in *. simpl.
    rewrite IH. reflexivity.
  - destruct (split nl s) as [|l ls] eqn:Es.
    + exfalso. exact (split_nonempty _ _ Es).
    + unfold unlines in *. simpl in *. rewrite IH. reflexivity.
Qed.

Lemma join_unlines (ls : list jsstring) :
  ls <> [] -> unlines ls = join [nl] ls ++ [nl].
Proof.
  induction ls as [|l ls IH]; [congruence|]. intros _.
  destruct ls as [|l' ls].
  - unfold unlines. simpl. rewrite app_nil_r. reflexivity.
  - change (unlines (l :: l' :: ls)) with ((l ++ [nl]) ++ unlines (l' :: ls)).
    rewrite IH by discriminate.
    change (join [nl] (l :: l' :: ls)) with (l ++ [nl] ++ join [nl] (l' :: ls)).
    rewrite <- !app_assoc. reflexivity.
Qed.

Lemma lengthNl_app (a b : list jsstring) : lengthNl (a ++ b) = (lengthNl a + lengthNl b)%Z.
Proof. unfold lengthNl. rewrite unlines_app, length_app. lia. Qed.

Lemma lengthNl_cons l ls :
  lengthNl (l :: ls) = (Z.of_nat (length l) + 1 + lengthNl ls)%Z.
Proof.
  unfold lengthNl, unlines. simpl. rewrite !length_app. simpl. lia.
Qed.

Lemma lengthNl_nonneg ls : (0 <= lengthNl ls)%Z.
Proof. unfold lengthNl. lia. Qed.

(** [slice] on indices inside the string *)

Lemma slice_prefix (s : jsstring) (b : Z) :
  (0 <= b)%Z -> slice s 0 b = firstn (Z.to_nat b) s.
Proof.
  intros Hb. unfold slice, clampIndex. simpl.
  rewrite (Z.min_l 0) by lia.
  destruct (b <? 0)%Z eqn:E; [apply Z.ltb_lt in E; lia|].
  rewrite Z.sub_0_r. simpl.
  destruct (Z.le_ge_cases b (Z.of_nat (length s))).
  - rewrite Z.min_l by lia. reflexivity.
  - rewrite Z.min_r by lia. rewrite Nat2Z.id.
    rewrite firstn_all. symmetry. apply firstn_all2. lia.
Qed.

Lemma sliceFrom_suffix (s : jsstring) (a : Z) :
  (0 <= a)%Z -> sliceFrom s a = skipn (Z.to_nat a) s.
Proof.
  intros Ha. unfold sliceFrom, slice, clampIndex.
  destruct (a <? 0)%Z eqn:E; [apply Z.ltb_lt in E; lia|].
  destruct (Z.of_nat (length s) <? 0)%Z eqn:E2; [apply Z.ltb_lt in E2; lia|].
  rewrite Z.min_id.
  destruct (Z.le_ge_cases a (Z.of_nat (length s))).
  - rewrite Z.min_l by lia. apply firstn_all2. rewrite length_skipn. lia.
  - rewrite Z.min_r by lia. rewrite Nat2Z.id.
    rewrite skipn_all. rewrite skipn_all2 by lia. apply firstn_nil.
Qed.

Lemma slice_middle (s : jsstring) (a b : Z) :
  (0 <= a <= b)%Z ->
  slice s a b = firstn (Z.to_nat b - Z.to_nat a) (skipn (Z.to_nat a) s).
Proof.
  intros Hab. unfold slice, clampIndex.
  destruct (a <? 0)%Z eqn:E; [apply Z.ltb_lt in E; lia|].
  destruct (b <? 0)%Z eqn:E2; [apply Z.ltb_lt in E2; lia|].
  set (n := length s).
  destruct (Z.le_ge_cases b (Z.of_nat n)).
  - rewrite (Z.min_l a), (Z.min_l b) by lia. f_equal. lia.
  - rewrite (Z.min_r b) by lia.
    destruct (Z.le_ge_cases a (Z.of_nat n)).
    + rewrite (Z.min_l a) by lia.
      rewrite !firstn_all2; try reflexivity; rewrite length_skipn; fold n; lia.
    + rewrite Z.min_r by lia. rewrite Nat2Z.id.
      unfold n. rewrite skipn_all. rewrite skipn_all2 by (fold n; lia).
      rewrite !firstn_nil. reflexivity.
Qed.

End StringFacts.

(** ** The table locator *)

Section Locator.

Import RichTable.

Lemma skipn_nth_error {A} (xs : list A) :
  forall k x, nth_error xs k = Some x -> skipn k xs = x :: skipn (S k) xs.
Proof.
  induction xs as [|y xs IH]; intros [|k] x H; simpl in *; try discriminate.
  - injection H as ->. reflexivity.
  - apply IH. exact H.
Qed.

Lemma firstn_app_exact {A} (a b : list A) n :
  n = length a -> firstn n (a ++ b) = a.
Proof.
  intros ->. rewrite firstn_app, Nat.sub_diag, firstn_all. simpl.
  apply app_nil_r.
Qed.

Lemma addLineLengths_ok (lines : list jsstring) :
  forall n i acc,
    (0 <= i)%Z -> Z.to_nat i + n <= length lines ->
    addLineLengths lines i n acc
    = Returns (acc + lengthNl (firstn n (skipn (Z.to_nat i) lines)))%Z.
Proof.
  induction n as [|n IH]; intros i acc Hi Hlen; cbn [addLineLengths].
  - unfold lengthNl. simpl. rewrite Z.add_0_r. reflexivity.
  - unfold item. destruct (i <? 0)%Z eqn:E; [apply Z.ltb_lt in E; lia|].
    destruct (nth_error lines (Z.to_nat i)) as [l|] eqn:En.
    + rewrite IH by lia.
      rewrite (@skipn_nth_error _ lines _ _ En), firstn_cons.
      rewrite lengthNl_cons.
      replace (Z.to_nat (i + 1)) with (S (Z.to_nat i)) by lia.
      apply f_equal. lia.
    + apply nth_error_None in En. lia.
Qed.

Lemma scanLines_cons i l rest' st :
  scanLines i (l :: rest') st
  = let line := trim l in
    if negb (inTable st) then
      if startsWith pipe line && endsWith pipe line && includes pipe 1 line
      then
        let cells := parsePipeRow line in
        if 1 <=? length cells then
          let nextLine := option_map trim (nth_error rest' 0) in
          if match nextLine with
             | Some n => truthy n && isSeparatorRow n
             | None => false
             end
          then
            scanLines (i + 1) rest'
              (mkScan i (tableEnd st) cells (curRows st) true false)
          else scanLines (i + 1) rest' st
        else scanLines (i + 1) rest' st
      else scanLines (i + 1) rest' st
    else if negb (pastSeparator st) then
      if isSeparatorRow line then
        scanLines (i + 1) rest'
          (mkScan (tableStart st) (tableEnd st) (curHeaders st) (curRows st)
                  (inTable st) true)
      else
        scanLines (i + 1) rest'
          (mkScan (tableStart st) (tableEnd st) [] (curRows st)
                  false (pastSeparator st))
    else if startsWith pipe line then
      let cells := parsePipeRow line in
      scanLines (i + 1) rest'
        (mkScan (tableStart st) i (curHeaders st) (curRows st ++ [cells])
                (inTable st) (pastSeparator st))
    else st.
Proof. reflexivity. Qed.

(** Collecting: the data rows are the longest run of lines that start with a
    pipe. *)
Lemma scan_collect (rest : list jsstring) :
  forall i st,
    inTable st = true -> pastSeparator st = true ->
    exists data post,
      rest = data ++ post
      /\ Forall (fun l => pipeLine l = true) data
      /\ (post = [] \/ exists l post', post = l :: post' /\ pipeLine l = false)
      /\ scanLines i rest st
         = mkScan (tableStart st)
                  (match data with
                   | [] => tableEnd st
                   | _ :: _ => i + Z.of_nat (length data) - 1
                   end)%Z
                  (curHeaders st)
                  (curRows st ++ map (fun l => parsePipeRow (trim l)) data)
                  true true.
Proof.
  induction rest as [|l rest IH]; intros i st Hin Hpast.
  - exists [], []. repeat split; auto.
    destruct st; simpl in *; subst. rewrite app_nil_r. reflexivity.
  - rewrite scanLines_cons. cbv zeta. rewrite Hin, Hpast. simpl negb. cbv iota.
    destruct (startsWith pipe (trim l)) eqn:Hp.
    + destruct (IH (i + 1)%Z
                  (mkScan (tableStart st) i (curHeaders st)
                          (curRows st ++ [parsePipeRow (trim l)]) true true)
                  eq_refl eq_refl)
        as [data [post [H1 [H2 [H3 H4]]]]].
      exists (l :: data), post. repeat split.
      * simpl. f_equal. exact H1.
      * constructor; assumption.
      * exact H3.
      * rewrite H4. simpl. rewrite <- app_assoc. simpl.
        f_equal. destruct data; simpl length; lia.
    + exists [], (l :: rest). repeat split; auto.
      * right. exists l, rest. split; auto.
      * destruct st; simpl in *; subst. rewrite app_nil_r. reflexivity.
Qed.

(** Searching: either no header is accepted, or the first accepted header
    and its separator are consumed and collecting begins. *)
Lemma scan_search (rest : list jsstring) :
  forall i st,
    inTable st = false ->
    scanLines i rest st = st
    \/ exists pre h sp rest',
        rest = pre ++ h :: sp :: rest'
        /\ headerLine h = true
        /\ parsePipeRow (trim h) <> []
        /\ isSeparatorRow (trim sp) = true
        /\ scanLines i rest st
           = scanLines (i + Z.of_nat (length pre) + 2) rest'
               (mkScan (i + Z.of_nat (length pre)) (tableEnd st)
                       (parsePipeRow (trim h)) (curRows st) true true).
Proof.
  induction rest as [|l rest IH]; intros i st Hin.
  - left. reflexivity.
  - rewrite scanLines_cons. cbv zeta. rewrite Hin. simpl negb. cbv iota.
    assert (Hskip :
      scanLines (i + 1) rest st = st
      \/ exists pre h sp rest',
          l :: rest = pre ++ h :: sp :: rest'
          /\ headerLine h = true
          /\ parsePipeRow (trim h) <> []
          /\ isSeparatorRow (trim sp) = true
          /\ scanLines (i + 1) rest st
             = scanLines (i + Z.of_nat (length pre) + 2) rest'
                 (mkScan (i + Z.of_nat (length pre)) (tableEnd st)
                         (parsePipeRow (trim h)) (curRows st) true true)).
    { destruct (IH (i + 1)%Z st Hin) as [H|[pre [h [sp [rest' [H1 [H2 [H3 [H4 H5]]]]]]]]].
      - left. exact H.
      - right. exists (l :: pre), h, sp, rest'. repeat split; auto.
        + simpl. f_equal. exact H1.
        + rewrite H5. simpl length. f_equal; [lia|]. f_equal. lia. }
    destruct (startsWith pipe (trim l) && endsWith pipe (trim l)
              && includes pipe 1 (trim l)) eqn:Hh; [|exact Hskip].
    destruct (1 <=? length (parsePipeRow (trim l))) eqn:Hc; [|exact Hskip].
    destruct rest as [|sp rest']; [exact Hskip|].
    simpl nth_error. simpl option_map. cbv iota.
    destruct (truthy (trim sp) && isSeparatorRow (trim sp)) eqn:Hs; [|exact Hskip].
    apply andb_true_iff in Hs. destruct Hs as [_ Hs].
    right. exists [], l, sp, rest'. repeat split; auto.
    + intros E. rewrite E in Hc. discriminate.
    + rewrite scanLines_cons. cbv zeta. simpl inTable. simpl pastSeparator.
      simpl negb. cbv iota. rewrite Hs. simpl.
      f_equal; [lia|]. f_equal. lia.
Qed.

(** What the locator returns: nothing, or the first accepted header, its
    separator and the run of data lines after them, with the offsets of that
    block of lines. *)
Lemma extractFirstTable_cases (text : jsstring) :
  extractFirstTable text = Returns None
  \/ exists pre h sp d data post,
      split nl text = pre ++ h :: sp :: (d :: data) ++ post
      /\ headerLine h = true
      /\ parsePipeRow (trim h) <> []
      /\ isSeparatorRow (trim sp) = true
      /\ Forall (fun l => pipeLine l = true) (d :: data)
      /\ (post = [] \/ exists l post', post = l :: post' /\ pipeLine l = false)
      /\ extractFirstTable text
         = Returns (Some (mkTableData
             (firstn 20 (parsePipeRow (trim h)))
             (map (firstn 20)
                  (firstn 99 (map (fun l => parsePipeRow (trim l)) (d :: data))))
             (lengthNl pre)
             (lengthNl (pre ++ h :: sp :: d :: data)))).
Proof.
  unfold extractFirstTable. set (lines := split nl text).
  destruct (scan_search lines 0 initScan eq_refl)
    as [H|[pre [h [sp [rest' [H1 [H2 [H3 [H4 H5]]]]]]]]].
  - left. rewrite H. reflexivity.
  - rewrite H5.
    match goal with |- context [scanLines ?i rest' ?st] =>
      destruct (scan_collect rest' i st eq_refl eq_refl)
        as [data [post [G1 [G2 [G3 G4]]]]]
    end.
    rewrite G4. unfold initScan.
    cbn [inTable curHeaders curRows tableStart tableEnd negb orb app].
    destruct data as [|d data].
    + left. cbn [map length Nat.eqb]. rewrite orb_true_r. reflexivity.
    + right. exists pre, h, sp, d, data, post.
      assert (Hlines : lines = pre ++ h :: sp :: (d :: data) ++ post).
      { rewrite H1, G1. reflexivity. }
      repeat split; auto.
      destruct (parsePipeRow (trim h)) as [|c0 cs] eqn:Hc; [congruence|].
      cbn [length Nat.eqb orb map].
      set (n := length pre) in *.
      assert (Hlen : length lines = n + 2 + S (length data) + length post).
      { rewrite Hlines. rewrite !length_app. simpl. rewrite length_app.
        simpl. fold n. lia. }
      rewrite !Z.add_0_l.
      rewrite addLineLengths_ok by (simpl; lia).
      cbn [bind].
      match goal with |- context [(?e =? -1)%Z] =>
        replace (e =? -1)%Z with false by (symmetry; apply Z.eqb_neq; lia)
      end.
      rewrite addLineLengths_ok by lia.
      cbn [bind].
      rewrite addLineLengths_ok by (simpl; lia).
      cbn [bind].
      do 2 f_equal. f_equal.
      * simpl. rewrite Hlines.
        rewrite firstn_app_exact by (fold n; lia). reflexivity.
      * simpl skipn. rewrite Z.add_0_l. rewrite Hlines.
        replace (pre ++ h :: sp :: (d :: data) ++ post)
          with ((pre ++ h :: sp :: d :: data) ++ post)
          by (rewrite <- app_assoc; reflexivity).
        rewrite firstn_app_exact; [reflexivity|].
        rewrite length_app. simpl. fold n. lia.
Qed.

End Locator.

(** ** The matcher against the words a pattern stands for *)

Section MatcherFacts.

Variable A : Type.
Implicit Types (k : cont A) (p : char -> bool) (s w rest : jsstring).

Lemma greedyRun_sound p : forall s pos cs k x,
  greedyRun p pos s cs k = Some x ->
  exists w rest, s = w ++ rest /\ Forall (fun c => p c = true) w
                 /\ k (pos + length w) rest cs = Some x.
Proof.
  induction s as [|c s IH]; intros pos cs k x H; simpl in H.
  - exists [], []. simpl. rewrite Nat.add_0_r. auto.
  - destruct (p c) eqn:Hp.
    + destruct (greedyRun p (S pos) s cs k) as [y|] eqn:Hg.
      * injection H as ->. apply IH in Hg.
        destruct Hg as [w [rest [-> [Hw Hk]]]].
        exists (c :: w), rest. simpl. repeat split; auto.
        rewrite Nat.add_succ_r. exact Hk.
      * exists [], (c :: s). simpl. rewrite Nat.add_0_r. auto.
    + exists [], (c :: s). simpl. rewrite Nat.add_0_r. auto.
Qed.

Lemma lazyRun_sound p : forall s pos cs k x,
  lazyRun p pos s cs k = Some x ->
  exists w rest, s = w ++ rest /\ Forall (fun c => p c = true) w
                 /\ k (pos + length w) rest cs = Some x.
Proof.
  induction s as [|c s IH]; intros pos cs k x H; simpl in H.
  - destruct (k pos [] cs) as [y|] eqn:Hk; [|discriminate].
    injection H as ->. exists [], []. simpl. rewrite Nat.add_0_r. auto.
  - destruct (k pos (c :: s) cs) as [y|] eqn:Hk.
    + injection H as ->. exists [], (c :: s). simpl.
      rewrite Nat.add_0_r. auto.
    + destruct (p c) eqn:Hp; [|discriminate].
      apply IH in H. destruct H as [w [rest [-> [Hw Hk']]]].
      exists (c :: w), rest. simpl. repeat split; auto.
      rewrite Nat.add_succ_r. exact Hk'.
Qed.

Lemma greedyRun_fallback p s pos cs k :
  k pos s cs <> None -> greedyRun p pos s cs k <> None.
Proof.
  destruct s as [|c s]; simpl; auto.
  destruct (p c); auto.
  destruct (greedyRun p (S pos) s cs k); [discriminate | auto].
Qed.

Lemma greedyRun_complete p : forall w pos rest cs k,
  Forall (fun c => p c = true) w ->
  k (pos + length w) rest cs <> None ->
  greedyRun p pos (w ++ rest) cs k <> None.
Proof.
  induction w as [|c w IH]; intros pos rest cs k Hw Hk.
  - simpl in *. rewrite Nat.add_0_r in Hk. apply greedyRun_fallback. exact Hk.
  - inversion Hw as [|? ? Hc Hw']; subst. simpl. rewrite Hc.
    assert (H : greedyRun p (S pos) (w ++ rest) cs k <> None).
    { apply IH; auto. simpl in Hk. rewrite Nat.add_succ_r in Hk. exact Hk. }
    destruct (greedyRun p (S pos) (w ++ rest) cs k); [discriminate | congruence].
Qed.

Lemma lazyRun_complete p : forall w pos rest cs k,
  Forall (fun c => p c = true) w ->
  k (pos + length w) rest cs <> None ->
  lazyRun p pos (w ++ rest) cs k <> None.
Proof.
  induction w as [|c w IH]; intros pos rest cs k Hw Hk.
  - simpl in *. rewrite Nat.add_0_r in Hk.
    destruct rest as [|c r]; simpl; destruct (k pos _ cs); congruence.
  - inversion Hw as [|? ? Hc Hw']; subst. simpl.
    destruct (k pos (c :: w ++ rest) cs); [discriminate|].
    rewrite Hc. apply IH; auto.
    simpl in Hk. rewrite Nat.add_succ_r in Hk. exact Hk.
Qed.

End MatcherFacts.

Lemma derives_denote (r : regex) : forall pos w rest cs cs',
  derives r pos w rest cs cs' -> denote r pos w rest.
Proof.
  induction r as [p| | |r1 IH1 r2 IH2|r1 IH1 r2 IH2|p|p|p|p|n r IH];
    intros pos w rest cs cs' D; simpl in D |- *;
    try (destruct D as [D _]; exact D).
  - destruct D as [w1 [w2 [cs1 [-> [D1 D2]]]]].
    exists w1, w2. eauto.
  - destruct D as [D|D]; eauto.
  - destruct D as [cs1 [D _]]. eauto.
Qed.

(** What the matcher finds is a word of the pattern, with the captures of
    the groups on the way. *)
Lemma rmatch_sound (r : regex) :
  forall A pos s cs (k : cont A) x,
    rmatch r pos s cs k = Some x ->
    exists w rest cs',
      s = w ++ rest /\ derives r pos w rest cs cs'
      /\ k (pos + length w) rest cs' = Some x.
Proof.
  induction r as [p| | |r1 IH1 r2 IH2|r1 IH1 r2 IH2|p|p|p|p|n r IH];
    intros A pos s cs k x H; simpl in H.
  - destruct s as [|c s]; [discriminate|].
    destruct (p c) eqn:Hp; [|discriminate].
    exists [c], s, cs. simpl. rewrite Nat.add_1_r. repeat split; eauto.
  - destruct (Nat.eqb pos 0) eqn:E; [|discriminate].
    apply Nat.eqb_eq in E.
    exists [], s, cs. simpl. rewrite Nat.add_0_r. repeat split; auto.
  - destruct s as [|c s]; [|discriminate].
    exists [], [], cs. simpl. rewrite Nat.add_0_r. repeat split; auto.
  - apply IH1 in H.
    destruct H as [w1 [rest1 [cs1 [-> [D1 H]]]]].
    apply IH2 in H.
    destruct H as [w2 [rest [cs2 [-> [D2 H]]]]].
    exists (w1 ++ w2), rest, cs2. rewrite <- app_assoc.
    repeat split; auto.
    + simpl. exists w1, w2, cs1. auto.
    + rewrite length_app, Nat.add_assoc. exact H.
  - destruct (rmatch r1 pos s cs k) as [y|] eqn:E.
    + injection H as ->. apply IH1 in E.
      destruct E as [w [rest [cs' [-> [D E]]]]].
      exists w, rest, cs'. simpl. auto.
    + apply IH2 in H.
      destruct H as [w [rest [cs' [-> [D E']]]]].
      exists w, rest, cs'. simpl. auto.
  - assert (Hnil : k pos s cs = Some x ->
                   exists w rest cs', s = w ++ rest
                     /\ derives (Opt p) pos w rest cs cs'
                     /\ k (pos + length w) rest cs' = Some x).
    { intros Hk. exists [], s, cs. simpl. rewrite Nat.add_0_r. auto. }
    destruct s as [|c s]; [auto|].
    destruct (p c) eqn:Hp; [|auto].
    destruct (k (S pos) s cs) as [y|] eqn:E; [|auto].
    injection H as ->. exists [c], s, cs. simpl. rewrite Nat.add_1_r.
    repeat split; eauto.
  - apply greedyRun_sound in H. destruct H as [w [rest [-> [Hw Hk]]]].
    exists w, rest, cs. simpl. auto.
  - destruct s as [|c s]; [discriminate|].
    destruct (p c) eqn:Hp; [|discriminate].
    apply greedyRun_sound in H. destruct H as [w [rest [-> [Hw Hk]]]].
    exists (c :: w), rest, cs. simpl. repeat split; auto.
    + discriminate.
    + rewrite Nat.add_succ_r. exact Hk.
  - destruct s as [|c s]; [discriminate|].
    destruct (p c) eqn:Hp; [|discriminate].
    apply lazyRun_sound in H. destruct H as [w [rest [-> [Hw Hk]]]].
    exists (c :: w), rest, cs. simpl. repeat split; auto.
    + discriminate.
    + rewrite Nat.add_succ_r. exact Hk.
  - apply IH in H.
    destruct H as [w [rest [cs' [-> [D H]]]]].
    replace (pos + length w - pos) with (length w) in H by lia.
    rewrite firstn_app_exact in H by reflexivity.
    exists w, rest, ((n, w) :: cs'). simpl. repeat split; eauto.
Qed.

Lemma rmatch_complete (r : regex) :
  forall A pos w rest cs (k : cont A),
    denote r pos w rest ->
    (forall cs', k (pos + length w) rest cs' <> None) ->
    rmatch r pos (w ++ rest) cs k <> None.
Proof.
  induction r as [p| | |r1 IH1 r2 IH2|r1 IH1 r2 IH2|p|p|p|p|n r IH];
    intros A pos w rest cs k D Hk; simpl in D |- *.
  - destruct D as [c [-> Hp]]. simpl. rewrite Hp.
    specialize (Hk cs). simpl in Hk. rewrite Nat.add_1_r in Hk. exact Hk.
  - destruct D as [-> ->]. simpl. specialize (Hk cs). exact Hk.
  - destruct D as [-> ->]. simpl. specialize (Hk cs). simpl in Hk.
    rewrite Nat.add_0_r in Hk. exact Hk.
  - destruct D as [w1 [w2 [-> [D1 D2]]]]. rewrite <- app_assoc.
    apply IH1; [exact D1|]. intros cs'. apply IH2; [exact D2|].
    intros cs''. specialize (Hk cs'').
    rewrite length_app, Nat.add_assoc in Hk. exact Hk.
  - destruct D as [D|D].
    + pose proof (IH1 A pos w rest cs k D Hk) as H.
      destruct (rmatch r1 pos (w ++ rest) cs k); [discriminate | congruence].
    + destruct (rmatch r1 pos (w ++ rest) cs k); [discriminate|].
      apply IH2; assumption.
  - destruct D as [->|[c [-> Hp]]].
    + simpl. specialize (Hk cs). simpl in Hk. rewrite Nat.add_0_r in Hk.
      destruct rest as [|c rest]; [exact Hk|].
      destruct (p c); [|exact Hk].
      destruct (k (S pos) rest cs); [discriminate | exact Hk].
    + simpl. rewrite Hp. specialize (Hk cs). simpl in Hk.
      rewrite Nat.add_1_r in Hk.
      destruct (k (S pos) rest cs); [discriminate | congruence].
  - apply greedyRun_complete; auto.
  - destruct D as [Hne Hw]. destruct w as [|c w]; [congruence|].
    inversion Hw as [|? ? Hc Hw']; subst. simpl. rewrite Hc.
    apply greedyRun_complete; auto.
    specialize (Hk cs). simpl in Hk. rewrite Nat.add_succ_r in Hk. exact Hk.
  - destruct D as [Hne Hw]. destruct w as [|c w]; [congruence|].
    inversion Hw as [|? ? Hc Hw']; subst. simpl. rewrite Hc.
    apply lazyRun_complete; auto.
    specialize (Hk cs). simpl in Hk. rewrite Nat.add_succ_r in Hk. exact Hk.
  - apply IH; [exact D|]. intros cs'. apply Hk.
Qed.

(** ** Searching, and the inline tokenizer *)

Lemma matchAt_sound re pos s m :
  matchAt re pos s = Some m ->
  exists w rest,
    s = w ++ rest /\ derives re pos w rest [] (groups m)
    /\ index m = pos /\ matched m = w.
Proof.
  unfold matchAt.
  destruct (rmatch re pos s [] accept) as [[e cs]|] eqn:E; [|discriminate].
  intros H. injection H as <-.
  apply rmatch_sound in E.
  destruct E as [w [rest [cs' [-> [D H]]]]].
  unfold accept in H. injection H as <- <-.
  exists w, rest. simpl. repeat split; auto.
  replace (pos + length w - pos) with (length w) by lia.
  apply firstn_app_exact. reflexivity.
Qed.

Lemma search_sound re : forall s pos m,
  search re pos s = Some m ->
  exists pre w rest,
    s = pre ++ w ++ rest /\ index m = pos + length pre /\ matched m = w
    /\ derives re (index m) w rest [] (groups m).
Proof.
  induction s as [|c s IH]; intros pos m H; simpl in H.
  - destruct (matchAt re pos []) as [m'|] eqn:E; [|discriminate].
    injection H as ->.
    destruct (matchAt_sound _ _ _ _ E) as [w [rest [Hs [D [Hi Hm]]]]].
    exists [], w, rest. simpl. rewrite Nat.add_0_r, Hi. auto.
  - destruct (matchAt re pos (c :: s)) as [m'|] eqn:E.
    + injection H as ->.
      destruct (matchAt_sound _ _ _ _ E) as [w [rest [Hs [D [Hi Hm]]]]].
      exists [], w, rest. simpl. rewrite Nat.add_0_r, Hi. auto.
    + apply IH in H.
      destruct H as [pre [w [rest [-> [Hi [Hm D]]]]]].
      exists (c :: pre), w, rest. simpl. repeat split; auto. lia.
Qed.

Lemma matchAt_complete re pos w rest :
  denote re pos w rest -> matchAt re pos (w ++ rest) <> None.
Proof.
  intros D. unfold matchAt.
  assert (H : rmatch re pos (w ++ rest) [] accept <> None).
  { apply rmatch_complete; [exact D|]. intros cs'. discriminate. }
  destruct (rmatch re pos (w ++ rest) [] accept) as [[e cs]|];
    [discriminate | congruence].
Qed.

Lemma search_complete re : forall pre pos w rest,
  denote re (pos + length pre) w rest ->
  search re pos (pre ++ w ++ rest) <> None.
Proof.
  induction pre as [|c pre IH]; intros pos w rest D.
  - simpl in *. rewrite Nat.add_0_r in D.
    apply matchAt_complete in D.
    destruct (w ++ rest) as [|c s]; simpl;
      destruct (matchAt re pos _); congruence.
  - simpl. destruct (matchAt re pos (c :: pre ++ w ++ rest)); [discriminate|].
    apply IH. simpl in D. rewrite Nat.add_succ_r in D. exact D.
Qed.

(** [test] holds exactly when some substring is a word of the pattern. *)
Lemma test_true_iff re s :
  test re s = true
  <-> exists pre w rest, s = pre ++ w ++ rest /\ denote re (length pre) w rest.
Proof.
  unfold test. split.
  - destruct (search re 0 s) as [m|] eqn:E; [|discriminate]. intros _.
    apply search_sound in E.
    destruct E as [pre [w [rest [-> [Hi [_ D]]]]]].
    exists pre, w, rest. split; [reflexivity|].
    rewrite Hi in D. simpl in D. exact (derives_denote _ _ _ _ _ _ D).
  - intros [pre [w [rest [-> D]]]].
    pose proof (@search_complete re pre 0 w rest D) as H.
    destruct (search re 0 (pre ++ w ++ rest)); [reflexivity | congruence].
Qed.

Section Tokenizer.

Import RichTable.

(** Peels the words of a concrete pattern apart. *)
Ltac peel D :=
  repeat match type of D with
         | _ \/ _ => destruct D as [D|D]
         end;
  repeat match goal with
         | H : exists _, _ |- _ => destruct H as [? H]
         | H : _ /\ _ |- _ => destruct H as [? ?]
         | H : _ \/ _ |- _ => destruct H as [H|H]
         end;
  subst.

(** Names the characters that matched a literal of the pattern. *)
Ltac literals :=
  repeat match goal with
         | H : isChar _ _ = true |- _ =>
             unfold isChar in H; apply N.eqb_eq in H; subst
         end.

(** A match of one family: its captures and its text. *)
Lemma family_match (f : Family) pos w rest cs :
  derives (familyRe f) pos w rest [] cs ->
  exists t u,
    t <> [] /\ delimited f t u w
    /\ capsNonEmpty cs
    /\ matchElement (mkMatch pos w cs)
       = [Elem.mk (typeOf f) (Some t) u (styleOf f)].
Proof.
  assert (Hcaps1 : forall n (t : jsstring), t <> [] -> capsNonEmpty [(n, t)]).
  { intros n t Ht m v [E|[]]. injection E as _ <-. exact Ht. }
  destruct f; cbn [familyRe]; unfold boldStars, boldUnderscores, italicStar,
    italicUnderscore, strikeTildes, codeTicks, linkBrackets, Chr;
    cbn [seq derives denote]; intros D; peel D.
  - eexists _, None. split; [eassumption|]. split; [|split; [auto|reflexivity]].
    split; [reflexivity|]. left.
    literals. reflexivity.
  - eexists _, None. split; [eassumption|]. split; [|split; [auto|reflexivity]].
    split; [reflexivity|]. right.
    literals. reflexivity.
  - eexists _, None. split; [eassumption|]. split; [|split; [auto|reflexivity]].
    split; [reflexivity|]. left.
    literals. reflexivity.
  - eexists _, None. split; [eassumption|]. split; [|split; [auto|reflexivity]].
    split; [reflexivity|]. right.
    literals. reflexivity.
  - eexists _, None. split; [eassumption|]. split; [|split; [auto|reflexivity]].
    split; [reflexivity|].
    literals. reflexivity.
  - eexists _, None. split; [eassumption|]. split; [|split; [auto|reflexivity]].
    split; [reflexivity|].
    literals. reflexivity.
  - match goal with
    | Ht : ?t <> [], Hu : ?u <> [] |- context [(8, ?u) :: (7, ?t) :: _] =>
        exists t, (Some u); split; [exact Ht|]; split; [|split]
    end.
    + eexists. split; [reflexivity|]. split; [eassumption|].
      literals. reflexivity.
    + intros m v [E|[E|[]]]; injection E as _ <-; assumption.
    + reflexivity.
Qed.

Lemma inlineRe_family pos w rest cs :
  derives inlineRe pos w rest [] cs ->
  exists f, derives (familyRe f) pos w rest [] cs.
Proof.
  unfold inlineRe. cbn [alt]. intros D.
  change (derives boldStars pos w rest [] cs
          \/ derives boldUnderscores pos w rest [] cs
          \/ derives italicStar pos w rest [] cs
          \/ derives italicUnderscore pos w rest [] cs
          \/ derives strikeTildes pos w rest [] cs
          \/ derives codeTicks pos w rest [] cs
          \/ derives linkBrackets pos w rest [] cs) in D.
  destruct D as [D|[D|[D|[D|[D|[D|D]]]]]].
  - exists Bold. left. exact D.
  - exists Bold. right. exact D.
  - exists Italic. left. exact D.
  - exists Italic. right. exact D.
  - exists Strike. exact D.
  - exists Code. exact D.
  - exists Hyperlink. exact D.
Qed.

Lemma delimited_nonempty f t u w : delimited f t u w -> w <> [].
Proof.
  destruct f; simpl; intros D; peel D; discriminate.
Qed.

(** What [exec] finds lies inside the text, after [lastIndex], is not
    empty, and is the match of a family. *)
Lemma exec_inlineRe text lastIndex m :
  exec inlineRe text lastIndex = Some m ->
  lastIndex <= index m
  /\ index m + length (matched m) <= length text
  /\ matched m <> []
  /\ capsNonEmpty (groups m)
  /\ Forall nonEmptyText (matchElement m).
Proof.
  unfold exec. destruct (length text <? lastIndex) eqn:E; [discriminate|].
  apply Nat.ltb_ge in E. intros H.
  apply search_sound in H.
  destruct H as [pre [w [rest [Hs [Hi [Hm D]]]]]].
  assert (Hl : length (skipn lastIndex text)
               = length pre + (length w + length rest)).
  { rewrite Hs, !length_app. reflexivity. }
  rewrite length_skipn in Hl.
  destruct (inlineRe_family _ _ _ _ D) as [f Df].
  destruct (family_match f _ _ _ _ Df) as [t [u [Ht [Hd [Hc He]]]]].
  rewrite Hm. repeat split; try lia; auto.
  - eapply delimited_nonempty; eauto.
  - destruct m as [i w' g]. simpl in *. subst w'.
    unfold matchElement in *. simpl in *. rewrite He.
    repeat constructor. exists t. auto.
Qed.

Lemma truthy_nonempty s : truthy s = true -> s <> [].
Proof. destruct s; [discriminate | discriminate]. Qed.

Lemma parseLoop_returns : forall fuel text lastIndex els,
  lastIndex <= length text ->
  length text - lastIndex < fuel ->
  Forall nonEmptyText els ->
  exists els' lastIndex',
    parseLoop fuel text lastIndex els = Returns (els', lastIndex')
    /\ lastIndex' <= length text
    /\ Forall nonEmptyText els'.
Proof.
  induction fuel as [|fuel IH]; intros text lastIndex els Hle Hfuel Hels;
    [lia|].
  cbn [parseLoop].
  destruct (exec inlineRe text lastIndex) as [m|] eqn:E.
  - destruct (exec_inlineRe _ _ _ E) as [H1 [H2 [H3 [_ H4]]]].
    assert (Hlen : 0 < length (matched m)).
    { destruct (matched m); [congruence | simpl; lia]. }
    cbv zeta.
    destruct (index m + length (matched m) <=? lastIndex) eqn:G.
    { apply Nat.leb_le in G. lia. }
    apply IH; try lia.
    apply Forall_app. split; [|exact H4].
    destruct (lastIndex <? index m); [|exact Hels].
    destruct (truthy (slice text (Z.of_nat lastIndex) (Z.of_nat (index m))))
      eqn:T; [|exact Hels].
    apply Forall_app. split; [exact Hels|].
    repeat constructor. eexists. split; [reflexivity|].
    apply truthy_nonempty. exact T.
  - exists els, lastIndex. auto.
Qed.

(** The tokenizer returns: it neither throws nor loops, every run it returns
    has a non-empty text, and it returns a run whenever the text is not
    empty. *)
Lemma parseInlineMarkdown_returns text :
  exists els,
    parseInlineMarkdown text = Returns els
    /\ Forall nonEmptyText els
    /\ (text <> [] -> els <> []).
Proof.
  unfold parseInlineMarkdown.
  destruct (parseLoop_returns (S (length text)) text 0 [])
    as [els [li [H [Hli Hels]]]]; [lia | lia | constructor |].
  rewrite H. cbn [bind].
  set (els1 := if li <? length text then _ else els).
  assert (H1 : Forall nonEmptyText els1).
  { unfold els1. destruct (li <? length text); [|exact Hels].
    destruct (truthy (sliceFrom text (Z.of_nat li))) eqn:T; [|exact Hels].
    apply Forall_app. split; [exact Hels|].
    repeat constructor. eexists. split; [reflexivity|].
    apply truthy_nonempty. exact T. }
  eexists. split; [reflexivity|]. split.
  - destruct ((length els1 =? 0) && truthy text) eqn:G; [|exact H1].
    apply andb_true_iff in G. destruct G as [_ G].
    apply Forall_app. split; [exact H1|].
    repeat constructor. eexists. split; [reflexivity|].
    apply truthy_nonempty. exact G.
  - intros Hne. destruct text as [|c text]; [congruence|].
    destruct els1 as [|e els1'] ; simpl; discriminate.
Qed.

Lemma buildCell_returns text :
  exists c, buildCell text = Returns c /\ cellNonEmpty c.
Proof.
  unfold buildCell. set (trimmed := orElse (trim text) (lit " ")).
  assert (Hne : trimmed <> []).
  { unfold trimmed, orElse. destruct (trim text); simpl; discriminate. }
  destruct (hasInlineFormatting trimmed); simpl.
  - destruct (parseInlineMarkdown_returns trimmed) as [els [H1 [H2 H3]]].
    rewrite H1. simpl. eexists. split; [reflexivity|].
    simpl. exists els. auto.
  - eexists. split; [reflexivity|]. exact Hne.
Qed.

End Tokenizer.

(** ** The block assembler and the facade *)

Lemma mapM_returns {A B} (f : A -> outcome B) (P : B -> Prop) :
  forall xs,
    (forall x, In x xs -> exists y, f x = Returns y /\ P y) ->
    exists ys, mapM f xs = Returns ys /\ Forall P ys /\ length ys = length xs.
Proof.
  induction xs as [|x xs IH]; intros H.
  - exists []. simpl. auto.
  - destruct (H x (or_introl eq_refl)) as [y [Hy Py]].
    destruct IH as [ys [Hys [Pys Hl]]].
    { intros x' Hx'. apply H. right. exact Hx'. }
    exists (y :: ys). simpl. rewrite Hy. simpl. rewrite Hys. simpl.
    repeat split; auto.
Qed.

Lemma mapM_pure {A B} (f : A -> outcome B) (g : A -> B) :
  forall xs,
    (forall x, In x xs -> f x = Returns (g x)) ->
    mapM f xs = Returns (map g xs).
Proof.
  induction xs as [|x xs IH]; intros H; simpl; [reflexivity|].
  rewrite (H x (or_introl eq_refl)). simpl.
  rewrite IH by (intros x' Hx'; apply H; right; exact Hx'). reflexivity.
Qed.

(** The two source files have the same locator. *)
Lemma locators_agree (text : jsstring) :
  RawTable.extractFirstTable text = RichTable.extractFirstTable text.
Proof. reflexivity. Qed.

Lemma rich_buildTableBlock_returns (t : TableData) :
  exists b,
    RichTable.buildTableBlock t = Returns b
    /\ length (Block.rows b) = S (length (rows t))
    /\ Forall (fun row => length row = length (headers t)
                          /\ Forall cellNonEmpty row) (Block.rows b)
    /\ length (Block.column_settings b) = length (headers t).
Proof.
  unfold RichTable.buildTableBlock.
  destruct (mapM_returns (fun h => RichTable.buildCell (orElse h (lit " ")))
              cellNonEmpty (headers t)) as [hr [H1 [H2 H3]]].
  { intros x _. apply buildCell_returns. }
  rewrite H1. cbn [bind].
  destruct (mapM_returns
              (fun row =>
                 mapM (fun i => RichTable.buildCell
                                  (nullish (nth_error row i)
                                           RichTable.placeholder))
                      (List.seq 0 (length (headers t))))
              (fun row => length row = length (headers t)
                          /\ Forall cellNonEmpty row)
              (rows t)) as [dr [G1 [G2 G3]]].
  { intros row _.
    destruct (mapM_returns
                (fun i => RichTable.buildCell
                            (nullish (nth_error row i) RichTable.placeholder))
                cellNonEmpty (List.seq 0 (length (headers t))))
      as [cells [K1 [K2 K3]]].
    { intros i _. apply buildCell_returns. }
    exists cells. rewrite length_seq in K3. auto. }
  rewrite G1. cbn [bind].
  eexists. split; [reflexivity|]. simpl. repeat split.
  - f_equal. exact G3.
  - constructor; auto.
  - apply length_map.
Qed.

Lemma raw_buildTableBlock_rows (t : TableData) :
  length (Block.rows (RawTable.buildTableBlock t)) = S (length (rows t))
  /\ Forall (fun row => length row = length (headers t)
                        /\ Forall cellNonEmpty row)
            (Block.rows (RawTable.buildTableBlock t)).
Proof.
  assert (Hor : forall s, orElse s (lit " ") <> []).
  { intros s. unfold orElse. destruct s; simpl; discriminate. }
  unfold RawTable.buildTableBlock. simpl. split.
  - rewrite length_map. reflexivity.
  - constructor.
    + split; [apply length_map|].
      apply Forall_map. apply Forall_forall. intros h _. simpl. apply Hor.
    + apply Forall_map. apply Forall_forall. intros row _. split.
      * rewrite length_map, length_seq. reflexivity.
      * apply Forall_map. apply Forall_forall. intros i _. simpl. apply Hor.
Qed.

(** Where the offsets of a block of lines point in the text. *)
Lemma text_around_block (markdown : jsstring) pre block post :
  split nl markdown = pre ++ block ++ post ->
  block <> [] ->
  markdown = unlines pre ++ firstn (length markdown - length (unlines pre))
                                   (unlines block) ++ join [nl] post
  /\ slice markdown 0 (lengthNl pre) = unlines pre
  /\ sliceFrom markdown (lengthNl (pre ++ block)) = join [nl] post
  /\ slice markdown (lengthNl pre) (lengthNl (pre ++ block))
     = firstn (length markdown - length (unlines pre)) (unlines block).
Proof.
  intros Hs Hb.
  pose proof (unlines_split markdown) as Hu. rewrite Hs in Hu.
  rewrite !unlines_app in Hu.
  assert (Hm : markdown = unlines pre
                 ++ (if match post with [] => true | _ => false end
                     then join [nl] block
                     else unlines block ++ join [nl] post)).
  { destruct post as [|l post].
    - unfold unlines at 3 in Hu. simpl in Hu. rewrite app_nil_r in Hu.
      rewrite (join_unlines block Hb) in Hu.
      rewrite app_assoc in Hu. apply app_inv_tail in Hu. symmetry. exact Hu.
    - rewrite (join_unlines (l :: post)) in Hu by discriminate.
      rewrite !app_assoc in Hu. apply app_inv_tail in Hu.
      rewrite <- app_assoc in Hu. symmetry. exact Hu. }
  assert (Hlen : length (unlines block) = S (length (join [nl] block))).
  { rewrite (join_unlines block Hb), length_app. simpl. lia. }
  unfold lengthNl. rewrite unlines_app, length_app.
  set (a := unlines pre) in *. set (b := unlines block) in *.
  assert (Hfirst : firstn (length markdown - length a) b ++ join [nl] post
                   = if match post with [] => true | _ => false end
                     then join [nl] block else b ++ join [nl] post).
  { destruct post as [|l post].
    - rewrite Hm at 1. rewrite length_app.
      replace (length a + length (join [nl] block) - length a)
        with (length (join [nl] block)) by lia.
      unfold b. rewrite (join_unlines block Hb).
      rewrite firstn_app_exact by reflexivity. simpl. apply app_nil_r.
    - rewrite Hm at 1. rewrite !length_app.
      rewrite firstn_all2 by lia. reflexivity. }
  split; [rewrite Hfirst; exact Hm|].
  assert (Hla : length a <= length markdown).
  { rewrite Hm, length_app. lia. }
  split; [|split].
  - rewrite slice_prefix by lia. rewrite Nat2Z.id.
    rewrite Hm. apply firstn_app_exact. reflexivity.
  - rewrite sliceFrom_suffix by lia. rewrite Nat2Z.id.
    destruct post as [|l post].
    + simpl. apply skipn_all2. rewrite Hm at 1. rewrite length_app. lia.
    + rewrite Hm. rewrite app_assoc. rewrite skipn_app.
      rewrite skipn_all2 by (rewrite length_app; lia).
      rewrite length_app, Nat.sub_diag. reflexivity.
  - rewrite slice_middle by lia. rewrite !Nat2Z.id.
    replace (length a + length b - length a) with (length b) by lia.
    rewrite Hm at 1. rewrite skipn_app, skipn_all, Nat.sub_diag. simpl.
    destruct post as [|l post].
    + rewrite firstn_all2 by lia.
      rewrite Hm at 1. rewrite length_app.
      replace (length a + length (join [nl] block) - length a)
        with (length (join [nl] block)) by lia.
      unfold b. rewrite (join_unlines block Hb).
      rewrite firstn_app_exact by reflexivity. reflexivity.
    + rewrite firstn_app_exact by reflexivity.
      rewrite Hm at 1. rewrite !length_app.
      rewrite firstn_all2 by lia. reflexivity.
Qed.

(** ** The facade *)

Lemma rich_extract_cases (markdown : jsstring) :
  (RichTable.extractFirstTable markdown = Returns None
   /\ RichTable.extractSlackTableBlock markdown
      = Returns (mkExtraction markdown None))
  \/ exists t b,
      RichTable.extractFirstTable markdown = Returns (Some t)
      /\ RichTable.buildTableBlock t = Returns b
      /\ RichTable.extractSlackTableBlock markdown
         = Returns (mkExtraction
             (join [nl; nl]
                (filter truthy
                   [trimEnd (slice markdown 0 (start t));
                    trimStart (sliceFrom markdown (end_ t))]))
             (Some b)).
Proof.
  unfold RichTable.extractSlackTableBlock.
  destruct (extractFirstTable_cases markdown)
    as [H|[pre [h [sp [d [data [post [_ [_ [_ [_ [_ [_ H]]]]]]]]]]]]].
  - left. rewrite H. auto.
  - right. rewrite H. cbn [bind].
    match goal with |- context [Some ?t] =>
      destruct (rich_buildTableBlock_returns t) as [b [Hb _]]; exists t, b
    end.
    rewrite Hb. auto.
Qed.

Lemma raw_extract_cases (markdown : jsstring) :
  (RawTable.extractFirstTable markdown = Returns None
   /\ RawTable.extractSlackTableBlock markdown
      = Returns (mkExtraction markdown None))
  \/ exists t,
      RawTable.extractFirstTable markdown = Returns (Some t)
      /\ RawTable.extractSlackTableBlock markdown
         = Returns (mkExtraction
             (join [nl; nl]
                (filter truthy
                   [trimEnd (slice markdown 0 (start t));
                    trimStart (sliceFrom markdown (end_ t))]))
             (Some (RawTable.buildTableBlock t))).
Proof.
  unfold RawTable.extractSlackTableBlock.
  destruct (extractFirstTable_cases markdown)
    as [H|[pre [h [sp [d [data [post [_ [_ [_ [_ [_ [_ H]]]]]]]]]]]]];
    rewrite <- locators_agree in H.
  - left. rewrite H. auto.
  - right. rewrite H. cbn [bind]. eexists. split; reflexivity.
Qed.

Lemma startsWith_In c s : startsWith c s = true -> In c s.
Proof.
  destruct s as [|x s]; simpl; [discriminate|].
  intros H. apply N.eqb_eq in H. left. exact H.
Qed.

Lemma no_pipe_no_table (markdown : jsstring) :
  (forall l, In l (split nl markdown) -> ~ In pipe l) ->
  RichTable.extractFirstTable markdown = Returns None.
Proof.
  intros Hno.
  destruct (extractFirstTable_cases markdown)
    as [H|[pre [h [sp [d [data [post [Hs [Hh _]]]]]]]]]; [exact H|].
  exfalso. apply (Hno h).
  - rewrite Hs. apply in_or_app. right. left. reflexivity.
  - unfold headerLine in Hh.
    apply andb_true_iff in Hh. destruct Hh as [Hh _].
    apply andb_true_iff in Hh. destruct Hh as [Hh _].
    apply trim_incl. apply startsWith_In. exact Hh.
Qed.

(** C1: for every input string [extractSlackTableBlock] returns (it neither
    throws nor fails to return, in both source files); when the locator
    finds no table, and in particular when no line of the text contains a
    pipe, the result is the input text unchanged with a null table block. *)
Theorem extract_total_and_unchanged_without_table (markdown : jsstring) :
  (exists r, RichTable.extractSlackTableBlock markdown = Returns r)
  /\ (exists r, RawTable.extractSlackTableBlock markdown = Returns r)
  /\ (RichTable.extractFirstTable markdown = Returns None ->
      RichTable.extractSlackTableBlock markdown
      = Returns (mkExtraction markdown None)
      /\ RawTable.extractSlackTableBlock markdown
         = Returns (mkExtraction markdown None))
  /\ ((forall l, In l (split nl markdown) -> ~ In pipe l) ->
      RichTable.extractSlackTableBlock markdown
      = Returns (mkExtraction markdown None)
      /\ RawTable.extractSlackTableBlock markdown
         = Returns (mkExtraction markdown None)).
Proof.
  assert (Hnone : RichTable.extractFirstTable markdown = Returns None ->
                  RichTable.extractSlackTableBlock markdown
                  = Returns (mkExtraction markdown None)
                  /\ RawTable.extractSlackTableBlock markdown
                     = Returns (mkExtraction markdown None)).
  { intros H.
    assert (H' : RawTable.extractFirstTable markdown = Returns None)
      by (rewrite locators_agree; exact H).
    unfold RichTable.extractSlackTableBlock, RawTable.extractSlackTableBlock.
    rewrite H, H'. auto. }
  repeat split.
  - destruct (rich_extract_cases markdown) as [[_ H]|[t [b [_ [_ H]]]]];
      rewrite H; eauto.
  - destruct (raw_extract_cases markdown) as [[_ H]|[t [_ H]]];
      rewrite H; eauto.
  - apply Hnone. assumption.
  - apply Hnone. assumption.
  - apply Hnone. apply no_pipe_no_table. assumption.
  - apply Hnone. apply no_pipe_no_table. assumption.
Qed.

Lemma extract_total_and_unchanged_without_table_witness :
  RichTable.extractSlackTableBlock (lit "no table, just text")
  = Returns (mkExtraction (lit "no table, just text") None)
  /\ RawTable.extractSlackTableBlock (lit "no table, just text")
     = Returns (mkExtraction (lit "no table, just text") None).
Proof.
  apply (proj2 (proj2 (proj2
           (extract_total_and_unchanged_without_table
              (lit "no table, just text"))))).
  intros l Hl Hp. vm_compute in Hl. destruct Hl as [<-|[]].
  vm_compute in Hp.
  repeat (destruct Hp as [Hp|Hp]; [discriminate Hp|]). exact Hp.
Defined.

(** ** The locator's result is never an empty table *)

Lemma parsePipeRow_nonempty (line : jsstring) : RichTable.parsePipeRow line <> [].
Proof.
  unfold RichTable.parsePipeRow. intros H. apply map_eq_nil in H.
  exact (split_nonempty _ _ H).
Qed.

Lemma scan_skip (pre rest : list jsstring) :
  forall i st,
    inTable st = false ->
    Forall (fun l => headerLine l = false) pre ->
    RichTable.scanLines i (pre ++ rest) st
    = RichTable.scanLines (i + Z.of_nat (length pre)) rest st.
Proof.
  induction pre as [|l pre IH]; intros i st Hin Hpre.
  - simpl. rewrite Z.add_0_r. reflexivity.
  - inversion Hpre as [|? ? Hl Hpre']; subst.
    change ((l :: pre) ++ rest) with (l :: pre ++ rest).
    rewrite scanLines_cons. cbv zeta. rewrite Hin. simpl negb. cbv iota.
    unfold headerLine in Hl. rewrite Hl.
    rewrite IH by assumption. f_equal. simpl length. lia.
Qed.

Lemma header_and_separator_only (lines pre : list jsstring) h sp post :
  lines = pre ++ h :: sp :: post ->
  Forall (fun l => headerLine l = false) pre ->
  headerLine h = true ->
  RichTable.isSeparatorRow (trim sp) = true ->
  post = [] \/ (exists l post', post = l :: post' /\ pipeLine l = false) ->
  RichTable.scanLines 0 lines initScan
  = mkScan (Z.of_nat (length pre)) (-1) (RichTable.parsePipeRow (trim h)) []
           true true.
Proof.
  intros -> Hpre Hh Hs Hpost.
  assert (Hc : (1 <=? length (RichTable.parsePipeRow (trim h))) = true).
  { apply Nat.leb_le.
    pose proof (parsePipeRow_nonempty (trim h)) as Hne.
    destruct (RichTable.parsePipeRow (trim h)); [congruence | simpl; lia]. }
  assert (Ht : truthy (trim sp) = true).
  { unfold RichTable.isSeparatorRow in Hs.
    destruct (trim sp); [discriminate Hs | reflexivity]. }
  rewrite scan_skip by (auto; reflexivity).
  rewrite scanLines_cons. cbv zeta.
  unfold headerLine in Hh. unfold initScan at 1.
  cbn [inTable negb]. cbv iota. rewrite Hh, Hc.
  cbn [nth_error option_map]. rewrite Ht, Hs. cbn [andb].
  rewrite scanLines_cons. cbv zeta.
  cbn [inTable pastSeparator negb tableStart tableEnd curHeaders curRows].
  rewrite Hs.
  destruct Hpost as [->|[l [post' [-> Hl]]]].
  - reflexivity.
  - rewrite scanLines_cons. cbv zeta.
    cbn [inTable pastSeparator negb tableStart tableEnd curHeaders curRows].
    unfold pipeLine in Hl. rewrite Hl. reflexivity.
Qed.

(** C5: a table returned by the locator has at least one header cell and at
    least one data row; a header line and a separator line that no data row
    follows (the text ends there, or the next line does not start with a
    pipe) give the absent result. *)
Theorem located_table_has_header_and_row :
  (forall text t,
      RichTable.extractFirstTable text = Returns (Some t) ->
      headers t <> [] /\ rows t <> [])
  /\ (forall text pre h sp post,
         split nl text = pre ++ h :: sp :: post ->
         Forall (fun l => headerLine l = false) pre ->
         headerLine h = true ->
         RichTable.isSeparatorRow (trim sp) = true ->
         post = [] \/ (exists l post', post = l :: post' /\ pipeLine l = false) ->
         RichTable.extractFirstTable text = Returns None).
Proof.
  split.
  - intros text t H.
    destruct (extractFirstTable_cases text)
      as [E|[pre [h [sp [d [data [post [_ [_ [Hh [_ [_ [_ E]]]]]]]]]]]]];
      rewrite E in H; [discriminate|].
    injection H as <-. simpl. split.
    + destruct (RichTable.parsePipeRow (trim h)); [congruence | discriminate].
    + discriminate.
  - intros text pre h sp post Hs Hpre Hh Hsep Hpost.
    unfold RichTable.extractFirstTable.
    rewrite (header_and_separator_only _ _ _ _ _ Hs Hpre Hh Hsep Hpost).
    cbn [inTable curHeaders curRows length Nat.eqb negb orb].
    rewrite orb_true_r. reflexivity.
Qed.

Lemma located_table_has_header_and_row_witness :
  (headers (mkTableData [lit "a"] [[lit "1"]] 0 12) <> []
   /\ rows (mkTableData [lit "a"] [[lit "1"]] 0 12) <> [])
  /\ RichTable.extractFirstTable (lit "| a | b |" ++ [nl] ++ lit "|---|---|")
     = Returns None.
Proof.
  split.
  - apply (proj1 located_table_has_header_and_row
             (lit "|a|" ++ [nl] ++ lit "|-|" ++ [nl] ++ lit "|1|")).
    vm_compute. reflexivity.
  - apply (proj2 located_table_has_header_and_row
             (lit "| a | b |" ++ [nl] ++ lit "|---|---|")
             [] (lit "| a | b |") (lit "|---|---|") []).
    + vm_compute. reflexivity.
    + constructor.
    + vm_compute. reflexivity.
    + vm_compute. reflexivity.
    + left. reflexivity.
Defined.

(** ** Cells *)

(** C10: for every input string the tokenizer returns, and every run it
    returns has a non-empty text; every text captured by a match of the
    pattern is non-empty. *)
Theorem tokenizer_runs_have_text :
  (forall text,
      exists els, RichTable.parseInlineMarkdown text = Returns els
                  /\ Forall nonEmptyText els)
  /\ (forall text lastIndex m,
         exec RichTable.inlineRe text lastIndex = Some m ->
         capsNonEmpty (groups m)
         /\ Forall nonEmptyText (RichTable.matchElement m)).
Proof.
  split.
  - intros text.
    destruct (parseInlineMarkdown_returns text) as [els [H1 [H2 _]]].
    exists els. auto.
  - intros text lastIndex m H.
    destruct (exec_inlineRe _ _ _ H) as [_ [_ [_ [Hc He]]]].
    split; [exact Hc | exact He].
Qed.

Lemma tokenizer_runs_have_text_witness :
  capsNonEmpty [(1, lit "x")]
  /\ Forall nonEmptyText
       (RichTable.matchElement (mkMatch 2 (lit "**x**") [(1, lit "x")])).
Proof.
  apply (proj2 tokenizer_runs_have_text (lit "a **x** b") 0
           (mkMatch 2 (lit "**x**") [(1, lit "x")])).
  vm_compute. reflexivity.
Defined.

(** C8: a cell text that is empty after trimming, as every text of
    whitespace only is, becomes the plain cell of one space; every cell the
    Cell Builder returns, and every cell of every row of an assembled block
    (in both source files), shows at least one character. *)
Theorem blank_cell_is_single_space :
  (forall text,
      trim text = [] ->
      RichTable.buildCell text = Returns (raw_text (lit " ")))
  /\ (forall text,
         allWhite text ->
         RichTable.buildCell text = Returns (raw_text (lit " ")))
  /\ (forall text,
         exists c, RichTable.buildCell text = Returns c /\ cellNonEmpty c)
  /\ (forall t,
         exists b, RichTable.buildTableBlock t = Returns b
                   /\ Forall (Forall cellNonEmpty) (Block.rows b))
  /\ (forall t,
         Forall (Forall cellNonEmpty) (Block.rows (RawTable.buildTableBlock t))).
Proof.
  repeat split.
  - intros text H. unfold RichTable.buildCell. rewrite H. reflexivity.
  - intros text H. unfold RichTable.buildCell. rewrite (trim_white _ H).
    reflexivity.
  - apply buildCell_returns.
  - intros t. destruct (rich_buildTableBlock_returns t) as [b [H1 [_ [H2 _]]]].
    exists b. split; [exact H1|].
    eapply Forall_impl; [|exact H2]. intros row [_ H]. exact H.
  - intros t. destruct (raw_buildTableBlock_rows t) as [_ H2].
    eapply Forall_impl; [|exact H2]. intros row [_ H]. exact H.
Qed.

Lemma blank_cell_is_single_space_witness :
  RichTable.buildCell (lit "   ") = Returns (raw_text (lit " "))
  /\ RichTable.buildCell [9; 32; 160]%N = Returns (raw_text (lit " ")).
Proof.
  split.
  - apply (proj1 blank_cell_is_single_space (lit "   ")).
    vm_compute. reflexivity.
  - apply (proj1 (proj2 blank_cell_is_single_space) [9; 32; 160]%N).
    repeat constructor.
Defined.

(** ** Rows of the assembled block *)

Lemma mapM_Forall2 {A B} (f : A -> outcome B) :
  forall xs ys,
    mapM f xs = Returns ys -> Forall2 (fun x y => f x = Returns y) xs ys.
Proof.
  induction xs as [|x xs IH]; intros ys H; simpl in H.
  - injection H as <-. constructor.
  - destruct (f x) as [y| |] eqn:E; simpl in H; try discriminate.
    destruct (mapM f xs) as [ys'| |] eqn:E'; simpl in H; try discriminate.
    injection H as <-. constructor; auto.
Qed.

Lemma Forall2_seq_nth {B} (R : nat -> B -> Prop) :
  forall n a ys,
    Forall2 R (List.seq a n) ys ->
    forall i, i < n -> exists y, nth_error ys i = Some y /\ R (a + i) y.
Proof.
  induction n as [|n IH]; intros a ys H i Hi; [lia|].
  simpl in H. inversion H as [|? y ? ys' Hy Hys]; subst.
  destruct i as [|i].
  - exists y. rewrite Nat.add_0_r. auto.
  - destruct (IH (S a) ys' Hys i) as [y' [H1 H2]]; [lia|].
    exists y'. simpl. rewrite Nat.add_succ_r. auto.
Qed.

(** C4, as the code has it: every row of the assembled block, header row
    and data rows, has exactly [headers.length] cells, in both source files;
    the cell of a data row at a header column is built from the row's value
    there, and from the placeholder when the row is too short; values past
    the header count are dropped.  The placeholder of the rich_text file is
    the en dash U+2013: for header [a], [b] and the single data row [1] the
    second row of the block has two cells, the second the plain cell of
    that en dash. *)
Theorem block_rows_have_header_width :
  (forall t,
      exists b, RichTable.buildTableBlock t = Returns b
                /\ Forall (fun row => length row = length (headers t))
                          (Block.rows b))
  /\ (forall t,
         Forall (fun row => length row = length (headers t))
                (Block.rows (RawTable.buildTableBlock t)))
  /\ (forall t b,
         RichTable.buildTableBlock t = Returns b ->
         Forall2
           (fun row cells =>
              forall i, i < length (headers t) ->
                exists cell,
                  nth_error cells i = Some cell
                  /\ RichTable.buildCell
                       (nullish (nth_error row i) RichTable.placeholder)
                     = Returns cell)
           (rows t) (tl (Block.rows b)))
  /\ RichTable.buildCell RichTable.placeholder = Returns (raw_text [8211%N])
  /\ RichTable.buildTableBlock shortRowTable
     = Returns (Block.mk
                  [is_wrapped true; is_wrapped true]
                  [[raw_text (lit "a"); raw_text (lit "b")];
                   [raw_text (lit "1"); raw_text [8211%N]]]).
Proof.
  split; [|split; [|split; [|split]]].
  - intros t. destruct (rich_buildTableBlock_returns t) as [b [H1 [_ [H2 _]]]].
    exists b. split; [exact H1|].
    eapply Forall_impl; [|exact H2]. intros row [H _]. exact H.
  - intros t. destruct (raw_buildTableBlock_rows t) as [_ H2].
    eapply Forall_impl; [|exact H2]. intros row [H _]. exact H.
  - intros t b H. unfold RichTable.buildTableBlock in H.
    destruct (mapM _ (headers t)) as [hr| |]; simpl in H; try discriminate.
    destruct (mapM _ (rows t)) as [dr| |] eqn:E; simpl in H; try discriminate.
    injection H as <-. simpl.
    apply mapM_Forall2 in E.
    eapply Forall2_impl; [|exact E].
    intros row cells Hc i Hi. simpl in Hc.
    apply mapM_Forall2 in Hc.
    destruct (Forall2_seq_nth _ _ _ _ Hc i Hi) as [cell [G1 G2]].
    exists cell. auto.
  - vm_compute. reflexivity.
  - vm_compute. reflexivity.
Qed.

Lemma block_rows_have_header_width_witness :
  Forall2
    (fun row cells =>
       forall i, i < length (headers shortRowTable) ->
         exists cell,
           nth_error cells i = Some cell
           /\ RichTable.buildCell
                (nullish (nth_error row i) RichTable.placeholder)
              = Returns cell)
    (rows shortRowTable)
    (tl (Block.rows
           (Block.mk
              [is_wrapped true; is_wrapped true]
              [[raw_text (lit "a"); raw_text (lit "b")];
               [raw_text (lit "1"); raw_text [8211%N]]]))).
Proof.
  apply (proj1 (proj2 (proj2 block_rows_have_header_width)) shortRowTable).
  vm_compute. reflexivity.
Defined.

(** C4 as it is stated fails: the second cell of the short row is not an
    em dash (U+2014). *)
Lemma short_row_placeholder_is_not_em_dash :
  ~ (exists b c,
        RichTable.buildTableBlock shortRowTable = Returns b
        /\ nth_error (Block.rows b) 1 = Some [c; raw_text emDash]).
Proof.
  intros [b [c [H1 H2]]]. vm_compute in H1. injection H1 as <-.
  vm_compute in H2. discriminate H2.
Qed.

(** ** Offsets and the residual text *)

Lemma located_block (markdown : jsstring) (t : TableData) :
  RichTable.extractFirstTable markdown = Returns (Some t) ->
  exists pre h sp data post,
    split nl markdown = pre ++ (h :: sp :: data) ++ post
    /\ data <> []
    /\ Forall (fun l => pipeLine l = true) data
    /\ (post = [] \/ exists l post', post = l :: post' /\ pipeLine l = false)
    /\ headers t = firstn 20 (RichTable.parsePipeRow (trim h))
    /\ rows t = map (firstn 20)
                  (firstn 99 (map (fun l => RichTable.parsePipeRow (trim l)) data))
    /\ start t = lengthNl pre
    /\ end_ t = lengthNl (pre ++ h :: sp :: data).
Proof.
  intros H.
  destruct (extractFirstTable_cases markdown)
    as [E|[pre [h [sp [d [data [post [Hs [_ [_ [_ [Hd [Hp E]]]]]]]]]]]]];
    rewrite E in H; [discriminate|].
  injection H as <-.
  exists pre, h, sp, (d :: data), post. simpl.
  repeat split; auto. discriminate.
Qed.

(** C2: when the locator finds a table, the original text is the first half
    of the residual text, whitespace, the removed span
    [markdown.slice(start, end)], whitespace, and the second half; the
    residual text is the two halves joined by a double newline, an empty
    half left out. *)
Theorem removed_span_splices_back (markdown : jsstring) (t : TableData) :
  RichTable.extractFirstTable markdown = Returns (Some t) ->
  exists r ws1 ws2,
    RichTable.extractSlackTableBlock markdown = Returns r
    /\ let before := trimEnd (slice markdown 0 (start t)) in
       let after := trimStart (sliceFrom markdown (end_ t)) in
       let span := slice markdown (start t) (end_ t) in
       text r = join [nl; nl] (filter truthy [before; after])
       /\ allWhite ws1 /\ allWhite ws2
       /\ markdown = before ++ ws1 ++ span ++ ws2 ++ after
       /\ span <> []
       /\ (0 <= start t <= end_ t)%Z.
Proof.
  intros H.
  destruct (located_block _ _ H)
    as [pre [h [sp [data [post [Hs [Hd [_ [_ [_ [_ [Hst Hen]]]]]]]]]]]].
  destruct (text_around_block markdown pre (h :: sp :: data) post Hs)
    as [Hm [H0 [H1 H2]]]; [discriminate|].
  destruct (rich_extract_cases markdown) as [[E _]|[t' [b [E [_ R]]]]];
    rewrite E in H; [discriminate|]. injection H as ->.
  destruct (trimEnd_split (slice markdown 0 (start t))) as [ws1 [W1 A1]].
  destruct (trimStart_split (sliceFrom markdown (end_ t))) as [ws2 [W2 A2]].
  exists (mkExtraction
            (join [nl; nl]
               (filter truthy
                  [trimEnd (slice markdown 0 (start t));
                   trimStart (sliceFrom markdown (end_ t))]))
            (Some b)), ws1, ws2.
  split; [exact R|]. cbv zeta. simpl text.
  split; [reflexivity|]. split; [exact A1|]. split; [exact A2|].
  rewrite Hst, Hen in *.
  split; [|split].
  - rewrite app_assoc, <- W1, <- W2.
    rewrite H0, H1, H2. exact Hm.
  - rewrite H2. intros E0.
    assert (Hl : length markdown - length (unlines pre) = 0
                 \/ unlines (h :: sp :: data) = []).
    { destruct (length markdown - length (unlines pre)) eqn:En; [auto|].
      right. destruct (unlines (h :: sp :: data)); [reflexivity|discriminate]. }
    destruct Hl as [Hl|Hl].
    + apply (f_equal (@length char)) in Hm. rewrite E0 in Hm.
      rewrite length_app in Hm. simpl in Hm.
      pose proof (unlines_split markdown) as Hu. rewrite Hs in Hu.
      apply (f_equal (@length char)) in Hu.
      rewrite !unlines_app, !length_app in Hu. simpl in Hu.
      assert (2 <= length (unlines (h :: sp :: data))).
      { unfold unlines. simpl. rewrite !length_app. simpl. lia. }
      destruct post as [|l post].
      * simpl in Hm. unfold unlines at 3 in Hu. simpl in Hu. lia.
      * rewrite (join_unlines (l :: post)) in Hu by discriminate.
        rewrite length_app in Hu. simpl length in Hu. lia.
    + unfold unlines in Hl. simpl in Hl. destruct h; discriminate.
  - rewrite lengthNl_app. pose proof (lengthNl_nonneg pre).
    pose proof (lengthNl_nonneg (h :: sp :: data)). lia.
Qed.

Lemma removed_span_splices_back_witness :
  exists r ws1 ws2,
    RichTable.extractSlackTableBlock
      (lit "x" ++ [nl] ++ lit "|a|" ++ [nl] ++ lit "|-|" ++ [nl] ++ lit "|1|"
           ++ [nl] ++ lit "y")
    = Returns r
    /\ text r = lit "x" ++ [nl; nl] ++ lit "y"
    /\ allWhite ws1 /\ allWhite ws2
    /\ lit "x" ++ [nl] ++ lit "|a|" ++ [nl] ++ lit "|-|" ++ [nl] ++ lit "|1|"
           ++ [nl] ++ lit "y"
       = lit "x" ++ ws1
           ++ (lit "|a|" ++ [nl] ++ lit "|-|" ++ [nl] ++ lit "|1|" ++ [nl])
           ++ ws2 ++ lit "y".
Proof.
  destruct (removed_span_splices_back
              (lit "x" ++ [nl] ++ lit "|a|" ++ [nl] ++ lit "|-|" ++ [nl]
                   ++ lit "|1|" ++ [nl] ++ lit "y")
              (mkTableData [lit "a"] [[lit "1"]] 2 14))
    as [r [ws1 [ws2 [H1 [H2 [H3 [H4 [H5 _]]]]]]]].
  - vm_compute. reflexivity.
  - exists r, ws1, ws2. repeat split; assumption.
Defined.

Lemma length_firstn_le {A} n (xs : list A) : length (firstn n xs) <= n.
Proof. rewrite length_firstn. lia. Qed.

(** ** The separator recognizer *)

Lemma search_bol_later (r : regex) : forall s pos,
  0 < pos -> search (Cat Bol r) pos s = None.
Proof.
  induction s as [|c s IH]; intros pos Hpos; simpl; unfold matchAt; simpl;
    destruct pos as [|pos]; try lia; simpl.
  - reflexivity.
  - apply IH. lia.
Qed.

Lemma replace_leadingPipe (s : jsstring) :
  replaceEmpty RichTable.leadingPipe s = stripLeadingPipe s.
Proof.
  unfold replaceEmpty, RichTable.leadingPipe.
  destruct s as [|c s]; [reflexivity|].
  unfold stripLeadingPipe. change pipe with 124%N.
  cbn [search]. unfold matchAt. cbn [rmatch Chr Nat.eqb]. unfold isChar.
  change (N_of_ascii "|") with 124%N.
  destruct (c =? 124)%N.
  - reflexivity.
  - rewrite search_bol_later by lia. reflexivity.
Qed.

Lemma endsWith_cons c x y s :
  endsWith c (x :: y :: s) = endsWith c (y :: s).
Proof.
  unfold endsWith. simpl.
  destruct (rev s ++ [y]) as [|z t] eqn:E.
  - destruct (rev s); discriminate.
  - reflexivity.
Qed.

Lemma search_trailingPipe : forall s pos,
  search RichTable.trailingPipe pos s
  = if endsWith pipe s
    then Some (mkMatch (pos + length s - 1) [pipe] [])
    else None.
Proof.
  induction s as [|c s IH]; intros pos; [reflexivity|].
  cbn [search]. unfold matchAt, RichTable.trailingPipe.
  cbn [rmatch Chr]. unfold isChar. change (N_of_ascii "|") with pipe.
  destruct s as [|y s].
  - unfold endsWith. simpl rev. cbn [app].
    destruct (c =? pipe)%N eqn:E.
    + apply N.eqb_eq in E. subst c. unfold accept.
      replace (S pos - pos) with 1 by lia.
      replace (pos + length [pipe] - 1) with pos by (simpl; lia).
      reflexivity.
    + reflexivity.
  - rewrite endsWith_cons.
    assert (Hm : (if (c =? pipe)%N
                  then match y :: s with
                       | [] => accept (S pos) (y :: s) []
                       | _ :: _ => None
                       end
                  else None) = None).
    { destruct (c =? pipe)%N; reflexivity. }
    rewrite Hm. rewrite IH.
    destruct (endsWith pipe (y :: s)); [|reflexivity].
    do 2 f_equal. simpl length. lia.
Qed.

Lemma replace_trailingPipe (s : jsstring) :
  replaceEmpty RichTable.trailingPipe s = stripTrailingPipe s.
Proof.
  unfold replaceEmpty, stripTrailingPipe. rewrite search_trailingPipe.
  destruct (endsWith pipe s) eqn:E; [|reflexivity].
  cbn [index matched length].
  assert (Hne : s <> []) by (intros ->; discriminate E).
  replace (0 + length s - 1 + 1) with (length s)
    by (destruct s; [congruence | simpl; lia]).
  rewrite skipn_all, app_nil_r.
  rewrite removelast_firstn_len. f_equal. lia.
Qed.

Lemma Forall_isChar_repeat (x : char) (w : jsstring) :
  Forall (fun c => isChar x c = true) w -> w = repeat x (length w).
Proof.
  induction 1 as [|c w Hc _ IH]; simpl; [reflexivity|].
  unfold isChar in Hc. apply N.eqb_eq in Hc. subst c. f_equal. exact IH.
Qed.

Lemma Forall_repeat_isChar (x : char) n :
  Forall (fun c => isChar x c = true) (repeat x n).
Proof.
  induction n; simpl; constructor; auto. unfold isChar. apply N.eqb_refl.
Qed.

(** The separator pattern accepts exactly the cells of the grammar. *)
Lemma separatorCell_iff (cell : jsstring) :
  test RichTable.separatorCell cell = true <-> alignmentCell cell.
Proof.
  rewrite test_true_iff. unfold RichTable.separatorCell, alignmentCell.
  cbn [seq denote]. split.
  - intros [pre [w [rest [-> D]]]].
    destruct D as [w0 [x0 [-> [[-> Hpos] D]]]].
    destruct D as [ws1 [x1 [-> [Hws1 D]]]].
    destruct D as [c1 [x2 [-> [Hc1 D]]]].
    destruct D as [d [x3 [-> [[Hd1 Hd2] D]]]].
    destruct D as [c2 [x4 [-> [Hc2 D]]]].
    destruct D as [ws2 [x5 [-> [Hws2 [-> ->]]]]].
    destruct pre; [|discriminate Hpos].
    apply Forall_isChar_repeat in Hd2.
    destruct d as [|d0 d]; [congruence|].
    exists ws1, c1, (length d), c2, ws2. simpl app. rewrite !app_nil_r.
    repeat split; auto.
    + simpl in Hd2. injection Hd2 as Hd0 Hd. subst d0.
      rewrite Hd at 1. reflexivity.
    + destruct Hc1 as [->|[c [-> Hc]]]; [left; reflexivity|].
      unfold isChar in Hc. apply N.eqb_eq in Hc. subst c. right. reflexivity.
    + destruct Hc2 as [->|[c [-> Hc]]]; [left; reflexivity|].
      unfold isChar in Hc. apply N.eqb_eq in Hc. subst c. right. reflexivity.
  - intros [ws1 [c1 [n [c2 [ws2 [-> [Hws1 [Hc1 [Hc2 Hws2]]]]]]]]].
    exists [], (ws1 ++ c1 ++ repeat (ch "-") (S n) ++ c2 ++ ws2), [].
    split; [simpl; rewrite app_nil_r; reflexivity|].
    exists [], (ws1 ++ c1 ++ repeat (ch "-") (S n) ++ c2 ++ ws2).
    split; [reflexivity|]. split; [auto|].
    exists ws1, (c1 ++ repeat (ch "-") (S n) ++ c2 ++ ws2).
    split; [reflexivity|]. split; [exact Hws1|].
    exists c1, (repeat (ch "-") (S n) ++ c2 ++ ws2).
    split; [reflexivity|]. split.
    { destruct Hc1 as [-> | ->]; [left; reflexivity|].
      right. exists (ch ":"). split; [reflexivity|]. apply N.eqb_refl. }
    exists (repeat (ch "-") (S n)), (c2 ++ ws2).
    split; [reflexivity|]. split.
    { split; [discriminate|]. apply Forall_repeat_isChar. }
    exists c2, ws2.
    split; [reflexivity|]. split.
    { destruct Hc2 as [-> | ->]; [left; reflexivity|].
      right. exists (ch ":"). split; [reflexivity|]. apply N.eqb_refl. }
    exists ws2, []. rewrite app_nil_r.
    split; [reflexivity|]. split; [exact Hws2|]. auto.
Qed.

Lemma isSeparatorRow_iff (line : jsstring) :
  RichTable.isSeparatorRow line = true
  <-> startsWith pipe line = true
      /\ Forall alignmentCell
                (split pipe (stripTrailingPipe (stripLeadingPipe line))).
Proof.
  unfold RichTable.isSeparatorRow.
  rewrite replace_leadingPipe, replace_trailingPipe.
  destruct (startsWith pipe line); simpl.
  - rewrite forallb_forall, Forall_forall. split.
    + intros H. split; [reflexivity|]. intros c Hc.
      apply separatorCell_iff. apply H. exact Hc.
    + intros [_ H] c Hc. apply separatorCell_iff. apply H. exact Hc.
  - split; [discriminate | intros [H _]; discriminate H].
Qed.

(** C6: the separator recognizer accepts a line exactly when the line
    starts with a pipe and, one leading and one trailing pipe stripped,
    every pipe-separated cell is optional whitespace, an optional colon,
    one or more dashes, an optional colon and optional whitespace (the same
    in both source files).  [| :--- | ---: | :---: |] is accepted and
    [| abc | --- |] is rejected; a header candidate whose next line is
    rejected is abandoned: the scan goes on from the next line with its
    state unchanged, and no table is found in the example text. *)
Theorem separator_recognizer_grammar :
  (forall line,
      RichTable.isSeparatorRow line = true
      <-> startsWith pipe line = true
          /\ Forall alignmentCell
                    (split pipe (stripTrailingPipe (stripLeadingPipe line))))
  /\ (forall line, RawTable.isSeparatorRow line = RichTable.isSeparatorRow line)
  /\ RichTable.isSeparatorRow (lit "| :--- | ---: | :---: |") = true
  /\ RichTable.isSeparatorRow (lit "| abc | --- |") = false
  /\ (forall i h nxt rest st,
         inTable st = false ->
         RichTable.isSeparatorRow (trim nxt) = false ->
         RichTable.scanLines i (h :: nxt :: rest) st
         = RichTable.scanLines (i + 1) (nxt :: rest) st)
  /\ RichTable.extractSlackTableBlock abandonedText
     = Returns (mkExtraction abandonedText None).
Proof.
  split; [exact isSeparatorRow_iff|].
  split; [reflexivity|].
  split; [vm_compute; reflexivity|].
  split; [vm_compute; reflexivity|].
  split; [|vm_compute; reflexivity].
  intros i h nxt rest st Hin Hsep.
  rewrite scanLines_cons. cbv zeta. rewrite Hin. cbn [negb].
  cbn [nth_error option_map]. rewrite Hsep, andb_false_r.
  destruct (startsWith pipe (trim h) && endsWith pipe (trim h)
            && includes pipe 1 (trim h)); [|reflexivity].
  destruct (1 <=? length (RichTable.parsePipeRow (trim h))); reflexivity.
Qed.

Lemma separator_recognizer_grammar_witness :
  (startsWith pipe (lit "|:-- | -:|") = true
   /\ Forall alignmentCell
             (split pipe (stripTrailingPipe (stripLeadingPipe (lit "|:-- | -:|")))))
  /\ RichTable.scanLines 0 [lit "| a | b |"; lit "| abc | --- |"] initScan
     = RichTable.scanLines (0 + 1) [lit "| abc | --- |"] initScan.
Proof.
  split.
  - apply (proj1 (proj1 separator_recognizer_grammar (lit "|:-- | -:|"))).
    vm_compute. reflexivity.
  - apply (proj1 (proj2 (proj2 (proj2 (proj2 separator_recognizer_grammar))))).
    + vm_compute. reflexivity.
    + vm_compute. reflexivity.
Defined.

(** ** Leftmost position, first family *)

Lemma matchAt_index re pos s m : matchAt re pos s = Some m -> index m = pos.
Proof.
  unfold matchAt. destruct (rmatch re pos s [] accept) as [[e cs]|];
    [|discriminate].
  intros H. injection H as <-. reflexivity.
Qed.

Lemma matchAt_Alt r1 r2 pos s :
  matchAt (Alt r1 r2) pos s
  = match matchAt r1 pos s with
    | Some m => Some m
    | None => matchAt r2 pos s
    end.
Proof.
  unfold matchAt. cbn [rmatch].
  destruct (rmatch r1 pos s [] accept) as [[e cs]|]; reflexivity.
Qed.

Lemma matchAt_inlineRe pos s :
  matchAt RichTable.inlineRe pos s = firstMatch precedence pos s.
Proof.
  unfold RichTable.inlineRe, precedence. cbn [alt firstMatch familyRe].
  rewrite !matchAt_Alt.
  destruct (matchAt RichTable.boldStars pos s); [reflexivity|].
  destruct (matchAt RichTable.boldUnderscores pos s); [reflexivity|].
  destruct (matchAt RichTable.italicStar pos s); [reflexivity|].
  destruct (matchAt RichTable.italicUnderscore pos s); [reflexivity|].
  destruct (matchAt RichTable.strikeTildes pos s); [reflexivity|].
  destruct (matchAt RichTable.codeTicks pos s); [reflexivity|].
  destruct (matchAt RichTable.linkBrackets pos s); reflexivity.
Qed.

Lemma search_leftmost re : forall s pos m,
  search re pos s = Some m ->
  pos <= index m <= pos + length s
  /\ matchAt re (index m) (skipn (index m - pos) s) = Some m
  /\ forall p, pos <= p < index m -> matchAt re p (skipn (p - pos) s) = None.
Proof.
  induction s as [|c s IH]; intros pos m H; cbn [search] in H.
  - destruct (matchAt re pos []) as [m'|] eqn:E; [|discriminate].
    injection H as ->. pose proof (matchAt_index _ _ _ _ E) as Hi.
    rewrite Hi, Nat.sub_diag. simpl.
    split; [lia|]. split; [exact E|]. intros p Hp. lia.
  - destruct (matchAt re pos (c :: s)) as [m'|] eqn:E.
    + injection H as ->. pose proof (matchAt_index _ _ _ _ E) as Hi.
      rewrite Hi, Nat.sub_diag. simpl.
      split; [lia|]. split; [exact E|]. intros p Hp. lia.
    + destruct (IH _ _ H) as [H1 [H2 H3]].
      simpl length. split; [lia|]. split.
      * replace (index m - pos) with (S (index m - S pos)) by lia. exact H2.
      * intros p Hp. destruct (Nat.eq_dec p pos) as [->|Hne].
        -- rewrite Nat.sub_diag. exact E.
        -- replace (p - pos) with (S (p - S pos)) by lia.
           apply H3. lia.
Qed.

Lemma search_nowhere re : forall s pos,
  search re pos s = None ->
  forall p, pos <= p <= pos + length s -> matchAt re p (skipn (p - pos) s) = None.
Proof.
  induction s as [|c s IH]; intros pos H p Hp; cbn [search] in H.
  - destruct (matchAt re pos []) eqn:E; [discriminate|].
    simpl in Hp. replace p with pos by lia. rewrite Nat.sub_diag. exact E.
  - destruct (matchAt re pos (c :: s)) eqn:E; [discriminate|].
    destruct (Nat.eq_dec p pos) as [->|Hne].
    + rewrite Nat.sub_diag. exact E.
    + replace (p - pos) with (S (p - S pos)) by lia.
      apply IH; [exact H|]. simpl in Hp. lia.
Qed.

Lemma slice_gap_nonempty (text : jsstring) a b :
  a < b -> b <= length text ->
  truthy (slice text (Z.of_nat a) (Z.of_nat b)) = true.
Proof.
  intros Hab Hb. rewrite slice_middle by lia. rewrite !Nat2Z.id.
  destruct (firstn (b - a) (skipn a text)) eqn:E; [|reflexivity].
  apply (f_equal (@length char)) in E.
  rewrite length_firstn, length_skipn in E. simpl in E. lia.
Qed.

(** C7: [exec] finds the leftmost position, from [lastIndex] on, at which
    one of the five families matches, and there the match of the first
    family in the order bold, italic, strikethrough, code, link; the match
    of a family is its delimiters around a non-empty text, and its run has
    that text and the style of the family; the loop emits the gap before
    the match as an unstyled run, then the run of the match, and goes on
    after the match.  The cell [**bold** and *italic*] is styled, with the
    runs bold [bold], unstyled [ and ], italic [italic]. *)
Theorem tokenizer_precedence_and_gaps :
  (forall text lastIndex m,
      exec RichTable.inlineRe text lastIndex = Some m ->
      lastIndex <= index m <= length text
      /\ firstMatch precedence (index m) (skipn (index m) text) = Some m
      /\ forall p, lastIndex <= p < index m ->
                   firstMatch precedence p (skipn p text) = None)
  /\ (forall text lastIndex,
         lastIndex <= length text ->
         exec RichTable.inlineRe text lastIndex = None ->
         forall p, lastIndex <= p <= length text ->
                   firstMatch precedence p (skipn p text) = None)
  /\ (forall f pos s m,
         matchAt (familyRe f) pos s = Some m ->
         exists t u,
           t <> [] /\ delimited f t u (matched m)
           /\ RichTable.matchElement m
              = [Elem.mk (typeOf f) (Some t) u (styleOf f)])
  /\ (forall fuel text lastIndex els m,
         exec RichTable.inlineRe text lastIndex = Some m ->
         RichTable.parseLoop (S fuel) text lastIndex els
         = RichTable.parseLoop fuel text (index m + length (matched m))
             (els ++ gapRun text lastIndex m ++ RichTable.matchElement m))
  /\ (forall fuel text lastIndex els,
         exec RichTable.inlineRe text lastIndex = None ->
         RichTable.parseLoop (S fuel) text lastIndex els
         = Returns (els, lastIndex))
  /\ RichTable.buildCell (lit "**bold** and *italic*")
     = Returns (rich_text [rich_text_section
                             [boldRun "bold"; plainRun " and ";
                              italicRun "italic"]])
  /\ RichTable.buildCell (lit "**_x_** ~~s~~`c`[t](u)")
     = Returns (rich_text [rich_text_section
                             [boldRun "_x_"; plainRun " "; strikeRun "s";
                              codeRun "c"; linkRun "t" "u"]]).
Proof.
  split; [|split; [|split; [|split; [|split; [|split]]]]].
  - intros text lastIndex m H. unfold exec in H.
    destruct (length text <? lastIndex) eqn:E; [discriminate|].
    apply Nat.ltb_ge in E.
    destruct (search_leftmost _ _ _ _ H) as [H1 [H2 H3]].
    rewrite length_skipn in H1. rewrite skipn_skipn in H2.
    replace (index m - lastIndex + lastIndex) with (index m) in H2 by lia.
    rewrite matchAt_inlineRe in H2.
    split; [lia|]. split; [exact H2|].
    intros p Hp. specialize (H3 p Hp). rewrite skipn_skipn in H3.
    replace (p - lastIndex + lastIndex) with p in H3 by lia.
    rewrite matchAt_inlineRe in H3. exact H3.
  - intros text lastIndex Hle H p Hp. unfold exec in H.
    destruct (length text <? lastIndex) eqn:E.
    { apply Nat.ltb_lt in E. lia. }
    pose proof (search_nowhere _ _ _ H p) as H3.
    rewrite length_skipn, skipn_skipn in H3.
    replace (p - lastIndex + lastIndex) with p in H3 by lia.
    rewrite matchAt_inlineRe in H3. apply H3. lia.
  - intros f pos s m H.
    destruct (matchAt_sound _ _ _ _ H) as [w [rest [_ [D [Hi Hm]]]]].
    destruct (family_match f _ _ _ _ D) as [t [u [Ht [Hd [_ He]]]]].
    exists t, u. rewrite Hm. split; [exact Ht|]. split; [exact Hd|].
    destruct m as [i w' g]. simpl in Hi, Hm. subst i w'. exact He.
  - intros fuel text lastIndex els m H. cbn [RichTable.parseLoop].
    rewrite H. cbv zeta.
    destruct (exec_inlineRe _ _ _ H) as [H1 [H2 [H3 _]]].
    assert (Hlen : 0 < length (matched m)).
    { destruct (matched m); [congruence | simpl; lia]. }
    destruct (index m + length (matched m) <=? lastIndex) eqn:G.
    { apply Nat.leb_le in G. lia. }
    f_equal. unfold gapRun.
    destruct (lastIndex <? index m) eqn:L.
    + apply Nat.ltb_lt in L. rewrite slice_gap_nonempty by lia.
      rewrite <- app_assoc. reflexivity.
    + reflexivity.
  - intros fuel text lastIndex els H. cbn [RichTable.parseLoop].
    rewrite H. reflexivity.
  - vm_compute. reflexivity.
  - vm_compute. reflexivity.
Qed.

Lemma tokenizer_precedence_and_gaps_witness :
  0 <= index (mkMatch 2 (lit "**x**") [(1, lit "x")]) <= length (lit "a **x** b")
  /\ firstMatch precedence 2 (skipn 2 (lit "a **x** b"))
     = Some (mkMatch 2 (lit "**x**") [(1, lit "x")])
  /\ forall p, 0 <= p < 2 ->
               firstMatch precedence p (skipn p (lit "a **x** b")) = None.
Proof.
  apply (proj1 tokenizer_precedence_and_gaps (lit "a **x** b") 0
           (mkMatch 2 (lit "**x**") [(1, lit "x")])).
  vm_compute. reflexivity.
Defined.

(** ** The two source files against each other *)

Lemma parsePipeRow_trimmed (line : jsstring) :
  Forall (fun c => trim c = c) (RichTable.parsePipeRow line).
Proof.
  unfold RichTable.parsePipeRow. apply Forall_map, Forall_forall.
  intros c _. apply trim_idempotent.
Qed.

Lemma Forall_firstn {A} (P : A -> Prop) n (xs : list A) :
  Forall P xs -> Forall P (firstn n xs).
Proof.
  revert xs. induction n as [|n IH]; intros [|x xs] H; simpl;
    try constructor.
  - inversion H; assumption.
  - apply IH. inversion H; assumption.
Qed.

Lemma located_cells_trimmed (markdown : jsstring) (t : TableData) :
  RichTable.extractFirstTable markdown = Returns (Some t) ->
  Forall (fun c => trim c = c) (headers t)
  /\ Forall (Forall (fun c => trim c = c)) (rows t).
Proof.
  intros H.
  destruct (located_block _ _ H)
    as [pre [h [sp [data [post [_ [_ [_ [_ [Hh [Hr _]]]]]]]]]]].
  rewrite Hh, Hr. split.
  - apply Forall_firstn, parsePipeRow_trimmed.
  - apply Forall_map, Forall_firstn, Forall_map, Forall_forall.
    intros l _. apply Forall_firstn, parsePipeRow_trimmed.
Qed.

Lemma buildCell_plain (c : jsstring) :
  trim c = c ->
  RichTable.hasInlineFormatting c = false ->
  RichTable.buildCell c = Returns (raw_text (orElse c (lit " "))).
Proof.
  intros Ht Hf. unfold RichTable.buildCell. rewrite Ht.
  destruct c as [|x c]; [reflexivity|].
  unfold orElse. cbn [truthy]. rewrite Hf. reflexivity.
Qed.

Lemma buildCell_header (h : jsstring) :
  trim h = h ->
  RichTable.hasInlineFormatting h = false ->
  RichTable.buildCell (orElse h (lit " ")) = Returns (raw_text (orElse h (lit " "))).
Proof.
  intros Ht Hf. destruct h as [|x h]; [reflexivity|].
  unfold orElse at 1. cbn [truthy].
  rewrite buildCell_plain by assumption. reflexivity.
Qed.

Lemma plain_blocks_agree (t : TableData) :
  Forall (fun c => trim c = c) (headers t) ->
  Forall (Forall (fun c => trim c = c)) (rows t) ->
  Forall (fun h => RichTable.hasInlineFormatting h = false) (headers t) ->
  Forall (fun row =>
            length (headers t) <= length row
            /\ Forall (fun c => RichTable.hasInlineFormatting c = false)
                      (firstn (length (headers t)) row))
         (rows t) ->
  RichTable.buildTableBlock t = Returns (RawTable.buildTableBlock t).
Proof.
  intros Th Tr Fh Fr.
  unfold RichTable.buildTableBlock, RawTable.buildTableBlock.
  rewrite (mapM_pure _ (fun h => raw_text (orElse h (lit " ")))).
  2:{ intros h Hh. rewrite Forall_forall in Th, Fh.
      apply buildCell_header; auto. }
  cbn [bind].
  rewrite (mapM_pure _
             (fun row =>
                map (fun i =>
                       raw_text
                         (orElse (trim (nullish (nth_error row i)
                                                RawTable.placeholder))
                                 (lit " ")))
                    (List.seq 0 (length (headers t))))).
  2:{ intros row Hrow. rewrite Forall_forall in Tr, Fr.
      specialize (Tr row Hrow). destruct (Fr row Hrow) as [Hlen Hfmt].
      apply mapM_pure. intros i Hi. apply in_seq in Hi.
      destruct (nth_error row i) as [c|] eqn:E.
      2:{ apply nth_error_None in E. lia. }
      cbn [nullish].
      assert (Hin : In c row) by (eapply nth_error_In; eauto).
      rewrite Forall_forall in Tr, Hfmt.
      rewrite (Tr c Hin).
      apply buildCell_plain; [exact (Tr c Hin)|].
      apply Hfmt.
      rewrite <- (firstn_skipn (length (headers t)) row) in E.
      rewrite nth_error_app1 in E
        by (rewrite length_firstn; lia).
      eapply nth_error_In; eauto. }
  reflexivity.
Qed.

(** The placeholder literals of the two files are different strings. *)
Lemma placeholders_differ : RawTable.placeholder <> RichTable.placeholder.
Proof. discriminate. Qed.

(** C9: the locators of the two source files are the same function, and the
    two [extractSlackTableBlock] return the same result for every input
    whose located table has no inline formatting marker in a header cell or
    in a data cell under a header column, and whose data rows have at least
    [headers.length] cells. *)
Theorem raw_and_rich_versions_agree :
  (forall text,
      RawTable.extractFirstTable text = RichTable.extractFirstTable text)
  /\ (forall markdown,
         (forall t,
             RichTable.extractFirstTable markdown = Returns (Some t) ->
             Forall (fun h => RichTable.hasInlineFormatting h = false)
                    (headers t)
             /\ Forall (fun row =>
                          length (headers t) <= length row
                          /\ Forall (fun c =>
                                       RichTable.hasInlineFormatting c = false)
                                    (firstn (length (headers t)) row))
                       (rows t)) ->
         RichTable.extractSlackTableBlock markdown
         = RawTable.extractSlackTableBlock markdown).
Proof.
  split; [exact locators_agree|].
  intros markdown Hyp.
  destruct (rich_extract_cases markdown) as [[E R]|[t [b [E [Hb R]]]]];
    destruct (raw_extract_cases markdown) as [[E' R']|[t' [E' R']]];
    rewrite locators_agree, E in E'; try discriminate.
  - rewrite R, R'. reflexivity.
  - injection E' as <-. rewrite R, R'.
    destruct (located_cells_trimmed _ _ E) as [Th Tr].
    destruct (Hyp t E) as [Fh Fr].
    rewrite (plain_blocks_agree t Th Tr Fh Fr) in Hb.
    injection Hb as <-. reflexivity.
Qed.

Lemma raw_and_rich_versions_agree_witness :
  RichTable.extractSlackTableBlock
    (lit "| a | b |" ++ [nl] ++ lit "|---|---|" ++ [nl] ++ lit "| 1 | 2 |")
  = RawTable.extractSlackTableBlock
      (lit "| a | b |" ++ [nl] ++ lit "|---|---|" ++ [nl] ++ lit "| 1 | 2 |").
Proof.
  apply (proj2 raw_and_rich_versions_agree).
  intros t H. vm_compute in H. injection H as <-.
  split.
  - repeat constructor.
  - constructor; [|constructor].
    split; [simpl; lia|]. repeat constructor.
Defined.

(** * Further properties of the table module *)

(** ** The locator is the first-header rule *)

Lemma takeWhile_run {A} (p : A -> bool) (data post : list A) :
  Forall (fun x => p x = true) data ->
  (post = [] \/ exists x post', post = x :: post' /\ p x = false) ->
  takeWhile p (data ++ post) = data.
Proof.
  intros Hd Hp. induction Hd as [|x data Hx _ IH]; simpl.
  - destruct Hp as [->|[x [post' [-> Hx]]]]; simpl; [reflexivity|].
    rewrite Hx. reflexivity.
  - rewrite Hx, IH. reflexivity.
Qed.

Lemma scan_findHeader (ls : list jsstring) :
  forall i st,
    inTable st = false ->
    match findHeader ls with
    | None => RichTable.scanLines i ls st = st
    | Some (pre, h, sp, after) =>
        ls = pre ++ h :: sp :: after
        /\ RichTable.scanLines i ls st
           = RichTable.scanLines (i + Z.of_nat (length pre) + 2) after
               (mkScan (i + Z.of_nat (length pre)) (tableEnd st)
                       (RichTable.parsePipeRow (trim h)) (curRows st)
                       true true)
    end.
Proof.
  induction ls as [|l rest IH]; intros i st Hin; [reflexivity|].
  cbn [findHeader].
  rewrite scanLines_cons. cbv zeta. rewrite Hin. cbn [negb].
  destruct rest as [|sp after].
  - cbn [nth_error option_map].
    destruct (startsWith pipe (trim l) && endsWith pipe (trim l)
              && includes pipe 1 (trim l)); [|reflexivity].
    destruct (1 <=? length (RichTable.parsePipeRow (trim l))); reflexivity.
  - cbn [nth_error option_map].
    assert (Ht : RichTable.isSeparatorRow (trim sp) = true ->
                 truthy (trim sp) = true).
    { unfold RichTable.isSeparatorRow.
      destruct (trim sp); [discriminate | reflexivity]. }
    assert (Hc : (1 <=? length (RichTable.parsePipeRow (trim l))) = true).
    { apply Nat.leb_le.
      pose proof (parsePipeRow_nonempty (trim l)) as Hne.
      destruct (RichTable.parsePipeRow (trim l)); [congruence | simpl; lia]. }
    rewrite Hc. unfold headerLine at 1.
    assert (Hskip :
      match
        match findHeader (sp :: after) with
        | Some (pre, h, s, a) => Some (l :: pre, h, s, a)
        | None => None
        end
      with
      | None => RichTable.scanLines (i + 1) (sp :: after) st = st
      | Some (pre, h, sp0, after0) =>
          l :: sp :: after = pre ++ h :: sp0 :: after0
          /\ RichTable.scanLines (i + 1) (sp :: after) st
             = RichTable.scanLines (i + Z.of_nat (length pre) + 2) after0
                 (mkScan (i + Z.of_nat (length pre)) (tableEnd st)
                         (RichTable.parsePipeRow (trim h)) (curRows st)
                         true true)
      end).
    { specialize (IH (i + 1)%Z st Hin).
      destruct (findHeader (sp :: after)) as [[[[pre h] s] a]|]; [|exact IH].
      destruct IH as [H1 H2]. split.
      - simpl. f_equal. exact H1.
      - rewrite H2. simpl length. f_equal; [lia|]. f_equal. lia. }
    destruct (startsWith pipe (trim l) && endsWith pipe (trim l)
              && includes pipe 1 (trim l)); [|exact Hskip].
    destruct (RichTable.isSeparatorRow (trim sp)) eqn:Hs.
    + rewrite (Ht eq_refl). cbn [andb]. split; [reflexivity|].
      rewrite scanLines_cons. cbv zeta.
      cbn [inTable pastSeparator negb tableStart tableEnd curHeaders curRows].
      rewrite Hs. simpl length. f_equal; [lia|]. f_equal. lia.
    + destruct (truthy (trim sp)); cbn [andb]; exact Hskip.
Qed.

Lemma scan_takeWhile (rest : list jsstring) i st :
  inTable st = true -> pastSeparator st = true ->
  RichTable.scanLines i rest st
  = mkScan (tableStart st)
           (match takeWhile pipeLine rest with
            | [] => tableEnd st
            | _ :: _ => i + Z.of_nat (length (takeWhile pipeLine rest)) - 1
            end)%Z
           (curHeaders st)
           (curRows st
              ++ map (fun l => RichTable.parsePipeRow (trim l))
                     (takeWhile pipeLine rest))
           true true.
Proof.
  intros Hin Hpast.
  destruct (scan_collect rest i st Hin Hpast)
    as [data [post [H1 [H2 [H3 H4]]]]].
  rewrite H4. subst rest. rewrite (takeWhile_run _ _ _ H2 H3). reflexivity.
Qed.

Lemma takeWhile_prefix {A} (p : A -> bool) (xs : list A) :
  exists post, xs = takeWhile p xs ++ post.
Proof.
  induction xs as [|x xs [post IH]]; simpl; [exists []; reflexivity|].
  destruct (p x).
  - exists post. simpl. f_equal. exact IH.
  - exists (x :: xs). reflexivity.
Qed.

Lemma extractFirstTable_locate (text : jsstring) :
  RichTable.extractFirstTable text = Returns (locate text).
Proof.
  unfold RichTable.extractFirstTable, locate. set (lines := split nl text).
  pose proof (scan_findHeader lines 0 initScan eq_refl) as Hs.
  destruct (findHeader lines) as [[[[pre h] sp] after]|].
  2:{ rewrite Hs. reflexivity. }
  destruct Hs as [Hlines Hs]. rewrite Hs.
  rewrite scan_takeWhile by reflexivity. unfold initScan.
  cbn [inTable curHeaders curRows tableStart tableEnd negb orb app].
  destruct (takeWhile_prefix pipeLine after) as [post Hpost].
  destruct (takeWhile pipeLine after) as [|d data] eqn:Hd.
  { cbn [map length Nat.eqb]. rewrite orb_true_r. reflexivity. }
  pose proof (parsePipeRow_nonempty (trim h)) as Hne.
  destruct (RichTable.parsePipeRow (trim h)) as [|c0 cs] eqn:Hc; [congruence|].
  cbn [length Nat.eqb orb map].
  set (n := length pre) in *.
  assert (Hlines' : lines = (pre ++ h :: sp :: d :: data) ++ post).
  { rewrite Hlines, Hpost, <- app_assoc. reflexivity. }
  assert (Hlen : length lines = n + 2 + S (length data) + length post).
  { rewrite Hlines'. rewrite !length_app. simpl. fold n. lia. }
  rewrite !Z.add_0_l.
  rewrite addLineLengths_ok by (simpl; lia).
  cbn [bind].
  match goal with |- context [(?e =? -1)%Z] =>
    replace (e =? -1)%Z with false by (symmetry; apply Z.eqb_neq; lia)
  end.
  rewrite addLineLengths_ok by lia.
  cbn [bind].
  rewrite addLineLengths_ok by (simpl; lia).
  cbn [bind].
  do 2 apply f_equal. f_equal.
  - simpl. rewrite Hlines.
    rewrite firstn_app_exact by (fold n; lia). reflexivity.
  - simpl skipn. rewrite Z.add_0_l. rewrite Hlines'.
    rewrite firstn_app_exact; [reflexivity|].
    rewrite length_app. simpl. fold n. lia.
Qed.

(** X1: the locator of both source files returns, for every text, exactly
    the table of the first header line that a separator line follows, with
    the run of lines starting with a pipe after them as data rows, and
    nothing when that run is empty or no such header exists. *)
Theorem locator_is_first_header_rule (text : jsstring) :
  RichTable.extractFirstTable text = Returns (locate text)
  /\ RawTable.extractFirstTable text = Returns (locate text).
Proof.
  pose proof (extractFirstTable_locate text) as H.
  split; [exact H | rewrite locators_agree; exact H].
Qed.

(** ** The block stays within the limits of Slack *)

(** X2: whenever [extractSlackTableBlock] returns a table block, the block
    has between 2 and 100 rows and between 1 and 20 columns, one column
    setting per column, and every row has that number of cells (in both
    source files). *)
Theorem block_within_slack_limits :
  (forall markdown r b,
      RichTable.extractSlackTableBlock markdown = Returns r ->
      tableBlock r = Some b ->
      2 <= length (Block.rows b) <= 100
      /\ 1 <= length (Block.column_settings b) <= 20
      /\ Forall (fun row => length row = length (Block.column_settings b))
                (Block.rows b))
  /\ (forall markdown r b,
         RawTable.extractSlackTableBlock markdown = Returns r ->
         tableBlock r = Some b ->
         2 <= length (Block.rows b) <= 100
         /\ 1 <= length (Block.column_settings b) <= 20
         /\ Forall (fun row => length row = length (Block.column_settings b))
                   (Block.rows b)).
Proof.
  assert (Hsize : forall markdown t,
             RichTable.extractFirstTable markdown = Returns (Some t) ->
             1 <= length (rows t) <= 99 /\ 1 <= length (headers t) <= 20).
  { intros markdown t H.
    destruct (located_block _ _ H)
      as [pre [h [sp [data [post [_ [Hd [_ [_ [Hh [Hr _]]]]]]]]]]].
    rewrite Hh, Hr, length_map, !length_firstn, length_map.
    pose proof (parsePipeRow_nonempty (trim h)) as Hne.
    destruct (RichTable.parsePipeRow (trim h)); [congruence|].
    destruct data; [congruence|]. simpl length. lia. }
  split; intros markdown r b Hr Hb.
  - destruct (rich_extract_cases markdown) as [[_ R]|[t [b' [E [Hbuild R]]]]];
      rewrite R in Hr; injection Hr as <-; simpl in Hb; [discriminate|].
    injection Hb as ->.
    destruct (Hsize _ _ E) as [H1 H2].
    destruct (rich_buildTableBlock_returns t) as [b' [Hb' [G1 [G2 G3]]]].
    rewrite Hbuild in Hb'. injection Hb' as <-.
    rewrite G1, G3. repeat split; try lia.
    eapply Forall_impl; [|exact G2]. intros row [H _]. exact H.
  - destruct (raw_extract_cases markdown) as [[_ R]|[t [E R]]];
      rewrite R in Hr; injection Hr as <-; simpl in Hb; [discriminate|].
    injection Hb as <-. rewrite locators_agree in E.
    destruct (Hsize _ _ E) as [H1 H2].
    destruct (raw_buildTableBlock_rows t) as [G1 G2].
    rewrite G1. simpl Block.column_settings. rewrite length_map.
    repeat split; try lia.
    eapply Forall_impl; [|exact G2]. intros row [H _]. exact H.
Qed.

Lemma block_within_slack_limits_witness :
  2 <= length (Block.rows
                 (Block.mk [is_wrapped true]
                           [[raw_text (lit "a")]; [raw_text (lit "1")]]))
    <= 100.
Proof.
  apply (proj1 block_within_slack_limits
           (lit "|a|" ++ [nl] ++ lit "|-|" ++ [nl] ++ lit "|1|")
           (mkExtraction []
              (Some (Block.mk [is_wrapped true]
                              [[raw_text (lit "a")]; [raw_text (lit "1")]])))).
  - vm_compute. reflexivity.
  - reflexivity.
Defined.

(** ** Cells without a marker character *)

Ltac split_word D :=
  repeat match type of D with
         | _ \/ _ => destruct D as [D|D]
         end;
  repeat match goal with
         | H : exists _, _ |- _ => destruct H as [? H]
         | H : _ /\ _ |- _ => destruct H as [? ?]
         end;
  subst.

Lemma formatting_needs_marker (text : jsstring) :
  RichTable.hasInlineFormatting text = true ->
  exists c, In c text /\ isMarker c = true.
Proof.
  unfold RichTable.hasInlineFormatting. rewrite test_true_iff.
  intros [pre [w [rest [-> D]]]].
  unfold RichTable.formattingRe, Chr in D. cbn [alt seq denote] in D.
  split_word D;
    match goal with
    | H : isChar _ ?c = true |- context [pre ++ ([?c] ++ _) ++ _] =>
        exists c; split;
        [apply in_or_app; right; left; reflexivity
        | unfold isChar in H; apply N.eqb_eq in H; rewrite H; reflexivity]
    end.
Qed.

(** X3: a cell text with none of the characters [*], [_], [~], the
    backtick and [[] has no inline formatting, and its cell is the plain
    cell of the trimmed text (of one space when that is empty). *)
Theorem unmarked_text_is_plain_cell (text : jsstring) :
  (forall c, In c text -> isMarker c = false) ->
  RichTable.hasInlineFormatting text = false
  /\ RichTable.buildCell text
     = Returns (raw_text (orElse (trim text) (lit " "))).
Proof.
  intros Hno.
  assert (Hfalse : forall s, (forall c, In c s -> isMarker c = false) ->
                             RichTable.hasInlineFormatting s = false).
  { intros s Hs. destruct (RichTable.hasInlineFormatting s) eqn:E;
      [|reflexivity].
    destruct (formatting_needs_marker _ E) as [c [Hin Hm]].
    rewrite (Hs c Hin) in Hm. discriminate. }
  split; [apply Hfalse; exact Hno|].
  unfold RichTable.buildCell. rewrite Hfalse; [reflexivity|].
  intros c Hc. unfold orElse in Hc. destruct (trim text) eqn:Et.
  - simpl in Hc. destruct Hc as [<-|[]]. reflexivity.
  - simpl truthy in Hc. cbv iota in Hc. rewrite <- Et in Hc.
    apply Hno. apply trim_incl. exact Hc.
Qed.

Lemma unmarked_text_is_plain_cell_witness :
  RichTable.hasInlineFormatting (lit " plain value ") = false
  /\ RichTable.buildCell (lit " plain value ")
     = Returns (raw_text (orElse (trim (lit " plain value ")) (lit " "))).
Proof.
  apply (unmarked_text_is_plain_cell (lit " plain value ")).
  intros c Hc. vm_compute in Hc.
  repeat (destruct Hc as [<-|Hc]; [reflexivity|]). destruct Hc.
Defined.

(** ** Rows of cells *)

Lemma split_length c s : length (split c s) = S (count_occ N.eq_dec s c).
Proof.
  induction s as [|x s IH]; [reflexivity|].
  cbn [split count_occ].
  destruct (x =? c)%N eqn:E.
  - apply N.eqb_eq in E. destruct (N.eq_dec x c); [|congruence].
    simpl. rewrite IH. reflexivity.
  - apply N.eqb_neq in E. destruct (N.eq_dec x c); [congruence|].
    destruct (split c s) as [|l ls]; simpl in *; lia.
Qed.

Lemma split_no_separator c s : Forall (fun l => ~ In c l) (split c s).
Proof.
  induction s as [|x s IH]; cbn [split].
  - constructor; [intros []|constructor].
  - destruct (x =? c)%N eqn:E.
    + constructor; [intros []|exact IH].
    + apply N.eqb_neq in E.
      destruct (split c s) as [|l ls].
      * constructor; [|constructor]. intros [H|[]]. congruence.
      * inversion IH as [|? ? Hl Hls]; subst.
        constructor; [|exact Hls]. intros [H|H]; [congruence | exact (Hl H)].
Qed.

Lemma parsePipeRow_strip (line : jsstring) :
  RichTable.parsePipeRow line
  = map trim (split pipe (stripTrailingPipe (stripLeadingPipe line))).
Proof.
  unfold RichTable.parsePipeRow.
  rewrite replace_leadingPipe, replace_trailingPipe. reflexivity.
Qed.

(** X7: [parsePipeRow] returns one more cell than there are pipes left
    after one leading and one trailing pipe are stripped; every cell is
    trimmed and contains no pipe, so a pipe can never be part of a cell. *)
Theorem parsePipeRow_cells (line : jsstring) :
  length (RichTable.parsePipeRow line)
  = S (count_occ N.eq_dec (stripTrailingPipe (stripLeadingPipe line)) pipe)
  /\ Forall (fun cell => trim cell = cell /\ ~ In pipe cell)
            (RichTable.parsePipeRow line)
  /\ RawTable.parsePipeRow line = RichTable.parsePipeRow line.
Proof.
  split; [|split; [|reflexivity]].
  - rewrite parsePipeRow_strip, length_map. apply split_length.
  - rewrite parsePipeRow_strip. apply Forall_map.
    eapply Forall_impl; [|apply split_no_separator].
    intros l Hl. split; [apply trim_idempotent|].
    intros Hin. apply Hl. apply trim_incl. exact Hin.
Qed.

(** ** The runs of the tokenizer cover the text *)

Lemma exec_segments (text : jsstring) lastIndex m :
  exec RichTable.inlineRe text lastIndex = Some m ->
  exists pre rest f t u,
    lastIndex <= length text
    /\ skipn lastIndex text = pre ++ matched m ++ rest
    /\ index m = lastIndex + length pre
    /\ t <> [] /\ delimited f t u (matched m)
    /\ RichTable.matchElement m = [Elem.mk (typeOf f) (Some t) u (styleOf f)].
Proof.
  unfold exec. destruct (length text <? lastIndex) eqn:E; [discriminate|].
  apply Nat.ltb_ge in E. intros H.
  apply search_sound in H.
  destruct H as [pre [w [rest [Hs [Hi [Hm D]]]]]].
  destruct (inlineRe_family _ _ _ _ D) as [f Df].
  destruct (family_match f _ _ _ _ Df) as [t [u [Ht [Hd [_ He]]]]].
  exists pre, rest, f, t, u. rewrite Hm.
  repeat split; auto.
Qed.

Lemma gap_is_prefix (text : jsstring) lastIndex (pre rest : jsstring) :
  lastIndex <= length text ->
  skipn lastIndex text = pre ++ rest ->
  slice text (Z.of_nat lastIndex) (Z.of_nat (lastIndex + length pre)) = pre.
Proof.
  intros Hle Hs. rewrite slice_middle by lia. rewrite !Nat2Z.id.
  replace (lastIndex + length pre - lastIndex) with (length pre) by lia.
  rewrite Hs. apply firstn_app_exact. reflexivity.
Qed.

Lemma firstn_extend (text : jsstring) n (w rest : jsstring) :
  n <= length text ->
  skipn n text = w ++ rest ->
  firstn (n + length w) text = firstn n text ++ w.
Proof.
  intros Hle Hs.
  rewrite <- (firstn_skipn n text) at 1. rewrite Hs.
  rewrite firstn_app, length_firstn, Nat.min_l by exact Hle.
  rewrite firstn_all2 by (rewrite length_firstn; lia).
  replace (n + length w - n) with (length w) by lia.
  rewrite firstn_app_exact by reflexivity. reflexivity.
Qed.

Lemma parseLoop_covers : forall fuel (text : jsstring) lastIndex els spans,
  lastIndex <= length text ->
  length text - lastIndex < fuel ->
  concat spans = firstn lastIndex text ->
  Forall2 spanOf els spans ->
  exists els' lastIndex' spans',
    RichTable.parseLoop fuel text lastIndex els = Returns (els', lastIndex')
    /\ lastIndex' <= length text
    /\ concat spans' = firstn lastIndex' text
    /\ Forall2 spanOf els' spans'.
Proof.
  induction fuel as [|fuel IH]; intros text lastIndex els spans Hle Hfuel Hc Hs;
    [lia|].
  cbn [RichTable.parseLoop].
  destruct (exec RichTable.inlineRe text lastIndex) as [m|] eqn:E.
  2:{ exists els, lastIndex, spans. auto. }
  destruct (exec_segments _ _ _ E)
    as [pre [rest [f [t [u [_ [Hsk [Hi [Ht [Hd He]]]]]]]]]].
  pose proof (delimited_nonempty _ _ _ _ Hd) as Hw.
  assert (Hlen : 0 < length (matched m)).
  { destruct (matched m); [congruence | simpl; lia]. }
  assert (Htot : length text = lastIndex + (length pre + (length (matched m)
                                                          + length rest))).
  { rewrite <- (firstn_skipn lastIndex text) at 1.
    rewrite Hsk, !length_app, length_firstn. lia. }
  cbv zeta.
  destruct (index m + length (matched m) <=? lastIndex) eqn:G.
  { apply Nat.leb_le in G. lia. }
  assert (Hgap : slice text (Z.of_nat lastIndex) (Z.of_nat (index m)) = pre).
  { rewrite Hi. apply (gap_is_prefix text lastIndex pre (matched m ++ rest));
      [lia | exact Hsk]. }
  rewrite Hgap, He.
  assert (Hnext : firstn (index m + length (matched m)) text
                  = firstn lastIndex text ++ pre ++ matched m).
  { rewrite Hi, <- Nat.add_assoc, <- length_app.
    rewrite (firstn_extend text lastIndex (pre ++ matched m) rest);
      [reflexivity | lia | rewrite <- app_assoc; exact Hsk]. }
  destruct pre as [|c pre].
  - simpl length in Hi. rewrite Nat.add_0_r in Hi.
    replace (lastIndex <? index m) with false
      by (symmetry; apply Nat.ltb_ge; lia).
    apply (IH text _ _ (spans ++ [matched m])); try lia.
    + rewrite concat_app, Hc, Hnext. simpl. rewrite app_nil_r. reflexivity.
    + apply Forall2_app; [exact Hs|]. constructor; [|constructor].
      right. exists f, t, u. auto.
  - replace (lastIndex <? index m) with true
      by (symmetry; apply Nat.ltb_lt; simpl in Hi; lia).
    cbn [truthy].
    apply (IH text _ _ ((spans ++ [c :: pre]) ++ [matched m])); try lia.
    + rewrite !concat_app, Hc, Hnext. simpl. rewrite !app_nil_r.
      rewrite <- app_assoc. reflexivity.
    + apply Forall2_app; [apply Forall2_app; [exact Hs|]|].
      * constructor; [|constructor]. left. split; [discriminate|reflexivity].
      * constructor; [|constructor]. right. exists f, t, u. auto.
Qed.

Lemma parseInlineMarkdown_covers (text : jsstring) :
  exists els spans,
    RichTable.parseInlineMarkdown text = Returns els
    /\ concat spans = text
    /\ Forall2 spanOf els spans.
Proof.
  unfold RichTable.parseInlineMarkdown.
  destruct (parseLoop_covers (S (length text)) text 0 [] [])
    as [els [li [spans [H [Hli [Hc Hs]]]]]];
    [lia | lia | reflexivity | constructor |].
  rewrite H. cbn [bind].
  assert (Hfinal : forall els1 spans1,
             concat spans1 = text -> Forall2 spanOf els1 spans1 ->
             (if (length els1 =? 0) && truthy text
              then els1 ++ [RichTable.textElement text] else els1) = els1).
  { intros els1 spans1 Hc1 Hs1.
    destruct els1 as [|e els1]; [|reflexivity].
    inversion Hs1; subst. reflexivity. }
  destruct (li <? length text) eqn:L.
  - apply Nat.ltb_lt in L.
    rewrite sliceFrom_suffix by lia. rewrite Nat2Z.id.
    assert (Hne : skipn li text <> []).
    { intros E0. apply (f_equal (@length char)) in E0.
      rewrite length_skipn in E0. simpl in E0. lia. }
    destruct (skipn li text) as [|c r] eqn:Hsk; [congruence|].
    cbn [truthy].
    exists (els ++ [RichTable.textElement (c :: r)]), (spans ++ [c :: r]).
    assert (Hc' : concat (spans ++ [c :: r]) = text).
    { rewrite concat_app, Hc. simpl. rewrite app_nil_r, <- Hsk.
      apply firstn_skipn. }
    assert (Hs' : Forall2 spanOf (els ++ [RichTable.textElement (c :: r)])
                          (spans ++ [c :: r])).
    { apply Forall2_app; [exact Hs|]. constructor; [|constructor].
      left. split; [discriminate | reflexivity]. }
    rewrite (Hfinal _ _ Hc' Hs'). auto.
  - apply Nat.ltb_ge in L.
    assert (Hc' : concat spans = text).
    { rewrite Hc. apply firstn_all2. lia. }
    exists els, spans. rewrite (Hfinal _ _ Hc' Hs). auto.
Qed.

(** X4: for every text the runs returned by the tokenizer stand, in order,
    for consecutive pieces of the text that together are the whole text: an
    unstyled run is its piece, and the run of a family carries the text
    between the delimiters of its piece.  Nothing of the text is dropped
    but delimiters, and nothing is added. *)
Theorem tokenizer_covers_text (text : jsstring) :
  exists els spans,
    RichTable.parseInlineMarkdown text = Returns els
    /\ concat spans = text
    /\ Forall2 spanOf els spans.
Proof. exact (parseInlineMarkdown_covers text). Qed.

(** ** The detector against the tokenizer *)

Ltac build_word :=
  repeat match goal with
         | |- exists _ _, _ = _ ++ _ /\ _ => do 2 eexists; split; [reflexivity|]
         | |- exists c, _ = [c] /\ _ => eexists; split; [reflexivity|]
         | |- _ /\ _ => split
         | |- _ => eassumption
         end.

Lemma no_terminator_dot (w : jsstring) :
  Forall (fun c => isLineTerminator c = false) w ->
  Forall (fun c => dot c = true) w.
Proof.
  intros H. eapply Forall_impl; [|exact H].
  intros c Hc. unfold dot. rewrite Hc. reflexivity.
Qed.

Lemma inline_match_is_formatting pos pos' w rest :
  Forall (fun c => isLineTerminator c = false) w ->
  denote RichTable.inlineRe pos w rest ->
  denote RichTable.formattingRe pos' w rest.
Proof.
  intros Hlt D.
  unfold RichTable.inlineRe, RichTable.formattingRe, RichTable.boldStars,
    RichTable.boldUnderscores, RichTable.italicStar,
    RichTable.italicUnderscore, RichTable.strikeTildes, RichTable.codeTicks,
    RichTable.linkBrackets, Chr in *.
  cbn [alt seq denote] in *.
  split_word D.
  - left. build_word.
  - right. left. build_word.
  - do 2 right. left. build_word.
  - do 3 right. left. build_word.
  - do 4 right. left. build_word.
  - do 5 right. left. build_word.
  - do 6 right.
    apply no_terminator_dot in Hlt.
    repeat match goal with
           | H : Forall _ (_ ++ _) |- _ =>
               apply Forall_app in H; destruct H as [? ?]
           end.
    build_word.
Qed.

(** X5: for a text without line terminators (a cell of a line can still
    hold a carriage return), a negative answer of the formatting detector
    means that the tokenizer's pattern matches nowhere: the tokenizer
    returns the whole text as one unstyled run, so a cell kept plain loses
    no span the tokenizer would have styled. *)
Theorem plain_cell_has_no_styled_span (text : jsstring) :
  Forall (fun c => isLineTerminator c = false) text ->
  RichTable.hasInlineFormatting text = false ->
  (forall lastIndex, exec RichTable.inlineRe text lastIndex = None)
  /\ RichTable.parseInlineMarkdown text
     = Returns (if truthy text then [RichTable.textElement text] else []).
Proof.
  intros Hlt Hf.
  assert (Hnone : forall lastIndex,
             exec RichTable.inlineRe text lastIndex = None).
  { intros li. destruct (exec RichTable.inlineRe text li) as [m|] eqn:E;
      [|reflexivity].
    exfalso. unfold exec in E.
    destruct (length text <? li); [discriminate|].
    apply search_sound in E.
    destruct E as [pre [w [rest [Hs [_ [_ D]]]]]].
    apply derives_denote in D.
    assert (Ht : text = (firstn li text ++ pre) ++ w ++ rest).
    { rewrite <- app_assoc, <- Hs. symmetry. apply firstn_skipn. }
    assert (Hw : Forall (fun c => isLineTerminator c = false) w).
    { rewrite Ht in Hlt. apply Forall_app in Hlt. destruct Hlt as [_ Hlt].
      apply Forall_app in Hlt. tauto. }
    apply (inline_match_is_formatting _ (length (firstn li text ++ pre)))
      in D; [|exact Hw].
    assert (Htest : RichTable.hasInlineFormatting text = true).
    { unfold RichTable.hasInlineFormatting. apply test_true_iff.
      exists (firstn li text ++ pre), w, rest. split; [exact Ht | exact D]. }
    congruence. }
  split; [exact Hnone|].
  unfold RichTable.parseInlineMarkdown. cbn [RichTable.parseLoop].
  rewrite Hnone. cbn [bind].
  destruct text as [|c text]; [reflexivity|].
  cbn [length Nat.ltb Nat.leb truthy].
  rewrite sliceFrom_suffix by lia. reflexivity.
Qed.

Lemma plain_cell_has_no_styled_span_witness :
  RichTable.parseInlineMarkdown (lit "a * b")
  = Returns (if truthy (lit "a * b")
             then [RichTable.textElement (lit "a * b")] else []).
Proof.
  apply (plain_cell_has_no_styled_span (lit "a * b")).
  - repeat constructor.
  - vm_compute. reflexivity.
Defined.

(** ** The residual text is shorter *)

Lemma trimEnd_length (s : jsstring) : length (trimEnd s) <= length s.
Proof.
  destruct (trimEnd_split s) as [ws [H _]].
  rewrite H at 2. rewrite length_app. lia.
Qed.

Lemma trimStart_length (s : jsstring) : length (trimStart s) <= length s.
Proof.
  destruct (trimStart_split s) as [ws [H _]].
  rewrite H at 2. rewrite length_app. lia.
Qed.

Lemma trim_nonempty (s : jsstring) : trim s <> [] -> s <> [].
Proof. intros H ->. apply H. reflexivity. Qed.

Lemma join_halves_length (a b : jsstring) :
  length (join [nl; nl] (filter truthy [a; b])) <= length a + length b + 2.
Proof.
  destruct a as [|x a], b as [|y b]; simpl; rewrite ?length_app; simpl; lia.
Qed.

Lemma residual_shorter (markdown : jsstring) (t : TableData) :
  RichTable.extractFirstTable markdown = Returns (Some t) ->
  length (join [nl; nl]
            (filter truthy
               [trimEnd (slice markdown 0 (start t));
                trimStart (sliceFrom markdown (end_ t))])) + 3
  <= length markdown.
Proof.
  intros H.
  destruct (extractFirstTable_cases markdown)
    as [E|[pre [h [sp [d [data [post [Hs [Hh [_ [Hsep [Hd [_ E]]]]]]]]]]]]];
    rewrite E in H; [discriminate|]. injection H as <-. cbn [start end_].
  assert (Hs' : split nl markdown = pre ++ (h :: sp :: d :: data) ++ post)
    by exact Hs.
  destruct (text_around_block markdown pre (h :: sp :: d :: data) post Hs')
    as [_ [H0 [H1 _]]]; [discriminate|].
  rewrite H0, H1.
  pose proof (unlines_split markdown) as Hu. rewrite Hs' in Hu.
  apply (f_equal (@length char)) in Hu.
  rewrite !unlines_app, !length_app in Hu. simpl length in Hu.
  assert (Hblock : 3 <= length (unlines (h :: sp :: d :: data))).
  { unfold unlines. simpl. rewrite !length_app. simpl. lia. }
  assert (Hh1 : 1 <= length h).
  { unfold headerLine in Hh.
    apply andb_true_iff in Hh. destruct Hh as [Hh _].
    apply andb_true_iff in Hh. destruct Hh as [Hh _].
    assert (h <> []).
    { apply trim_nonempty. intros E0. rewrite E0 in Hh. discriminate. }
    destruct h; [congruence | simpl; lia]. }
  assert (Hd1 : 1 <= length d).
  { inversion Hd as [|? ? Hp _]; subst. unfold pipeLine in Hp.
    assert (d <> []).
    { apply trim_nonempty. intros E0. rewrite E0 in Hp. discriminate. }
    destruct d; [congruence | simpl; lia]. }
  assert (Hsp1 : 1 <= length sp).
  { unfold RichTable.isSeparatorRow in Hsep.
    assert (sp <> []).
    { apply trim_nonempty. intros E0. rewrite E0 in Hsep. discriminate. }
    destruct sp; [congruence | simpl; lia]. }
  assert (Hblock6 : 6 <= length (unlines (h :: sp :: d :: data))).
  { unfold unlines. simpl. rewrite !length_app. simpl. lia. }
  assert (Hpost : length (join [nl] post) <= length (unlines post)).
  { destruct post as [|l post]; [simpl; lia|].
    rewrite (join_unlines (l :: post)) by discriminate.
    rewrite length_app. simpl. lia. }
  pose proof (join_halves_length (trimEnd (unlines pre))
                                 (trimStart (join [nl] post))) as Hj.
  pose proof (trimEnd_length (unlines pre)).
  pose proof (trimStart_length (join [nl] post)).
  lia.
Qed.

(** X6: when a table block is returned the residual text is at least
    three characters shorter than the input, so the text comes back
    unchanged exactly when no table block is returned (in both source
    files). *)
Theorem residual_text_shorter_iff_table :
  (forall markdown r,
      RichTable.extractSlackTableBlock markdown = Returns r ->
      (tableBlock r <> None -> length (text r) + 3 <= length markdown)
      /\ (text r = markdown <-> tableBlock r = None))
  /\ (forall markdown r,
         RawTable.extractSlackTableBlock markdown = Returns r ->
         (tableBlock r <> None -> length (text r) + 3 <= length markdown)
         /\ (text r = markdown <-> tableBlock r = None)).
Proof.
  assert (Hgen : forall (markdown : jsstring) (r : SlackTableExtraction),
             (tableBlock r = None /\ text r = markdown
              \/ tableBlock r <> None
                 /\ length (text r) + 3 <= length markdown) ->
             (tableBlock r <> None -> length (text r) + 3 <= length markdown)
             /\ (text r = markdown <-> tableBlock r = None)).
  { intros markdown r [[H1 H2]|[H1 H2]].
    - split; [congruence|]. tauto.
    - split; [auto|]. split; [|congruence].
      intros E. rewrite E in H2. lia. }
  split; intros markdown r Hr; apply Hgen.
  - destruct (rich_extract_cases markdown) as [[_ R]|[t [b [E [_ R]]]]];
      rewrite R in Hr; injection Hr as <-; cbn [tableBlock text].
    + left. auto.
    + right. split; [discriminate|]. apply residual_shorter. exact E.
  - destruct (raw_extract_cases markdown) as [[_ R]|[t [E R]]];
      rewrite R in Hr; injection Hr as <-; cbn [tableBlock text].
    + left. auto.
    + right. split; [discriminate|]. apply residual_shorter.
      rewrite <- locators_agree. exact E.
Qed.

Lemma residual_text_shorter_iff_table_witness :
  length (lit "x") + 3
  <= length (lit "x" ++ [nl] ++ lit "|a|" ++ [nl] ++ lit "|-|" ++ [nl]
                 ++ lit "|1|").
Proof.
  apply (proj1 (proj1 residual_text_shorter_iff_table
                  (lit "x" ++ [nl] ++ lit "|a|" ++ [nl] ++ lit "|-|" ++ [nl]
                       ++ lit "|1|")
                  (mkExtraction (lit "x")
                     (Some (Block.mk [is_wrapped true]
                                     [[raw_text (lit "a")];
                                      [raw_text (lit "1")]])))
                  ltac:(vm_compute; reflexivity))).
  discriminate.
Defined.

(** ** What a cell shows *)

(** X8: the cell built from a text shows the trimmed text, or one space
    when that is empty: either as the plain cell of it, or as one section
    of runs that stand for consecutive pieces covering all of it; and
    whitespace around the text does not change the cell. *)
Theorem cell_shows_trimmed_text (text : jsstring) :
  (RichTable.buildCell text
   = Returns (raw_text (orElse (trim text) (lit " ")))
   \/ exists els spans,
       RichTable.buildCell text
       = Returns (rich_text [rich_text_section els])
       /\ concat spans = orElse (trim text) (lit " ")
       /\ Forall2 spanOf els spans)
  /\ RichTable.buildCell (trim text) = RichTable.buildCell text.
Proof.
  split.
  - unfold RichTable.buildCell.
    destruct (RichTable.hasInlineFormatting (orElse (trim text) (lit " ")));
      cbn [negb]; [right | left; reflexivity].
    destruct (parseInlineMarkdown_covers (orElse (trim text) (lit " ")))
      as [els [spans [H1 [H2 H3]]]].
    exists els, spans. rewrite H1. auto.
  - unfold RichTable.buildCell. rewrite trim_idempotent. reflexivity.
Qed.

(** * Properties of the work objects *)

(** ** The matcher with boundaries against the words of a pattern *)

Lemma lastOr_app prev (a b : jsstring) :
  lastOr prev (a ++ b) = lastOr (lastOr prev a) b.
Proof.
  revert prev. induction a as [|c a IH]; intros prev; simpl; auto.
Qed.

Section WordMatcherFacts.

Variable A : Type.
Implicit Types (k : WordRe.cont A) (p : char -> bool) (s w rest : jsstring).

Lemma repeatRun_sound p : forall max min prev pos s cs k x,
  min <= max ->
  WordRe.repeatRun p min max prev pos s cs k = Some x ->
  exists w rest,
    s = w ++ rest /\ Forall (fun c => p c = true) w
    /\ min <= length w <= max
    /\ k (lastOr prev w) (pos + length w) rest cs = Some x.
Proof.
  induction max as [|max IH]; intros min prev pos s cs k x Hmin H;
    cbn [WordRe.repeatRun] in H.
  - exists [], s. simpl. rewrite Nat.add_0_r. repeat split; auto; lia.
  - assert (Hmore : forall c s',
               s = c :: s' -> p c = true ->
               WordRe.repeatRun p (Nat.pred min) max (Some c) (S pos) s' cs k
               = Some x ->
               exists w rest,
                 s = w ++ rest /\ Forall (fun c => p c = true) w
                 /\ min <= length w <= S max
                 /\ k (lastOr prev w) (pos + length w) rest cs = Some x).
    { intros c s' -> Hp Hr. apply IH in Hr; [|lia].
      destruct Hr as [w [rest [-> [Hw [Hl Hk]]]]].
      exists (c :: w), rest. simpl. repeat split; auto; try lia.
      rewrite Nat.add_succ_r. exact Hk. }
    assert (Hstop : min = 0 -> k prev pos s cs = Some x ->
               exists w rest,
                 s = w ++ rest /\ Forall (fun c => p c = true) w
                 /\ min <= length w <= S max
                 /\ k (lastOr prev w) (pos + length w) rest cs = Some x).
    { intros -> Hk. exists [], s. simpl. rewrite Nat.add_0_r.
      repeat split; auto; lia. }
    destruct (Nat.eqb min 0) eqn:E.
    + apply Nat.eqb_eq in E.
      destruct s as [|c s']; [auto|].
      destruct (p c) eqn:Hp; [|auto].
      destruct (WordRe.repeatRun p (Nat.pred min) max (Some c) (S pos) s' cs k)
        as [y|] eqn:Hr; [|auto].
      injection H as ->. eapply Hmore; eauto.
    + destruct s as [|c s']; [discriminate|].
      destruct (p c) eqn:Hp; [|discriminate].
      eapply Hmore; eauto.
Qed.

Lemma repeatRun_complete p : forall max min w prev pos rest cs k,
  Forall (fun c => p c = true) w ->
  min <= length w <= max ->
  k (lastOr prev w) (pos + length w) rest cs <> None ->
  WordRe.repeatRun p min max prev pos (w ++ rest) cs k <> None.
Proof.
  induction max as [|max IH]; intros min w prev pos rest cs k Hw Hl Hk;
    cbn [WordRe.repeatRun].
  - destruct w; [|simpl in Hl; lia]. simpl in *.
    rewrite Nat.add_0_r in Hk. exact Hk.
  - destruct w as [|c w].
    + simpl in *. rewrite Nat.add_0_r in Hk.
      replace (Nat.eqb min 0) with true by (symmetry; apply Nat.eqb_eq; lia).
      cbv beta iota zeta.
      destruct rest as [|c rest]; [exact Hk|].
      destruct (p c); [|exact Hk].
      destruct (WordRe.repeatRun p (Nat.pred min) max (Some c) (S pos) rest cs k);
        [discriminate | exact Hk].
    + inversion Hw as [|? ? Hc Hw']; subst. simpl app.
      cbv beta iota zeta. rewrite Hc.
      assert (Hr : WordRe.repeatRun p (Nat.pred min) max (Some c) (S pos)
                     (w ++ rest) cs k <> None).
      { apply IH; auto; [simpl in Hl; lia|].
        simpl in Hk. rewrite Nat.add_succ_r in Hk. exact Hk. }
      destruct (Nat.eqb min 0); [|exact Hr].
      destruct (WordRe.repeatRun p (Nat.pred min) max (Some c) (S pos)
                  (w ++ rest) cs k); [discriminate | congruence].
Qed.

End WordMatcherFacts.

Lemma wrmatch_sound (r : WordRe.regex) :
  boundsOrdered r ->
  forall A prev pos s cs (k : WordRe.cont A) x,
    WordRe.rmatch r prev pos s cs k = Some x ->
    exists w rest cs',
      s = w ++ rest /\ wderives r prev w rest cs cs'
      /\ k (lastOr prev w) (pos + length w) rest cs' = Some x.
Proof.
  induction r as [p| |p min max|r1 IH1 r2 IH2|n r IH];
    intros Hb A prev pos s cs k x H; cbn [WordRe.rmatch] in H.
  - destruct s as [|c s]; [discriminate|].
    destruct (p c) eqn:Hp; [|discriminate].
    exists [c], s, cs. simpl. rewrite Nat.add_1_r. repeat split; eauto.
  - destruct (xorb (WordRe.wordAt prev) (WordRe.wordAt (hd_error s))) eqn:E;
      [|discriminate].
    exists [], s, cs. simpl. rewrite Nat.add_0_r. repeat split; auto.
  - apply repeatRun_sound in H; [|exact Hb].
    destruct H as [w [rest [-> [Hw [Hl Hk]]]]].
    exists w, rest, cs. simpl. repeat split; auto; lia.
  - destruct Hb as [Hb1 Hb2].
    apply (IH1 Hb1) in H. destruct H as [w1 [rest1 [cs1 [-> [D1 H]]]]].
    apply (IH2 Hb2) in H. destruct H as [w2 [rest [cs2 [-> [D2 H]]]]].
    exists (w1 ++ w2), rest, cs2. rewrite <- app_assoc.
    repeat split; auto.
    + simpl. exists w1, w2, cs1. auto.
    + rewrite lastOr_app, length_app, Nat.add_assoc. exact H.
  - apply (IH Hb) in H. destruct H as [w [rest [cs' [-> [D H]]]]].
    replace (pos + length w - pos) with (length w) in H by lia.
    rewrite firstn_app_exact in H by reflexivity.
    exists w, rest, ((n, w) :: cs'). simpl. repeat split; eauto.
Qed.

Lemma wderives_any_caps (r : WordRe.regex) :
  forall prev w rest cs cs' cs0,
    wderives r prev w rest cs cs' ->
    exists cs0', wderives r prev w rest cs0 cs0'.
Proof.
  induction r as [p| |p min max|r1 IH1 r2 IH2|n r IH];
    intros prev w rest cs cs' cs0 D; simpl in D |- *.
  - destruct D as [D _]. eauto.
  - destruct D as [D1 [D2 _]]. eauto.
  - destruct D as [D1 [D2 _]]. eauto.
  - destruct D as [w1 [w2 [cs1 [-> [D1 D2]]]]].
    destruct (IH1 _ _ _ _ _ cs0 D1) as [c1 E1].
    destruct (IH2 _ _ _ _ _ c1 D2) as [c2 E2].
    exists c2, w1, w2, c1. auto.
  - destruct D as [cs1 [D _]].
    destruct (IH _ _ _ _ _ cs0 D) as [c1 E1]. eauto.
Qed.

Lemma wrmatch_complete (r : WordRe.regex) :
  forall A prev pos w rest cs cs' (k : WordRe.cont A),
    wderives r prev w rest cs cs' ->
    (forall cs'', k (lastOr prev w) (pos + length w) rest cs'' <> None) ->
    WordRe.rmatch r prev pos (w ++ rest) cs k <> None.
Proof.
  induction r as [p| |p min max|r1 IH1 r2 IH2|n r IH];
    intros A prev pos w rest cs cs' k D Hk; cbn [WordRe.rmatch];
    simpl in D.
  - destruct D as [[c [-> Hp]] _]. simpl. rewrite Hp.
    specialize (Hk cs). simpl in Hk. rewrite Nat.add_1_r in Hk. exact Hk.
  - destruct D as [-> [Hx _]]. simpl. rewrite Hx.
    specialize (Hk cs). simpl in Hk. rewrite Nat.add_0_r in Hk. exact Hk.
  - destruct D as [Hw [Hl _]]. apply repeatRun_complete; auto.
  - destruct D as [w1 [w2 [cs1 [-> [D1 D2]]]]]. rewrite <- app_assoc.
    eapply IH1; [exact D1|]. intros cs''.
    destruct (wderives_any_caps _ _ _ _ _ _ cs'' D2) as [c2 E2].
    eapply IH2; [exact E2|].
    intros cs3. specialize (Hk cs3).
    rewrite lastOr_app, length_app, Nat.add_assoc in Hk. exact Hk.
  - destruct D as [cs1 [D _]]. eapply IH; [exact D|].
    intros cs''. apply Hk.
Qed.

(** ** Identifiers in a text *)

Lemma upper_is_word c : WordRe.isUpper c = true -> WordRe.isWordChar c = true.
Proof.
  unfold WordRe.isUpper, WordRe.isWordChar. intros ->. reflexivity.
Qed.

Lemma digit_is_word c : WordRe.isDigit c = true -> WordRe.isWordChar c = true.
Proof.
  unfold WordRe.isDigit, WordRe.isWordChar. intros ->.
  rewrite !orb_true_r. reflexivity.
Qed.

Lemma upper_not_digit c :
  WordRe.isUpper c = true -> WordRe.isDigit c = true -> False.
Proof.
  unfold WordRe.isUpper, WordRe.isDigit. intros H1 H2.
  apply andb_true_iff in H1. apply andb_true_iff in H2.
  destruct H1 as [H1 _], H2 as [_ H2].
  apply N.leb_le in H1. apply N.leb_le in H2. lia.
Qed.

Lemma hyphen_not_word : WordRe.isWordChar (ch "-") = false.
Proof. reflexivity. Qed.

Lemma lastOr_nonempty (P : char -> Prop) prev (w : jsstring) :
  w <> [] -> Forall P w -> exists c, lastOr prev w = Some c /\ P c.
Proof.
  revert prev. induction w as [|c w IH]; intros prev Hne Hw; [congruence|].
  inversion Hw as [|? ? Hc Hw']; subst. simpl.
  destruct w as [|d w].
  - exists c. auto.
  - apply IH; [discriminate | exact Hw'].
Qed.

Lemma run_unique (P : char -> bool) : forall (a a' r r' : jsstring),
  Forall (fun c => P c = true) a ->
  Forall (fun c => P c = true) a' ->
  (forall c, hd_error r = Some c -> P c = false) ->
  (forall c, hd_error r' = Some c -> P c = false) ->
  a ++ r = a' ++ r' ->
  a = a' /\ r = r'.
Proof.
  induction a as [|x a IH]; intros a' r r' Ha Ha' Hr Hr' E.
  - destruct a' as [|y a']; [auto|]. exfalso.
    simpl in E. subst r. inversion Ha'; subst.
    rewrite (Hr y eq_refl) in *. discriminate.
  - destruct a' as [|y a'].
    + exfalso. simpl in E. subst r'. inversion Ha; subst.
      rewrite (Hr' x eq_refl) in *. discriminate.
    + simpl in E. injection E as -> E.
      inversion Ha; inversion Ha'; subst.
      destruct (IH a' r r') as [-> ->]; auto.
Qed.

(** Two identifiers that begin at the same place are the same. *)
Lemma identifier_unique (id id' rest rest' : jsstring) :
  identifierShape id -> identifierShape id' ->
  WordRe.wordAt (hd_error rest) = false ->
  WordRe.wordAt (hd_error rest') = false ->
  id ++ rest = id' ++ rest' ->
  id = id' /\ rest = rest'.
Proof.
  intros [U [D [-> [_ [HU [_ HD]]]]]] [U' [D' [-> [_ [HU' [_ HD']]]]]]
         Hr Hr' E.
  rewrite <- !app_assoc in E.
  destruct (run_unique WordRe.isUpper U U' ([ch "-"] ++ D ++ rest)
              ([ch "-"] ++ D' ++ rest') HU HU') as [-> E2].
  - intros c Hc. simpl in Hc. injection Hc as <-. reflexivity.
  - intros c Hc. simpl in Hc. injection Hc as <-. reflexivity.
  - exact E.
  - simpl in E2. injection E2 as E2.
    assert (Hnd : forall r c, WordRe.wordAt (hd_error r) = false ->
                              hd_error r = Some c -> WordRe.isDigit c = false).
    { intros r c Hw Hc. rewrite Hc in Hw. simpl in Hw.
      destruct (WordRe.isDigit c) eqn:Ed; [|reflexivity].
      rewrite (digit_is_word _ Ed) in Hw. discriminate. }
    destruct (run_unique WordRe.isDigit D D' rest rest' HD HD'
                (fun c => Hnd rest c Hr) (fun c => Hnd rest' c Hr') E2)
      as [-> ->].
    auto.
Qed.

Lemma identifier_bounds_ordered : boundsOrdered WorkObjects.IDENTIFIER_RE.
Proof. simpl. repeat split; lia. Qed.

(** A match of the pattern at a position is an identifier there with a
    boundary on both sides. *)
Lemma identifier_match prev pos (s : jsstring) m :
  WordRe.matchAt WorkObjects.IDENTIFIER_RE prev pos s = Some m ->
  exists id rest,
    s = id ++ rest /\ identifierShape id
    /\ WordRe.wordAt prev = false
    /\ WordRe.wordAt (hd_error rest) = false
    /\ m = mkMatch pos id [(1, id)].
Proof.
  unfold WordRe.matchAt.
  destruct (WordRe.rmatch WorkObjects.IDENTIFIER_RE prev pos s [] WordRe.accept)
    as [[e cs]|] eqn:E; [|discriminate].
  intros H. injection H as <-.
  apply (wrmatch_sound _ identifier_bounds_ordered) in E.
  destruct E as [w [rest [cs' [-> [D H]]]]].
  unfold WordRe.accept in H. injection H as <- <-.
  unfold WorkObjects.IDENTIFIER_RE in D. cbn [wderives] in D.
  destruct D as [w0 [w1 [c0 [-> [[-> [Hb1 ->]] D]]]]].
  destruct D as [g [w2 [c1 [-> [[c2 [D ->]] [-> [Hb2 ->]]]]]]].
  destruct D as [U [w3 [c3 [-> [[HU [HUl ->]] D]]]]].
  destruct D as [h [D' [c4 [-> [[[x [-> Hx]] ->] [HD [HDl ->]]]]]]].
  unfold isChar in Hx. apply N.eqb_eq in Hx. subst x.
  simpl app in *. rewrite app_nil_r in *.
  assert (HUne : U <> []) by (intros ->; simpl in HUl; lia).
  assert (HDne : D' <> []) by (intros ->; simpl in HDl; lia).
  exists (U ++ ch "-" :: D'), rest.
  split; [reflexivity|]. split; [exists U, D'; repeat split; auto; lia|].
  split; [|split].
  - destruct U as [|u U]; [congruence|]. simpl in Hb1.
    inversion HU; subst.
    rewrite (upper_is_word u) in Hb1 by assumption.
    destruct (WordRe.wordAt prev); [discriminate | reflexivity].
  - simpl lastOr in Hb2. rewrite lastOr_app in Hb2. simpl lastOr in Hb2.
    match type of Hb2 with
    | context [lastOr ?p D'] =>
        destruct (lastOr_nonempty (fun c => WordRe.isDigit c = true)
                    p D' HDne HD) as [d [Hd1 Hd2]]
    end.
    rewrite Hd1 in Hb2. simpl in Hb2. rewrite (digit_is_word d Hd2) in Hb2.
    destruct (WordRe.wordAt (hd_error rest)); [discriminate | reflexivity].
  - f_equal.
    match goal with
    | |- context [?a + ?b - ?a] => replace (a + b - a) with b by lia
    end.
    apply firstn_app_exact. reflexivity.
Qed.

(** At an identifier with a boundary on both sides the pattern matches that
    identifier. *)
Lemma identifier_matches prev pos (id rest : jsstring) :
  identifierShape id ->
  WordRe.wordAt prev = false ->
  WordRe.wordAt (hd_error rest) = false ->
  WordRe.matchAt WorkObjects.IDENTIFIER_RE prev pos (id ++ rest)
  = Some (mkMatch pos id [(1, id)]).
Proof.
  intros Hid Hp Hr.
  assert (Hsome : WordRe.matchAt WorkObjects.IDENTIFIER_RE prev pos (id ++ rest)
                  <> None).
  { destruct Hid as [U [D [-> [HUl [HU [HDl HD]]]]]].
    unfold WordRe.matchAt.
    assert (H : WordRe.rmatch WorkObjects.IDENTIFIER_RE prev pos
                  ((U ++ [ch "-"] ++ D) ++ rest) [] WordRe.accept <> None).
    { apply (wrmatch_complete _ _ prev pos _ rest [] [(1, U ++ [ch "-"] ++ D)]).
      2:{ intros cs''. discriminate. }
      unfold WorkObjects.IDENTIFIER_RE. cbn [wderives].
      exists [], (U ++ [ch "-"] ++ D), []. split; [reflexivity|]. split.
      { split; [reflexivity|]. split; [|reflexivity].
        destruct U as [|u U]; [simpl in HUl; lia|]. inversion HU; subst.
        simpl. rewrite Hp, (upper_is_word u) by assumption. reflexivity. }
      exists (U ++ [ch "-"] ++ D), [], [(1, U ++ [ch "-"] ++ D)].
      split; [rewrite app_nil_r; reflexivity|]. split.
      { exists []. split; [|reflexivity].
        exists U, ([ch "-"] ++ D), []. split; [reflexivity|]. split.
        { repeat split; auto; lia. }
        exists [ch "-"], D, []. split; [reflexivity|]. split.
        { split; [|reflexivity]. exists (ch "-"). split; [reflexivity|].
          apply N.eqb_refl. }
        repeat split; auto; lia. }
      split; [reflexivity|]. split; [|reflexivity].
      simpl lastOr. rewrite lastOr_app. simpl lastOr.
      assert (HDne : D <> []) by (intros ->; simpl in HDl; lia).
      match goal with
      | |- context [lastOr ?p D] =>
          destruct (lastOr_nonempty (fun c => WordRe.isDigit c = true)
                      p D HDne HD) as [d [Hd1 Hd2]]
      end.
      rewrite Hd1. simpl. rewrite (digit_is_word d Hd2), Hr. reflexivity. }
    destruct (WordRe.rmatch WorkObjects.IDENTIFIER_RE prev pos
                ((U ++ [ch "-"] ++ D) ++ rest) [] WordRe.accept) as [[e cs]|];
      [discriminate | congruence]. }
  destruct (WordRe.matchAt WorkObjects.IDENTIFIER_RE prev pos (id ++ rest))
    as [m|] eqn:E; [|congruence].
  destruct (identifier_match _ _ _ _ E) as [id' [rest' [Hs [Hid' [_ [Hr' ->]]]]]].
  destruct (identifier_unique id id' rest rest' Hid Hid' Hr Hr' Hs) as [<- _].
  reflexivity.
Qed.

(** ** Searching a text for identifiers *)

Lemma wmatchAt_index re prev pos (s : jsstring) m :
  WordRe.matchAt re prev pos s = Some m -> index m = pos.
Proof.
  unfold WordRe.matchAt.
  destruct (WordRe.rmatch re prev pos s [] WordRe.accept) as [[e cs]|];
    [|discriminate].
  intros H. injection H as <-. reflexivity.
Qed.

Lemma wsearch_found re : forall (s : jsstring) prev pos m,
  WordRe.search re prev pos s = Some m ->
  exists k,
    k <= length s
    /\ WordRe.matchAt re (lastOr prev (firstn k s)) (pos + k) (skipn k s)
       = Some m
    /\ forall j, j < k ->
         WordRe.matchAt re (lastOr prev (firstn j s)) (pos + j) (skipn j s)
         = None.
Proof.
  induction s as [|c s IH]; intros prev pos m H; cbn [WordRe.search] in H.
  - destruct (WordRe.matchAt re prev pos []) as [m'|] eqn:E; [|discriminate].
    injection H as ->. exists 0. simpl. rewrite Nat.add_0_r.
    split; [lia|]. split; [exact E|]. intros j Hj. lia.
  - destruct (WordRe.matchAt re prev pos (c :: s)) as [m'|] eqn:E.
    + injection H as ->. exists 0. simpl. rewrite Nat.add_0_r.
      split; [lia|]. split; [exact E|]. intros j Hj. lia.
    + destruct (IH _ _ _ H) as [k [Hk [Hm Hnone]]].
      exists (S k). simpl. rewrite Nat.add_succ_r.
      split; [lia|]. split; [exact Hm|].
      intros [|j] Hj.
      * simpl. rewrite Nat.add_0_r. exact E.
      * simpl. rewrite Nat.add_succ_r. apply (Hnone j). lia.
Qed.

Lemma wsearch_nowhere re : forall (s : jsstring) prev pos,
  WordRe.search re prev pos s = None ->
  forall j, j <= length s ->
    WordRe.matchAt re (lastOr prev (firstn j s)) (pos + j) (skipn j s) = None.
Proof.
  induction s as [|c s IH]; intros prev pos H j Hj; cbn [WordRe.search] in H.
  - destruct (WordRe.matchAt re prev pos []) eqn:E; [discriminate|].
    simpl in Hj. replace j with 0 by lia. simpl. rewrite Nat.add_0_r. exact E.
  - destruct (WordRe.matchAt re prev pos (c :: s)) eqn:E; [discriminate|].
    destruct j as [|j].
    + simpl. rewrite Nat.add_0_r. exact E.
    + simpl. rewrite Nat.add_succ_r.
      apply (IH (Some c) (S pos) H j). simpl in Hj. lia.
Qed.

Lemma lastOr_firstn_S : forall (s : jsstring) prev j,
  j < length s -> lastOr prev (firstn (S j) s) = nth_error s j.
Proof.
  induction s as [|c t IH]; intros prev j Hj; [simpl in Hj; lia|].
  destruct j as [|j]; [reflexivity|].
  change (firstn (S (S j)) (c :: t)) with (c :: firstn (S j) t).
  simpl lastOr. simpl nth_error. apply IH. simpl in Hj. lia.
Qed.

Lemma charBefore_lastOr (text : jsstring) q :
  q <= length text -> WordRe.charBefore text q = lastOr None (firstn q text).
Proof.
  intros Hq. destruct q as [|j]; [reflexivity|].
  simpl WordRe.charBefore. symmetry. apply lastOr_firstn_S. lia.
Qed.

Lemma firstn_plus {A} : forall a b (l : list A),
  firstn (a + b) l = firstn a l ++ firstn b (skipn a l).
Proof.
  induction a as [|a IH]; intros b l; [reflexivity|].
  destruct l as [|x l]; simpl; [rewrite firstn_nil; reflexivity|].
  rewrite IH. reflexivity.
Qed.

Lemma prev_at (text : jsstring) li k :
  li <= length text ->
  lastOr (WordRe.charBefore text li) (firstn k (skipn li text))
  = lastOr None (firstn (li + k) text).
Proof.
  intros Hli. rewrite charBefore_lastOr by exact Hli.
  rewrite firstn_plus, lastOr_app. reflexivity.
Qed.

Lemma occurs_at (text id : jsstring) q :
  occursBounded text id q
  <-> exists b,
        skipn q text = id ++ b /\ q <= length text
        /\ WordRe.wordAt (lastOr None (firstn q text)) = false
        /\ WordRe.wordAt (hd_error b) = false.
Proof.
  split.
  - intros [a [b [-> [<- [Ha Hb]]]]]. exists b.
    rewrite skipn_app, skipn_all, Nat.sub_diag. simpl skipn.
    rewrite firstn_app_exact by reflexivity.
    rewrite length_app. repeat split; auto. lia.
  - intros [b [Hs [Hq [Ha Hb]]]]. exists (firstn q text), b.
    rewrite <- Hs, firstn_skipn, length_firstn.
    repeat split; auto. lia.
Qed.

(** What [exec] finds is the leftmost bounded identifier from [lastIndex]
    on. *)
Lemma exec_identifier (text : jsstring) lastIndex m :
  WordRe.exec WorkObjects.IDENTIFIER_RE text lastIndex = Some m ->
  exists q id,
    lastIndex <= q
    /\ m = mkMatch q id [(1, id)]
    /\ identifierShape id
    /\ occursBounded text id q
    /\ forall q' id',
         lastIndex <= q' -> q' < q ->
         identifierShape id' -> occursBounded text id' q' -> False.
Proof.
  unfold WordRe.exec.
  destruct (length text <? lastIndex) eqn:E; [discriminate|].
  apply Nat.ltb_ge in E. intros H.
  destruct (wsearch_found _ _ _ _ _ H) as [k [Hk [Hm Hnone]]].
  rewrite length_skipn in Hk.
  rewrite prev_at in Hm by exact E. rewrite skipn_skipn in Hm.
  destruct (identifier_match _ _ _ _ Hm) as [id [rest [Hs [Hid [Hp [Hr ->]]]]]].
  exists (lastIndex + k), id.
  split; [lia|]. split; [reflexivity|]. split; [exact Hid|]. split.
  - apply occurs_at. exists rest.
    replace (lastIndex + k) with (k + lastIndex) by lia.
    repeat split; auto; try lia.
    replace (k + lastIndex) with (lastIndex + k) by lia. exact Hp.
  - intros q' id' Hq1 Hq2 Hid' Hocc.
    apply occurs_at in Hocc. destruct Hocc as [b [Hs' [Hq' [Ha Hb]]]].
    specialize (Hnone (q' - lastIndex) ltac:(lia)).
    rewrite prev_at in Hnone by exact E. rewrite skipn_skipn in Hnone.
    replace (q' - lastIndex + lastIndex) with q' in Hnone by lia.
    replace (lastIndex + (q' - lastIndex)) with q' in Hnone by lia.
    rewrite Hs' in Hnone.
    rewrite (identifier_matches _ q' id' b Hid' Ha Hb) in Hnone.
    discriminate.
Qed.

Lemma exec_no_identifier (text : jsstring) lastIndex :
  lastIndex <= length text ->
  WordRe.exec WorkObjects.IDENTIFIER_RE text lastIndex = None ->
  forall q id,
    lastIndex <= q -> identifierShape id -> occursBounded text id q -> False.
Proof.
  intros Hli H q id Hq Hid Hocc. unfold WordRe.exec in H.
  destruct (length text <? lastIndex) eqn:E.
  { apply Nat.ltb_lt in E. lia. }
  apply occurs_at in Hocc. destruct Hocc as [b [Hs [Hq' [Ha Hb]]]].
  pose proof (wsearch_nowhere _ _ _ _ H (q - lastIndex)) as Hnone.
  rewrite length_skipn in Hnone. specialize (Hnone ltac:(lia)).
  rewrite prev_at in Hnone by exact Hli. rewrite skipn_skipn in Hnone.
  replace (q - lastIndex + lastIndex) with q in Hnone by lia.
  replace (lastIndex + (q - lastIndex)) with q in Hnone by lia.
  rewrite Hs in Hnone.
  rewrite (identifier_matches _ q id b Hid Ha Hb) in Hnone. discriminate.
Qed.

(** ** Identifiers do not overlap *)

Lemma identifier_no_overlap (u v id' b b' : jsstring) prev :
  identifierShape (u ++ v) -> identifierShape id' ->
  u <> [] -> v <> [] ->
  WordRe.wordAt (lastOr prev u) = false ->
  v ++ b = id' ++ b' -> False.
Proof.
  intros [U [D [E [HlU [HU [HlD HD]]]]]] [U' [D' [-> [HlU' [HU' _]]]]]
         Hu Hv Hp Hvb.
  assert (Hupper : forall w : jsstring,
             w <> [] -> Forall (fun c => WordRe.isUpper c = true) w ->
             forall prev', WordRe.wordAt (lastOr prev' w) = true).
  { intros w Hw HF prev'.
    destruct (lastOr_nonempty _ prev' w Hw HF) as [c [-> Hc]].
    simpl. apply upper_is_word. exact Hc. }
  assert (Hd : exists d v', v = d :: v' /\ WordRe.isDigit d = true).
  { apply app_eq_app in E. destruct E as [l [[Eu ED] | [EU Ev]]].
    - destruct l as [|h l].
      + exfalso. rewrite app_nil_r in Eu. subst u.
        rewrite (Hupper U Hu HU prev) in Hp. discriminate.
      + simpl in ED. injection ED as <- ED.
        destruct l as [|d l].
        * simpl in ED. subst D. destruct v as [|d v']; [congruence|].
          inversion HD; subst. eauto.
        * exfalso. subst u D.
          rewrite lastOr_app in Hp.
          apply Forall_app in HD. destruct HD as [HD _].
          destruct (lastOr_nonempty _ None
                      (d :: l) ltac:(discriminate) HD) as [c [Hc Hc']].
          cbn [lastOr] in Hp, Hc. rewrite Hc in Hp. simpl in Hp.
          rewrite (digit_is_word _ Hc') in Hp. discriminate.
    - exfalso. subst U. apply Forall_app in HU. destruct HU as [HU _].
      rewrite (Hupper u Hu HU prev) in Hp. discriminate. }
  destruct Hd as [d [v' [-> Hd]]].
  destruct U' as [|x U']; [simpl in HlU'; lia|].
  simpl in Hvb. injection Hvb as -> _.
  inversion HU'; subst. eapply upper_not_digit; eauto.
Qed.

Lemma identifier_nonempty (id : jsstring) :
  identifierShape id -> 4 <= length id.
Proof.
  intros [U [D [-> [HlU [_ [HlD _]]]]]]. rewrite !length_app. simpl. lia.
Qed.

(** Two bounded identifiers of a text stand at the same place only if they
    are the same, and otherwise the later one starts after the earlier one
    has ended. *)
Lemma occurrences_apart (s id id' : jsstring) q p :
  identifierShape id -> identifierShape id' ->
  occursBounded s id q -> occursBounded s id' p ->
  q <= p -> p < q + length id ->
  p = q /\ id' = id.
Proof.
  intros Hid Hid' Hq Hp Hle Hlt.
  apply occurs_at in Hq. destruct Hq as [b [Hs [Hql [Ha Hb]]]].
  apply occurs_at in Hp. destruct Hp as [b' [Hs' [Hpl [Ha' Hb']]]].
  destruct (Nat.eq_dec p q) as [-> | Hne].
  - split; [reflexivity|].
    rewrite Hs in Hs'.
    destruct (identifier_unique _ _ _ _ Hid Hid' Hb Hb' Hs'); auto.
  - exfalso.
    set (j := p - q).
    assert (Hj : p = q + j) by (unfold j; lia).
    assert (Hj0 : 0 < j) by (unfold j; lia).
    assert (Hjl : j < length id) by (unfold j; lia).
    clearbody j. subst p.
    rewrite firstn_plus, lastOr_app, Hs in Ha'.
    rewrite firstn_app in Ha'.
    replace (j - length id) with 0 in Ha' by lia.
    rewrite firstn_O, app_nil_r in Ha'.
    replace (q + j) with (j + q) in Hs' by lia.
    rewrite <- skipn_skipn, Hs, skipn_app in Hs'.
    replace (j - length id) with 0 in Hs' by lia. simpl skipn at 2 in Hs'.
    apply (identifier_no_overlap (firstn j id) (skipn j id) id' b b'
             (lastOr None (firstn q s))); auto.
    + rewrite firstn_skipn. exact Hid.
    + intros E. apply (f_equal (@length _)) in E.
      rewrite length_firstn in E. simpl in E. lia.
    + intros E. apply (f_equal (@length _)) in E.
      rewrite length_skipn in E. simpl in E. lia.
Qed.

(** ** The extraction loop *)

Lemma setAdd_ids (id : jsstring) (ids : list jsstring) :
  (In id ids /\ WorkObjects.setAdd (Some id) (map Some ids) = map Some ids)
  \/ (~ In id ids
      /\ WorkObjects.setAdd (Some id) (map Some ids)
         = map Some (ids ++ [id])).
Proof.
  unfold WorkObjects.setAdd.
  destruct (existsb (WorkObjects.maybeString_eqb (Some id)) (map Some ids))
    eqn:E.
  - left. split; [|reflexivity].
    apply existsb_exists in E. destruct E as [x [Hin Hx]].
    apply in_map_iff in Hin. destruct Hin as [y [<- Hy]].
    simpl in Hx. destruct (list_eq_dec N.eq_dec id y); [subst; auto|].
    discriminate.
  - right. split; [|rewrite map_app; reflexivity].
    intros Hin.
    assert (existsb (WorkObjects.maybeString_eqb (Some id)) (map Some ids)
            = true) as E'.
    { apply existsb_exists. exists (Some id). split.
      - apply in_map. exact Hin.
      - simpl. destruct (list_eq_dec N.eq_dec id id); congruence. }
    congruence.
Qed.

Lemma byFirstAppearance_snoc (s : jsstring) : forall ids y,
  byFirstAppearance s ids ->
  Forall (fun x => seenBefore s x y) ids ->
  byFirstAppearance s (ids ++ [y]).
Proof.
  induction ids as [|x ids IH]; intros y Hord Hy; simpl.
  - split; [constructor | exact I].
  - destruct Hord as [Hx Hord]. inversion Hy as [|? ? Hxy Hy']; subst.
    split.
    + apply Forall_app. split; [exact Hx|]. constructor; [exact Hxy|].
      constructor.
    + apply IH; assumption.
Qed.

Lemma byFirstAppearance_NoDup (s : jsstring) : forall ids,
  byFirstAppearance s ids -> NoDup ids.
Proof.
  induction ids as [|x ids IH]; intros Hord; [constructor|].
  destruct Hord as [Hx Hord]. constructor; [|apply IH; exact Hord].
  intros Hin. rewrite Forall_forall in Hx.
  destruct (Hx x Hin) as [p [Hp Hlt]]. specialize (Hlt p Hp). lia.
Qed.

Lemma identifierLoop_spec (s : jsstring) : forall fuel lastIndex ids,
  length s < fuel + lastIndex -> lastIndex <= length s ->
  Forall (fun id => identifierShape id
                    /\ exists p, p < lastIndex /\ occursBounded s id p) ids ->
  (forall id p, identifierShape id -> occursBounded s id p ->
                p < lastIndex -> In id ids) ->
  byFirstAppearance s ids ->
  exists ids',
    WorkObjects.identifierLoop fuel s lastIndex (map Some ids)
    = Returns (map Some ids')
    /\ (forall id, In id ids'
                   <-> identifierShape id /\ exists p, occursBounded s id p)
    /\ byFirstAppearance s ids'.
Proof.
  induction fuel as [|fuel IH]; intros li ids Hfuel Hli Hsound Hcompl Hord;
    [simpl in Hfuel; lia|].
  cbn [WorkObjects.identifierLoop].
  destruct (WordRe.exec WorkObjects.IDENTIFIER_RE s li) as [m|] eqn:E.
  - destruct (exec_identifier _ _ _ E) as [q [id [Hq [-> [Hid [Hocc Hleft]]]]]].
    cbn [index matched groups].
    assert (Hlen := identifier_nonempty _ Hid).
    assert (Hend : q + length id <= length s).
    { destruct Hocc as [a [b [-> [<- _]]]]. rewrite !length_app. lia. }
    destruct (q + length id <=? li) eqn:Eadv;
      [apply Nat.leb_le in Eadv; lia|].
    assert (Hcap : getcap 1 [(1, id)] = Some id) by reflexivity.
    rewrite Hcap.
    assert (Hcompl' : forall ids2, incl ids ids2 -> In id ids2 ->
              forall id' p, identifierShape id' -> occursBounded s id' p ->
                            p < q + length id -> In id' ids2).
    { intros ids2 Hincl Hin id' p Hid' Hocc' Hp.
      destruct (Nat.lt_ge_cases p li) as [Hlt | Hge].
      - apply Hincl. apply (Hcompl id' p); assumption.
      - destruct (Nat.lt_ge_cases p q) as [Hlt' | Hge'].
        + exfalso. apply (Hleft p id'); assumption.
        + destruct (occurrences_apart s id id' q p Hid Hid' Hocc Hocc' Hge' Hp)
            as [_ ->]. exact Hin. }
    assert (Hsound' : Forall (fun id0 => identifierShape id0
                       /\ exists p, p < q + length id /\ occursBounded s id0 p)
                       ids).
    { eapply Forall_impl; [|exact Hsound].
      intros x [Hx [p [Hp Hox]]]. split; [exact Hx|]. exists p.
      split; [lia | exact Hox]. }
    destruct (setAdd_ids id ids) as [[Hin ->] | [Hnin ->]].
    + apply IH; auto; try lia.
      apply Hcompl'; [apply incl_refl | exact Hin].
    + apply IH; try lia.
      * apply Forall_app. split; [exact Hsound'|].
        constructor; [|constructor]. split; [exact Hid|].
        exists q. split; [lia | exact Hocc].
      * apply Hcompl'; [apply incl_appl, incl_refl|].
        apply in_or_app. right. left. reflexivity.
      * apply byFirstAppearance_snoc; [exact Hord|].
        eapply Forall_impl; [|exact Hsound].
        intros x [Hx [p [Hp Hox]]]. exists p. split; [exact Hox|].
        intros p' Hp'.
        destruct (Nat.lt_ge_cases p' li) as [Hlt | Hge]; [|lia].
        exfalso. apply Hnin. apply (Hcompl id p'); assumption.
  - exists ids. split; [reflexivity|]. split; [|exact Hord].
    intros id. split.
    + intros Hin. rewrite Forall_forall in Hsound.
      destruct (Hsound id Hin) as [Hid [p [_ Hp]]]. eauto.
    + intros [Hid [p Hp]].
      destruct (Nat.lt_ge_cases p li) as [Hlt | Hge].
      * apply (Hcompl id p); assumption.
      * exfalso. apply (exec_no_identifier s li Hli E p id); assumption.
Qed.

Lemma extractIdentifiers_spec (s : jsstring) :
  exists ids,
    WorkObjects.extractIdentifiers s = Returns (map Some ids)
    /\ NoDup ids
    /\ (forall id, In id ids
                   <-> identifierShape id /\ exists p, occursBounded s id p)
    /\ byFirstAppearance s ids.
Proof.
  unfold WorkObjects.extractIdentifiers.
  destruct (identifierLoop_spec s (S (length s)) 0 []) as [ids [E [Hiff Hord]]].
  - lia.
  - lia.
  - constructor.
  - intros id p _ _ Hp. lia.
  - exact I.
  - exists ids. split; [exact E|]. split; [|split; assumption].
    apply (byFirstAppearance_NoDup s). exact Hord.
Qed.

(** X9. [extractIdentifiers] always returns, and what it returns are
    strings: exactly the ticket identifiers (2 to 10 capital letters, a
    hyphen, 1 to 6 digits) that stand in the text with no word character
    right before and none right after, each listed once, in the order of
    their first appearance. *)
Theorem extractIdentifiers_lists_each_identifier_once (s : jsstring) :
  exists ids,
    WorkObjects.extractIdentifiers s = Returns (map Some ids)
    /\ NoDup ids
    /\ (forall id, In id ids
                   <-> identifierShape id /\ exists p, occursBounded s id p)
    /\ byFirstAppearance s ids.
Proof. exact (extractIdentifiers_spec s). Qed.

(** * Task entities, the issue cache and the work objects *)

Lemma string_eqb_eq (x y : jsstring) :
  WorkObjects.string_eqb x y = true <-> x = y.
Proof.
  unfold WorkObjects.string_eqb.
  destruct (list_eq_dec N.eq_dec x y); split; congruence.
Qed.

Lemma maybeString_eqb_eq (a b : WorkObjects.maybeString) :
  WorkObjects.maybeString_eqb a b = true <-> a = b.
Proof.
  destruct a as [x|], b as [y|]; simpl; try (split; congruence).
  destruct (list_eq_dec N.eq_dec x y); split; congruence.
Qed.

Lemma maybeString_eqb_refl (a : WorkObjects.maybeString) :
  WorkObjects.maybeString_eqb a a = true.
Proof. apply maybeString_eqb_eq. reflexivity. Qed.

Lemma assoc_In {V} (key : jsstring) : forall (table : list (jsstring * V)) v,
  WorkObjects.assoc key table = Some v -> In (key, v) table.
Proof.
  induction table as [|[k x] table IH]; intros v H; simpl in H;
    [discriminate|].
  destruct (WorkObjects.string_eqb k key) eqn:E.
  - apply string_eqb_eq in E. injection H as ->. subst. left. reflexivity.
  - right. apply IH. exact H.
Qed.

Lemma assoc_key {V} (key : jsstring) : forall (table : list (jsstring * V)),
  In key (map fst table) -> exists v, WorkObjects.assoc key table = Some v.
Proof.
  induction table as [|[k x] table IH]; intros H; simpl in *; [tauto|].
  destruct (WorkObjects.string_eqb k key) eqn:E; [eauto|].
  destruct H as [-> | H]; [|auto].
  assert (WorkObjects.string_eqb key key = true) by (apply string_eqb_eq; auto).
  congruence.
Qed.

Lemma grey_is_not_valid : ~ validTagColor (WorkObjects.Str (lit "grey")).
Proof.
  intros [c [Hc E]]. injection E as <-.
  simpl in Hc. intuition discriminate.
Qed.

Lemma inherited_is_not_valid k : ~ validTagColor (WorkObjects.Inherited k).
Proof. intros [c [_ E]]. discriminate. Qed.

(** Reading the colour of a state type. *)
Lemma state_color_cases (key : jsstring) :
  (In key (map fst WorkObjects.STATE_TYPE_COLORS)
   /\ exists c, In c validTagColors
      /\ WorkObjects.getProperty WorkObjects.STATE_TYPE_COLORS key
         = Some (WorkObjects.Str c))
  \/ (~ In key (map fst WorkObjects.STATE_TYPE_COLORS)
      /\ (WorkObjects.getProperty WorkObjects.STATE_TYPE_COLORS key = None
          \/ WorkObjects.getProperty WorkObjects.STATE_TYPE_COLORS key
             = Some (WorkObjects.Inherited key))).
Proof.
  destruct (in_dec (list_eq_dec N.eq_dec) key
              (map fst WorkObjects.STATE_TYPE_COLORS)) as [Hin | Hnin].
  - left. split; [exact Hin|].
    destruct (assoc_key key _ Hin) as [v Hv].
    exists v. split.
    + apply assoc_In in Hv.
      assert (HF : Forall (fun kv : jsstring * jsstring =>
                             In (snd kv) validTagColors)
                     WorkObjects.STATE_TYPE_COLORS).
      { repeat constructor; simpl; tauto. }
      rewrite Forall_forall in HF. exact (HF _ Hv).
    + unfold WorkObjects.getProperty. rewrite Hv. reflexivity.
  - right. split; [exact Hnin|].
    unfold WorkObjects.getProperty.
    destruct (WorkObjects.assoc key WorkObjects.STATE_TYPE_COLORS) as [v|]
      eqn:Hv.
    + exfalso. apply Hnin. apply assoc_In in Hv.
      apply (in_map fst) in Hv. exact Hv.
    + destruct (existsb _ _); auto.
Qed.

(** Reading the colour of a priority. *)
Lemma priority_color_cases (n : WorkObjects.JsNumber) :
  ((exists z, n = WorkObjects.Integer z /\ (0 <= z <= 4)%Z)
   /\ exists c, In c validTagColors
      /\ WorkObjects.getPriorityColor n = Some (WorkObjects.Str c))
  \/ (~ (exists z, n = WorkObjects.Integer z /\ (0 <= z <= 4)%Z)
      /\ WorkObjects.getPriorityColor n = None).
Proof.
  destruct n as [z|].
  - assert (Hz : (z = 0 \/ z = 1 \/ z = 2 \/ z = 3 \/ z = 4
                  \/ (z < 0 \/ 4 < z))%Z) by lia.
    destruct Hz as [-> | [-> | [-> | [-> | [-> | Hout]]]]].
    1-5: left; (split; [eexists; split; [reflexivity | lia]|]);
         eexists; (split; [|reflexivity]); simpl; tauto.
    right. split.
    + intros [z' [E Hz']]. injection E as <-. lia.
    + unfold WorkObjects.getPriorityColor, WorkObjects.PRIORITY_COLORS.
      cbn [find fst snd].
      destruct (Z.eqb_spec 0 z); [lia|].
      destruct (Z.eqb_spec 1 z); [lia|].
      destruct (Z.eqb_spec 2 z); [lia|].
      destruct (Z.eqb_spec 3 z); [lia|].
      destruct (Z.eqb_spec 4 z); [lia|].
      reflexivity.
  - right. split; [|reflexivity]. intros [z [E _]]. discriminate.
Qed.

(** X10. The description of a task entity is exactly the first 500 code
    units of the issue's description: all of it when it has at most 500,
    its first 500 and so 500 code units when it has more; it is empty when
    the issue has no description. *)
Theorem description_is_cut_at_500 (Num : Type) (epochSeconds : jsstring -> Num)
        (issue : WorkObjects.LinearIssue) :
  let v := WorkObjects.description_value
             (WorkObjects.fields
                (WorkObjects.buildTaskEntity epochSeconds issue)) in
  match WorkObjects.description issue with
  | Some d =>
      v = firstn 500 d
      /\ length v = Nat.min 500 (length d)
      /\ (length d <= 500 -> v = d)
      /\ (500 < length d -> length v = 500 /\ v <> d)
  | None => v = []
  end.
Proof.
  cbn zeta. unfold WorkObjects.buildTaskEntity.
  cbn [WorkObjects.fields WorkObjects.description_value].
  destruct (WorkObjects.description issue) as [d|]; cbn [option_map nullish];
    [|reflexivity].
  rewrite slice_prefix by lia.
  change (Z.to_nat 500) with 500.
  split; [reflexivity|]. split; [apply length_firstn|]. split.
  - intros Hd. apply firstn_all2. exact Hd.
  - intros Hd. split; [rewrite length_firstn; lia|].
    intros E. apply (f_equal (@length _)) in E.
    rewrite length_firstn in E. lia.
Qed.

(** X11. The tag colour of the status is one of Slack's colours exactly
    when the issue has a state whose type is a key of the colour table; the
    tag colour of the priority is one exactly when the priority is an
    integer from 0 to 4.  Otherwise the status gets the string grey, which
    is none of Slack's colours, or a member inherited from
    Object.prototype, and the priority gets the string grey. *)
Theorem tag_colors_valid_for_known_values_only
        (Num : Type) (epochSeconds : jsstring -> Num)
        (issue : WorkObjects.LinearIssue) :
  let f := WorkObjects.fields
             (WorkObjects.buildTaskEntity epochSeconds issue) in
  (validTagColor (WorkObjects.status_tag_color f)
   <-> exists st, WorkObjects.state issue = Some st
       /\ In (WorkObjects.state_type st)
             (map fst WorkObjects.STATE_TYPE_COLORS))
  /\ (validTagColor (WorkObjects.priority_tag_color f)
      <-> exists z, WorkObjects.priority issue = WorkObjects.Integer z
          /\ (0 <= z <= 4)%Z)
  /\ (validTagColor (WorkObjects.status_tag_color f)
      \/ WorkObjects.status_tag_color f = WorkObjects.Str (lit "grey")
      \/ exists k, WorkObjects.status_tag_color f = WorkObjects.Inherited k)
  /\ (validTagColor (WorkObjects.priority_tag_color f)
      \/ WorkObjects.priority_tag_color f = WorkObjects.Str (lit "grey")).
Proof.
  cbn zeta. unfold WorkObjects.buildTaskEntity.
  cbn [WorkObjects.fields WorkObjects.status_tag_color
       WorkObjects.priority_tag_color].
  assert (Hstatus :
    let v := nullish (WorkObjects.getProperty WorkObjects.STATE_TYPE_COLORS
               (nullish (option_map WorkObjects.state_type
                           (WorkObjects.state issue)) []))
               (WorkObjects.Str (lit "grey")) in
    (validTagColor v
     <-> exists st, WorkObjects.state issue = Some st
         /\ In (WorkObjects.state_type st)
               (map fst WorkObjects.STATE_TYPE_COLORS))
    /\ (validTagColor v \/ v = WorkObjects.Str (lit "grey")
        \/ exists k, v = WorkObjects.Inherited k)).
  { cbn zeta.
    destruct (state_color_cases
                (nullish (option_map WorkObjects.state_type
                            (WorkObjects.state issue)) []))
      as [[Hin [c [Hc ->]]] | [Hnin Hget]]; cbn [nullish].
    - assert (Hv : validTagColor (WorkObjects.Str c)) by (exists c; auto).
      split; [|left; exact Hv]. split; [intros _|intros _; exact Hv].
      destruct (WorkObjects.state issue) as [st|]; cbn [option_map nullish] in Hin.
      + exists st. auto.
      + exfalso. simpl in Hin. intuition discriminate.
    - assert (Hno : ~ exists st, WorkObjects.state issue = Some st
                      /\ In (WorkObjects.state_type st)
                            (map fst WorkObjects.STATE_TYPE_COLORS)).
      { intros [st [E Hin]]. apply Hnin. rewrite E. exact Hin. }
      destruct Hget as [-> | ->]; cbn [nullish].
      + split; [|right; left; reflexivity].
        split; [intros H; elim (grey_is_not_valid H) | intros H; elim (Hno H)].
      + split; [|right; right; eexists; reflexivity].
        split; [intros H; elim (inherited_is_not_valid _ H)
               | intros H; elim (Hno H)]. }
  cbn zeta in Hstatus. destruct Hstatus as [Hs1 Hs2].
  split; [exact Hs1|].
  destruct (priority_color_cases (WorkObjects.priority issue))
    as [[Hin [c [Hc ->]]] | [Hnin ->]]; cbn [nullish].
  - assert (Hv : validTagColor (WorkObjects.Str c)) by (exists c; auto).
    split; [split; auto|]. split; [exact Hs2 | left; exact Hv].
  - split; [|split; [exact Hs2 | right; reflexivity]].
    split; [intros H; elim (grey_is_not_valid H) | intros H; elim (Hnin H)].
Qed.

(** ** The issue cache *)

Lemma cacheGet_set key e c :
  WorkObjects.cacheGet key (WorkObjects.cacheSet key e c) = Some e.
Proof. simpl. rewrite maybeString_eqb_refl. reflexivity. Qed.

Lemma cacheGet_set_other key key' e c :
  key' <> key ->
  WorkObjects.cacheGet key' (WorkObjects.cacheSet key e c)
  = WorkObjects.cacheGet key' c.
Proof.
  intros Hne. simpl.
  destruct (WorkObjects.maybeString_eqb key key') eqn:E; [|reflexivity].
  apply maybeString_eqb_eq in E. congruence.
Qed.

(** A request changes the world by one [store] for its key, or not at
    all. *)
Lemma request_cases clock network key apiKey w :
  (WorkObjects.request clock network key apiKey w = (None, w)
   /\ unanswered (network apiKey key (WorkObjects.reads w)))
  \/ (exists issue,
        WorkObjects.request clock network key apiKey w
        = (issue, WorkObjects.store clock key issue w)
        /\ ~ unanswered (network apiKey key (WorkObjects.reads w))).
Proof.
  unfold WorkObjects.request, unanswered.
  destruct (network apiKey key (WorkObjects.reads w)) as [|[|] [| |issue]];
    cbn [negb].
  - left. auto.
  - left. auto.
  - left. auto.
  - right. exists issue. split; [reflexivity|]. intuition discriminate.
  - right. exists None. split; [reflexivity|]. intuition discriminate.
  - right. exists None. split; [reflexivity|]. intuition discriminate.
  - right. exists None. split; [reflexivity|]. intuition discriminate.
Qed.

Lemma served_from_cache clock network key apiKey w e :
  WorkObjects.cacheGet key (WorkObjects.cache w) = Some e ->
  fresh clock w e ->
  WorkObjects.fetchLinearIssue clock network key apiKey w
  = (WorkObjects.entry_issue e,
     WorkObjects.mkWorld (WorkObjects.cache w) (S (WorkObjects.reads w))).
Proof.
  intros Hget Hfresh. unfold WorkObjects.fetchLinearIssue. rewrite Hget.
  unfold fresh in Hfresh. apply Z.ltb_lt in Hfresh. rewrite Hfresh.
  reflexivity.
Qed.

(** The world in which the request of a call is sent, if one is sent. *)
Lemma fetch_cases clock network key apiKey w :
  (exists e,
     WorkObjects.cacheGet key (WorkObjects.cache w) = Some e
     /\ fresh clock w e
     /\ WorkObjects.fetchLinearIssue clock network key apiKey w
        = (WorkObjects.entry_issue e,
           WorkObjects.mkWorld (WorkObjects.cache w)
                               (S (WorkObjects.reads w))))
  \/ (exists w0,
        WorkObjects.cache w0 = WorkObjects.cache w
        /\ WorkObjects.reads w <= WorkObjects.reads w0
        /\ WorkObjects.fetchLinearIssue clock network key apiKey w
           = WorkObjects.request clock network key apiKey w0).
Proof.
  unfold WorkObjects.fetchLinearIssue.
  destruct (WorkObjects.cacheGet key (WorkObjects.cache w)) as [e|] eqn:Hget.
  - destruct (clock (WorkObjects.reads w) - WorkObjects.ts e
              <? WorkObjects.CACHE_TTL_MS)%Z eqn:Hf.
    + left. exists e. apply Z.ltb_lt in Hf. auto.
    + right.
      exists (WorkObjects.mkWorld (WorkObjects.cache w)
                                  (S (WorkObjects.reads w))).
      simpl. auto.
  - right. exists w. auto.
Qed.

(** X12. An issue that [fetchLinearIssue] has returned is in the cache
    under its identifier, and while that entry is younger than a minute
    the next call for the identifier returns the same issue from the cache,
    whatever the service would answer and whatever the key. *)
Theorem found_issue_is_served_from_cache
        (clock : nat -> Z)
        (network network' : jsstring -> WorkObjects.maybeString -> nat
                            -> WorkObjects.Reply)
        (key : WorkObjects.maybeString) (apiKey apiKey' : jsstring)
        (w w1 : WorkObjects.World) (issue : WorkObjects.LinearIssue) :
  WorkObjects.fetchLinearIssue clock network key apiKey w = (Some issue, w1) ->
  exists e,
    WorkObjects.cacheGet key (WorkObjects.cache w1) = Some e
    /\ WorkObjects.entry_issue e = Some issue
    /\ (fresh clock w1 e ->
        WorkObjects.fetchLinearIssue clock network' key apiKey' w1
        = (Some issue,
           WorkObjects.mkWorld (WorkObjects.cache w1)
                               (S (WorkObjects.reads w1)))).
Proof.
  intros H.
  assert (He : exists e,
             WorkObjects.cacheGet key (WorkObjects.cache w1) = Some e
             /\ WorkObjects.entry_issue e = Some issue).
  { destruct (fetch_cases clock network key apiKey w)
      as [[e [Hget [_ E]]] | [w0 [Hc [_ E]]]]; rewrite E in H.
    - injection H as Hi <-. exists e. auto.
    - destruct (request_cases clock network key apiKey w0)
        as [[E' _] | [i [E' _]]]; rewrite E' in H; [discriminate|].
      injection H as -> <-. eexists. split; [apply cacheGet_set|].
      reflexivity. }
  destruct He as [e [Hget Hi]]. exists e.
  split; [exact Hget|]. split; [exact Hi|].
  intros Hfresh. rewrite <- Hi.
  apply served_from_cache; assumption.
Qed.

Lemma found_issue_is_served_from_cache_witness :
  WorkObjects.fetchLinearIssue sampleClock downNetwork
    (Some (lit "ENG-1475")) (lit "other key")
    (snd (WorkObjects.fetchLinearIssue sampleClock sampleNetwork
            (Some (lit "ENG-1475")) (lit "key") emptyWorld))
  = (Some sampleIssue,
     WorkObjects.mkWorld
       [(Some (lit "ENG-1475"), WorkObjects.mkEntry (Some sampleIssue) 0)] 2).
Proof.
  destruct (found_issue_is_served_from_cache sampleClock sampleNetwork
              downNetwork (Some (lit "ENG-1475")) (lit "key")
              (lit "other key") emptyWorld
              (snd (WorkObjects.fetchLinearIssue sampleClock sampleNetwork
                      (Some (lit "ENG-1475")) (lit "key") emptyWorld))
              sampleIssue eq_refl) as [e [Hget [_ Hnext]]].
  vm_compute in Hget. injection Hget as <-.
  rewrite Hnext; [reflexivity|]. vm_compute. reflexivity.
Defined.

(** X13. When the service refuses the request for an identifier that is
    not in the cache, [fetchLinearIssue] returns null and stores null:
    until this entry is a minute old the next call returns null from the
    cache, whatever the service would answer then. *)
Theorem refused_request_is_cached_as_missing
        (clock : nat -> Z)
        (network network' : jsstring -> WorkObjects.maybeString -> nat
                            -> WorkObjects.Reply)
        (key : WorkObjects.maybeString) (apiKey apiKey' : jsstring)
        (w : WorkObjects.World) (body : WorkObjects.Body) :
  WorkObjects.cacheGet key (WorkObjects.cache w) = None ->
  network apiKey key (WorkObjects.reads w) = WorkObjects.Response false body ->
  let w1 := snd (WorkObjects.fetchLinearIssue clock network key apiKey w) in
  fst (WorkObjects.fetchLinearIssue clock network key apiKey w) = None
  /\ ((clock (WorkObjects.reads w1) - clock (WorkObjects.reads w)
       < WorkObjects.CACHE_TTL_MS)%Z ->
      WorkObjects.fetchLinearIssue clock network' key apiKey' w1
      = (None,
         WorkObjects.mkWorld (WorkObjects.cache w1)
                             (S (WorkObjects.reads w1)))).
Proof.
  intros Hget Hnet. cbn zeta.
  assert (E : WorkObjects.fetchLinearIssue clock network key apiKey w
              = (None, WorkObjects.store clock key None w)).
  { unfold WorkObjects.fetchLinearIssue. rewrite Hget.
    unfold WorkObjects.request. rewrite Hnet. reflexivity. }
  rewrite E. cbn [fst snd].
  split; [reflexivity|]. intros Hfresh.
  apply (served_from_cache clock network' key apiKey'
           (WorkObjects.store clock key None w)
           (WorkObjects.mkEntry None (clock (WorkObjects.reads w)))).
  - apply cacheGet_set.
  - exact Hfresh.
Qed.

Lemma refused_request_is_cached_as_missing_witness :
  WorkObjects.fetchLinearIssue sampleClock sampleNetwork
    (Some (lit "ENG-1475")) (lit "key")
    (snd (WorkObjects.fetchLinearIssue sampleClock refusingNetwork
            (Some (lit "ENG-1475")) (lit "key") emptyWorld))
  = (None,
     WorkObjects.mkWorld
       [(Some (lit "ENG-1475"), WorkObjects.mkEntry None 0)] 2).
Proof.
  destruct (refused_request_is_cached_as_missing sampleClock refusingNetwork
              sampleNetwork (Some (lit "ENG-1475")) (lit "key") (lit "key")
              emptyWorld WorkObjects.BodyThrows eq_refl eq_refl)
    as [_ Hnext].
  rewrite Hnext; [reflexivity|]. vm_compute. reflexivity.
Defined.

(** X14. When the request is rejected, or the body of an accepted
    response cannot be read, [fetchLinearIssue] stores nothing: the cache
    is as before, and the result is null unless a cache entry younger than
    a minute answered the call. *)
Theorem unanswered_request_is_not_cached
        (clock : nat -> Z)
        (network : jsstring -> WorkObjects.maybeString -> nat
                   -> WorkObjects.Reply)
        (key : WorkObjects.maybeString) (apiKey : jsstring)
        (w : WorkObjects.World) :
  (forall n, unanswered (network apiKey key n)) ->
  let r := WorkObjects.fetchLinearIssue clock network key apiKey w in
  WorkObjects.cache (snd r) = WorkObjects.cache w
  /\ (fst r = None
      \/ exists e,
           WorkObjects.cacheGet key (WorkObjects.cache w) = Some e
           /\ fresh clock w e /\ fst r = WorkObjects.entry_issue e).
Proof.
  intros Hnet. cbn zeta.
  destruct (fetch_cases clock network key apiKey w)
    as [[e [Hget [Hf E]]] | [w0 [Hc [_ E]]]]; rewrite E.
  - split; [reflexivity|]. right. exists e. auto.
  - destruct (request_cases clock network key apiKey w0)
      as [[E' _] | [i [_ Hans]]].
    + rewrite E'. simpl. auto.
    + elim Hans. apply Hnet.
Qed.

Lemma unanswered_request_is_not_cached_witness :
  WorkObjects.fetchLinearIssue sampleClock downNetwork
    (Some (lit "ENG-1475")) (lit "key") emptyWorld
  = (None, emptyWorld).
Proof.
  destruct (unanswered_request_is_not_cached sampleClock downNetwork
              (Some (lit "ENG-1475")) (lit "key") emptyWorld
              (fun n => or_introl eq_refl)) as [Hcache [Hnone | [e [He _]]]].
  - apply injective_projections; [exact Hnone | reflexivity].
  - discriminate He.
Defined.

(** X15. A call of [fetchLinearIssue] for one identifier leaves what the
    cache holds for every other identifier as it is, and removes no
    entry. *)
Theorem fetch_keeps_other_entries
        (clock : nat -> Z)
        (network : jsstring -> WorkObjects.maybeString -> nat
                   -> WorkObjects.Reply)
        (key key' : WorkObjects.maybeString) (apiKey : jsstring)
        (w : WorkObjects.World) :
  let w1 := snd (WorkObjects.fetchLinearIssue clock network key apiKey w) in
  (key' <> key ->
   WorkObjects.cacheGet key' (WorkObjects.cache w1)
   = WorkObjects.cacheGet key' (WorkObjects.cache w))
  /\ (WorkObjects.cacheGet key' (WorkObjects.cache w) <> None ->
      WorkObjects.cacheGet key' (WorkObjects.cache w1) <> None).
Proof.
  cbn zeta.
  assert (H : WorkObjects.cache
                (snd (WorkObjects.fetchLinearIssue clock network key apiKey w))
              = WorkObjects.cache w
              \/ exists e,
                   WorkObjects.cache
                     (snd (WorkObjects.fetchLinearIssue clock network key
                             apiKey w))
                   = WorkObjects.cacheSet key e (WorkObjects.cache w)).
  { destruct (fetch_cases clock network key apiKey w)
      as [[e [_ [_ E]]] | [w0 [Hc [_ E]]]]; rewrite E; [left; reflexivity|].
    destruct (request_cases clock network key apiKey w0)
      as [[E' _] | [i [E' _]]]; rewrite E'; simpl; [left; exact Hc|].
    right. rewrite Hc. eexists. reflexivity. }
  destruct H as [-> | [e ->]]; [tauto|].
  split.
  - intros Hne. apply cacheGet_set_other. exact Hne.
  - intros Hsome.
    destruct (WorkObjects.maybeString_eqb key key') eqn:E.
    + simpl. rewrite E. discriminate.
    + simpl. rewrite E. exact Hsome.
Qed.

(** ** Work objects of a message *)

Lemma fetchAll_length clock network (Num : Type)
      (epochSeconds : jsstring -> Num) apiKey :
  forall ids w es,
    length (fst (WorkObjects.fetchAll clock network epochSeconds ids apiKey
                   w es))
    <= length es + length ids.
Proof.
  induction ids as [|id ids IH]; intros w es; cbn [WorkObjects.fetchAll].
  - simpl. lia.
  - destruct (WorkObjects.fetchLinearIssue clock network id apiKey w)
      as [[i|] w'].
    + specialize (IH w' (es ++ [WorkObjects.buildTaskEntity epochSeconds i])).
      rewrite length_app in IH. simpl in *. lia.
    + specialize (IH w' es). simpl. lia.
Qed.

Lemma arrayPrefix_length {A} (xs : list A) (k : Z) :
  (0 <= k)%Z -> (Z.of_nat (length (WorkObjects.arrayPrefix xs k)) <= k)%Z.
Proof.
  intros Hk. unfold WorkObjects.arrayPrefix, clampIndex.
  destruct (k <? 0)%Z eqn:E; [apply Z.ltb_lt in E; lia|].
  rewrite length_firstn. lia.
Qed.

Lemma arrayPrefix_incl {A} (xs : list A) (k : Z) :
  incl (WorkObjects.arrayPrefix xs k) xs.
Proof.
  unfold WorkObjects.arrayPrefix. intros x Hx.
  rewrite <- (firstn_skipn (Z.to_nat (clampIndex (Z.of_nat (length xs)) k)) xs).
  apply in_or_app. left. exact Hx.
Qed.

Lemma length_zero_nil {A} (l : list A) : (length l =? 0) = true -> l = [].
Proof. destruct l; [reflexivity | discriminate]. Qed.

(** X16. [buildLinearWorkObjects] returns null and leaves the cache and
    the clock alone (no request is sent) when the environment has no key
    or a key of white space only, when no ticket identifier stands in the
    text, and when the limit is 0. *)
Theorem no_work_objects_without_key_or_identifier
        (clock : nat -> Z)
        (network : jsstring -> WorkObjects.maybeString -> nat
                   -> WorkObjects.Reply)
        (Num : Type) (epochSeconds : jsstring -> Num)
        (env : option jsstring) (s : jsstring) (limit : option Z)
        (w : WorkObjects.World) :
  env = None
  \/ (exists k, env = Some k /\ allWhite k)
  \/ (forall id p, identifierShape id -> ~ occursBounded s id p)
  \/ limit = Some 0%Z ->
  WorkObjects.buildLinearWorkObjects clock network epochSeconds env s limit w
  = Returns (None, w).
Proof.
  intros H. unfold WorkObjects.buildLinearWorkObjects.
  destruct env as [k|]; cbn [option_map]; [|reflexivity].
  destruct (truthy (trim k)) eqn:Ek; cbn [negb]; [|reflexivity].
  destruct (extractIdentifiers_spec s) as [ids [-> [_ [Hiff _]]]].
  cbn [bind].
  match goal with
  | |- (if ?c then _ else _) = _ => destruct c eqn:El; [reflexivity|]
  end.
  destruct H as [H | [[k' [E Hw]] | [H | ->]]].
  - discriminate.
  - injection E as <-. rewrite (trim_white _ Hw) in Ek. discriminate.
  - exfalso. destruct ids as [|id ids]; [discriminate|].
    destruct (proj1 (Hiff id) (or_introl eq_refl)) as [Hid [p Hp]].
    exact (H id p Hid Hp).
  - cbn [nullish]. unfold WorkObjects.arrayPrefix, clampIndex.
    change (0 <? 0)%Z with false. cbv beta iota.
    rewrite Z.min_l by lia. reflexivity.
Qed.

Lemma no_work_objects_without_key_or_identifier_witness :
  WorkObjects.buildLinearWorkObjects sampleClock sampleNetwork
    (fun _ : jsstring => 0%Z) (Some (lit "  ")) (lit "see ENG-1475") None
    emptyWorld
  = Returns (None, emptyWorld).
Proof.
  apply no_work_objects_without_key_or_identifier.
  right. left. exists (lit "  "). split; [reflexivity|].
  repeat constructor.
Defined.

(** X17. With a limit that is not negative (5 when none is given),
    [buildLinearWorkObjects] returns, and returns null or a list of
    entities that is not empty and no longer than the limit. *)
Theorem work_objects_within_limit
        (clock : nat -> Z)
        (network : jsstring -> WorkObjects.maybeString -> nat
                   -> WorkObjects.Reply)
        (Num : Type) (epochSeconds : jsstring -> Num)
        (env : option jsstring) (s : jsstring) (limit : option Z)
        (w : WorkObjects.World) :
  (0 <= nullish limit 5)%Z ->
  exists r w',
    WorkObjects.buildLinearWorkObjects clock network epochSeconds env s
      limit w
    = Returns (r, w')
    /\ match r with
       | Some entities =>
           entities <> []
           /\ (Z.of_nat (length entities) <= nullish limit 5)%Z
       | None => True
       end.
Proof.
  intros Hlimit. unfold WorkObjects.buildLinearWorkObjects.
  destruct env as [k|]; cbn [option_map]; [|exists None, w; auto].
  destruct (truthy (trim k)); cbn [negb]; [|exists None, w; auto].
  destruct (extractIdentifiers_spec s) as [ids [-> _]].
  cbn [bind].
  match goal with
  | |- exists _ _, (if ?c then _ else _) = _ /\ _ =>
      destruct c; [exists None, w; auto|]
  end.
  match goal with
  | |- context [WorkObjects.fetchAll _ _ _ (@WorkObjects.arrayPrefix ?T ?xs ?n)
                  _ _ _] =>
      pose proof (fetchAll_length clock network Num epochSeconds (trim k)
                    (@WorkObjects.arrayPrefix T xs n) w []) as Hlen;
      pose proof (@arrayPrefix_length T xs n Hlimit) as Hpre;
      destruct (WorkObjects.fetchAll clock network epochSeconds
                  (@WorkObjects.arrayPrefix T xs n) (trim k) w []) as [es w']
  end.
  cbn [fst] in Hlen. simpl length in Hlen.
  destruct (length es =? 0) eqn:El; [exists None, w'; auto|].
  exists (Some es), w'. split; [reflexivity|]. split.
  - intros ->. discriminate.
  - lia.
Qed.

Lemma work_objects_within_limit_witness :
  exists r w',
    WorkObjects.buildLinearWorkObjects sampleClock sampleNetwork
      (fun _ : jsstring => 0%Z) (Some (lit "key"))
      (lit "ENG-1475 blocks OPS-2 and ENG-1475") (Some 1%Z) emptyWorld
    = Returns (r, w')
    /\ match r with
       | Some entities =>
           entities <> [] /\ (Z.of_nat (length entities) <= 1)%Z
       | None => True
       end.
Proof.
  apply (work_objects_within_limit sampleClock sampleNetwork Z
           (fun _ : jsstring => 0%Z) (Some (lit "key"))
           (lit "ENG-1475 blocks OPS-2 and ENG-1475") (Some 1%Z) emptyWorld).
  simpl. lia.
Defined.

Lemma fetch_ext clock network network' key apiKey :
  (forall n, network apiKey key n = network' apiKey key n) ->
  forall w,
    WorkObjects.fetchLinearIssue clock network key apiKey w
    = WorkObjects.fetchLinearIssue clock network' key apiKey w.
Proof.
  intros H w. unfold WorkObjects.fetchLinearIssue, WorkObjects.request.
  destruct (WorkObjects.cacheGet key (WorkObjects.cache w)) as [e|].
  - cbn [WorkObjects.reads]. rewrite H. reflexivity.
  - rewrite H. reflexivity.
Qed.

Lemma fetchAll_ext clock network network' (Num : Type)
      (epochSeconds : jsstring -> Num) apiKey :
  forall ids,
    Forall (fun key => forall n, network apiKey key n = network' apiKey key n)
           ids ->
    forall w es,
      WorkObjects.fetchAll clock network epochSeconds ids apiKey w es
      = WorkObjects.fetchAll clock network' epochSeconds ids apiKey w es.
Proof.
  induction ids as [|id ids IH]; intros HF w es; cbn [WorkObjects.fetchAll];
    [reflexivity|].
  inversion HF as [|? ? Hid HF']; subst.
  rewrite (fetch_ext clock network network' id apiKey Hid w).
  destruct (WorkObjects.fetchLinearIssue clock network' id apiKey w)
    as [[i|] w']; apply IH; exact HF'.
Qed.

(** X18. What [buildLinearWorkObjects] returns depends on the service
    only through its answers about the ticket identifiers that stand in
    the text: two services that agree on these give the same result and
    the same cache. *)
Theorem work_objects_ask_about_identifiers_only
        (clock : nat -> Z)
        (network network' : jsstring -> WorkObjects.maybeString -> nat
                            -> WorkObjects.Reply)
        (Num : Type) (epochSeconds : jsstring -> Num)
        (env : option jsstring) (s : jsstring) (limit : option Z)
        (w : WorkObjects.World) :
  (forall id p apiKey n,
     identifierShape id -> occursBounded s id p ->
     network apiKey (Some id) n = network' apiKey (Some id) n) ->
  WorkObjects.buildLinearWorkObjects clock network epochSeconds env s limit w
  = WorkObjects.buildLinearWorkObjects clock network' epochSeconds env s
      limit w.
Proof.
  intros H. unfold WorkObjects.buildLinearWorkObjects.
  destruct (option_map trim env) as [apiKey|]; [|reflexivity].
  destruct (negb (truthy apiKey)); [reflexivity|].
  destruct (extractIdentifiers_spec s) as [ids [-> [_ [Hiff _]]]].
  cbn [bind].
  match goal with
  | |- (if ?c then _ else _) = _ => destruct c; [reflexivity|]
  end.
  match goal with
  | |- context [WorkObjects.fetchAll _ network _
                  (@WorkObjects.arrayPrefix ?T ?xs ?n) _ _ _] =>
      rewrite (fetchAll_ext clock network network' Num epochSeconds apiKey
                 (@WorkObjects.arrayPrefix T xs n))
  end.
  - reflexivity.
  - apply Forall_forall. intros key Hkey n.
    apply arrayPrefix_incl in Hkey. apply in_map_iff in Hkey.
    destruct Hkey as [id [<- Hin]].
    destruct (proj1 (Hiff id) Hin) as [Hid [p Hp]].
    exact (H id p apiKey n Hid Hp).
Qed.

Lemma work_objects_ask_about_identifiers_only_witness :
  WorkObjects.buildLinearWorkObjects sampleClock sampleNetwork
    (fun _ : jsstring => 0%Z) (Some (lit "key")) (lit "see ENG-1475") None
    emptyWorld
  = WorkObjects.buildLinearWorkObjects sampleClock patchyNetwork
      (fun _ : jsstring => 0%Z) (Some (lit "key")) (lit "see ENG-1475") None
      emptyWorld.
Proof.
  apply work_objects_ask_about_identifiers_only.
  intros id p apiKey n Hid Hp.
  destruct (extractIdentifiers_spec (lit "see ENG-1475"))
    as [ids [E [_ [Hiff _]]]].
  assert (Hin : In id ids) by (apply Hiff; eauto).
  vm_compute in E.
  destruct ids as [|a [|b ids]]; try discriminate E.
  injection E as E. destruct Hin as [<- | []]. rewrite <- E. reflexivity.
Defined.

(** * Posting a message *)

Section PostFacts.

Variable toLowerCase : jsstring -> jsstring.
Variables Block Metadata Response : Type.
Variable client : Send.Call Block Metadata -> nat -> Send.Result Response.

Lemma firstCall_payload (params : Send.Params Block Metadata) :
  let p := Send.payloadOf (Send.firstCall params) in
  let i := Send.identity params in
  Send.channel p = Send.channelId params
  /\ Send.payload_text p = Send.text params
  /\ Send.thread_ts p = Send.threadTs params
  /\ Send.payload_blocks p = Send.payload_blocks (Send.basePayload params)
  /\ Send.payload_username p = Send.whenGiven (Send.field Send.username i)
  /\ Send.icon_url p = Send.whenGiven (Send.field Send.iconUrl i)
  /\ Send.icon_emoji p
     = (if Send.given (Send.field Send.iconUrl i) then None
        else Send.whenGiven (Send.field Send.iconEmoji i))
  /\ Send.metadata p = Send.workObjectMetadata params.
Proof.
  cbn zeta. unfold Send.firstCall, Send.whenGiven.
  destruct (Send.workObjectMetadata params) as [m|];
    destruct (Send.given (Send.field Send.iconUrl (Send.identity params)))
      eqn:Eurl;
    destruct (Send.given (Send.field Send.iconEmoji (Send.identity params)))
      eqn:Eemoji;
    destruct (Send.given (Send.field Send.username (Send.identity params)))
      eqn:Euser;
    cbn; rewrite ?Eurl, ?Eemoji, ?Euser;
    repeat split; try reflexivity;
    destruct (Send.field Send.iconUrl (Send.identity params));
    destruct (Send.field Send.iconEmoji (Send.identity params));
    destruct (Send.field Send.username (Send.identity params));
    try reflexivity; try discriminate.
Qed.

Lemma post_calls (params : Send.Params Block Metadata) (n : nat) :
  snd (Send.postSlackMessageBestEffort toLowerCase client params n)
  = [Send.firstCall params]
  \/ (snd (Send.postSlackMessageBestEffort toLowerCase client params n)
      = [Send.firstCall params; Send.ChatPostMessage (Send.basePayload params)]
      /\ Send.hasCustomIdentity (Send.identity params) = true
      /\ exists err,
           client (Send.firstCall params) n = Send.Rejected Response err
           /\ Send.isSlackCustomizeScopeError toLowerCase err = true).
Proof.
  unfold Send.postSlackMessageBestEffort.
  destruct (client (Send.firstCall params) n) as [r|err]; [left; reflexivity|].
  destruct (Send.hasCustomIdentity (Send.identity params)); cbn [negb orb];
    [|left; reflexivity].
  destruct (Send.isSlackCustomizeScopeError toLowerCase err) eqn:E;
    cbn [negb]; [|left; reflexivity].
  right. split; [reflexivity|]. split; [reflexivity|]. exists err. auto.
Qed.

End PostFacts.

(** X19. The first call of [postSlackMessageBestEffort] carries the
    channel, the text and the thread of the message and the work object
    metadata as given, whichever of its branches sends it.  Of the
    identity it carries only fields that are not empty: the user name, the
    icon URL, and the icon emoji only when there is no icon URL, so never
    both icons. *)
Theorem first_post_carries_message_and_one_icon
        (toLowerCase : jsstring -> jsstring)
        (Block Metadata Response : Type)
        (client : Send.Call Block Metadata -> nat -> Send.Result Response)
        (params : Send.Params Block Metadata) (n : nat) :
  exists first rest,
    snd (Send.postSlackMessageBestEffort toLowerCase client params n)
    = first :: rest
    /\ let p := Send.payloadOf first in
       let i := Send.identity params in
       Send.channel p = Send.channelId params
       /\ Send.payload_text p = Send.text params
       /\ Send.thread_ts p = Send.threadTs params
       /\ Send.metadata p = Send.workObjectMetadata params
       /\ Send.payload_username p = Send.whenGiven (Send.field Send.username i)
       /\ Send.icon_url p = Send.whenGiven (Send.field Send.iconUrl i)
       /\ Send.icon_emoji p
          = (if Send.given (Send.field Send.iconUrl i) then None
             else Send.whenGiven (Send.field Send.iconEmoji i))
       /\ (Send.icon_url p = None \/ Send.icon_emoji p = None).
Proof.
  destruct (firstCall_payload Block Metadata params)
    as [Hc [Ht [Hth [_ [Hu [Hurl [Hemoji Hm]]]]]]].
  assert (Hone : Send.icon_url (Send.payloadOf (Send.firstCall params)) = None
                 \/ Send.icon_emoji (Send.payloadOf (Send.firstCall params))
                    = None).
  { rewrite Hurl, Hemoji. unfold Send.whenGiven.
    destruct (Send.given (Send.field Send.iconUrl (Send.identity params)));
      auto. }
  destruct (post_calls toLowerCase Block Metadata Response client params n)
    as [-> | [-> _]]; eexists; eexists; (split; [reflexivity|]);
    cbn zeta; repeat split; assumption.
Qed.

Lemma startsWithString_iff : forall needle hay : jsstring,
  Send.startsWithString needle hay = true <-> exists b, hay = needle ++ b.
Proof.
  induction needle as [|x needle IH]; intros hay; simpl.
  - split; [intros _; exists hay; reflexivity | reflexivity].
  - destruct hay as [|y hay].
    + split; [discriminate | intros [b E]; discriminate].
    + rewrite andb_true_iff, N.eqb_eq, IH. split.
      * intros [-> [b ->]]. exists b. reflexivity.
      * intros [b E]. injection E as -> ->. split; [reflexivity|].
        exists b. reflexivity.
Qed.

Lemma includesString_iff (needle : jsstring) : forall hay : jsstring,
  Send.includesString needle hay = true
  <-> exists a b, hay = a ++ needle ++ b.
Proof.
  induction hay as [|y hay IH]; cbn [Send.includesString];
    rewrite orb_true_iff, startsWithString_iff.
  - split.
    + intros [[b E] | H]; [|discriminate]. exists [], b. exact E.
    + intros [a [b E]]. left. destruct a; [|discriminate].
      exists b. exact E.
  - rewrite IH. split.
    + intros [[b E] | [a [b E]]].
      * exists [], b. exact E.
      * exists (y :: a), b. rewrite E. reflexivity.
    + intros [a [b E]]. destruct a as [|z a].
      * left. exists b. exact E.
      * right. injection E as _ E. exists a, b. exact E.
Qed.

Lemma given_iff (s : option jsstring) :
  Send.given s = true <-> exists x, s = Some x /\ x <> [].
Proof.
  destruct s as [[|c x]|]; simpl; split; try discriminate.
  - intros [x [E H]]. injection E as <-. congruence.
  - intros _. eexists. split; [reflexivity | discriminate].
  - reflexivity.
  - intros [x [E _]]. discriminate.
Qed.

Lemma hasCustomIdentity_iff (identity : option Send.SlackSendIdentity) :
  Send.hasCustomIdentity identity = true <-> customIdentity identity.
Proof.
  unfold Send.hasCustomIdentity, customIdentity.
  rewrite !orb_true_iff, !given_iff. destruct identity as [i|]; simpl.
  - split.
    + intros [[[s [E H]] | [s [E H]]] | [s [E H]]]; exists i, s; auto.
    + intros [i' [s [E [H Hs]]]]. injection E as <-.
      destruct Hs as [Hs | [Hs | Hs]]; eauto.
  - split.
    + intros [[[s [E _]] | [s [E _]]] | [s [E _]]]; discriminate.
    + intros [i [s [E _]]]. discriminate.
Qed.

Lemma isSlackCustomizeScopeError_iff (toLowerCase : jsstring -> jsstring)
      (err : Send.Thrown) :
  Send.isSlackCustomizeScopeError toLowerCase err = true
  <-> customizeScopeError toLowerCase err.
Proof.
  unfold customizeScopeError. split.
  - destruct err as [|[d|]]; cbn [Send.isSlackCustomizeScopeError];
      [discriminate | | discriminate].
    destruct (Send.error d) as [code|] eqn:Ecode; cbn [option_map];
      [|discriminate].
    destruct (WorkObjects.maybeString_eqb (Some (toLowerCase code))
                (Some (lit "missing_scope"))) eqn:Ec; cbn [negb];
      [|discriminate].
    apply maybeString_eqb_eq in Ec. injection Ec as Ec.
    intros H. exists d, code.
    split; [reflexivity|]. split; [exact Ecode|]. split; [exact Ec|].
    destruct (Send.needed d) as [nd|] eqn:End; cbn [option_map] in H.
    + destruct (Send.includesString (lit "chat:write.customize")
                  (toLowerCase nd)) eqn:Ei.
      * left. apply includesString_iff in Ei. destruct Ei as [a [b Ei]].
        exists nd, a, b. auto.
      * right. unfold Send.arrayIncludes in H.
        apply existsb_exists in H. destruct H as [y [Hy E]].
        apply string_eqb_eq in E. subst y.
        apply in_map_iff in Hy. destruct Hy as [s [Es Hs]].
        destruct (Send.response_metadata d) as [m|]; [|destruct Hs].
        exists m, s. split; [reflexivity|]. split; [|exact Es].
        apply in_app_or in Hs. exact Hs.
    + right. unfold Send.arrayIncludes in H.
      apply existsb_exists in H. destruct H as [y [Hy E]].
      apply string_eqb_eq in E. subst y.
      apply in_map_iff in Hy. destruct Hy as [s [Es Hs]].
      destruct (Send.response_metadata d) as [m|]; [|destruct Hs].
      exists m, s. split; [reflexivity|]. split; [|exact Es].
      apply in_app_or in Hs. exact Hs.
  - intros [d [code [-> [Ecode [Ec Hscope]]]]].
    cbn [Send.isSlackCustomizeScopeError]. rewrite Ecode. cbn [option_map].
    rewrite Ec, maybeString_eqb_refl. cbn [negb].
    assert (Hlist : forall m s,
              Send.response_metadata d = Some m ->
              In s (nullish (Send.scopes m) [])
              \/ In s (nullish (Send.acceptedScopes m) []) ->
              toLowerCase s = lit "chat:write.customize" ->
              Send.arrayIncludes (lit "chat:write.customize")
                (map toLowerCase
                   (nullish (match Send.response_metadata d with
                             | Some m => Send.scopes m | None => None end) []
                    ++ nullish (match Send.response_metadata d with
                                | Some m => Send.acceptedScopes m
                                | None => None end) []))
              = true).
    { intros m s Em Hs Es. rewrite Em. unfold Send.arrayIncludes.
      apply existsb_exists. exists (lit "chat:write.customize").
      split; [|apply string_eqb_eq; reflexivity].
      rewrite <- Es. apply in_map. apply in_or_app. exact Hs. }
    destruct Hscope as [[nd [a [b [End Ei]]]] | [m [s [Em [Hs Es]]]]].
    + rewrite End. cbn [option_map].
      assert (Send.includesString (lit "chat:write.customize")
                (toLowerCase nd) = true) as ->
          by (apply includesString_iff; eauto).
      reflexivity.
    + destruct (match option_map toLowerCase (Send.needed d) with
                | Some n => Send.includesString (lit "chat:write.customize") n
                | None => false
                end); [reflexivity|].
      exact (Hlist m s Em Hs Es).
Qed.

(** X20. [postSlackMessageBestEffort] makes one call, or two.  It makes
    the second call exactly when the identity of the message names a user
    name, an icon URL or an icon emoji that is not empty and the first
    call failed with an [Error] whose data has the code missing_scope and
    names the scope chat:write.customize (in its [needed] string or among
    its scopes or accepted scopes, letter case apart).  The second call is
    a chat.postMessage that repeats the channel, text, thread and blocks
    of the first and carries no user name, no icon and no work object
    metadata, and its outcome is the outcome of the whole; otherwise the
    outcome of the first call is. *)
Theorem retry_drops_identity_and_metadata
        (toLowerCase : jsstring -> jsstring)
        (Block Metadata Response : Type)
        (client : Send.Call Block Metadata -> nat -> Send.Result Response)
        (params : Send.Params Block Metadata) (n : nat) :
  let r := Send.postSlackMessageBestEffort toLowerCase client params n in
  exists first,
    (snd r = [first]
     /\ fst r = client first n
     /\ ~ (customIdentity (Send.identity params)
           /\ exists err,
                client first n = Send.Rejected Response err
                /\ customizeScopeError toLowerCase err))
    \/ (exists retry,
          snd r = [first; retry]
          /\ fst r = client retry (S n)
          /\ customIdentity (Send.identity params)
          /\ (exists err,
                client first n = Send.Rejected Response err
                /\ customizeScopeError toLowerCase err)
          /\ plainRepeatOf first retry).
Proof.
  cbn zeta. exists (Send.firstCall params).
  destruct (firstCall_payload Block Metadata params)
    as [Hc [Ht [Hth [Hb _]]]].
  unfold Send.postSlackMessageBestEffort.
  destruct (client (Send.firstCall params) n) as [res|err] eqn:Ecall.
  - left. split; [reflexivity|]. split; [reflexivity|].
    intros [_ [err [E _]]]. discriminate.
  - destruct (Send.hasCustomIdentity (Send.identity params)) eqn:Ecustom;
      cbn [negb orb].
    + destruct (Send.isSlackCustomizeScopeError toLowerCase err) eqn:Escope;
        cbn [negb].
      * right. exists (Send.ChatPostMessage (Send.basePayload params)).
        split; [reflexivity|]. split; [reflexivity|].
        split; [apply hasCustomIdentity_iff; exact Ecustom|].
        split.
        { exists err. split; [reflexivity|].
          apply isSlackCustomizeScopeError_iff. exact Escope. }
        unfold plainRepeatOf. cbn [Send.payloadOf].
        rewrite Hc, Ht, Hth, Hb.
        split; [eexists; reflexivity|]. repeat split; reflexivity.
      * left. split; [reflexivity|]. split; [reflexivity|].
        intros [_ [err' [E Herr]]]. injection E as <-.
        apply isSlackCustomizeScopeError_iff in Herr. congruence.
    + left. split; [reflexivity|]. split; [reflexivity|].
      intros [Hid _]. apply hasCustomIdentity_iff in Hid. congruence.
Qed.

(** * Tables beyond the limits *)

Lemma findHeader_at : forall (pre : list jsstring) h sp after,
  noHeaderIn pre h ->
  headerLine h = true ->
  RichTable.isSeparatorRow (trim sp) = true ->
  findHeader (pre ++ h :: sp :: after) = Some (pre, h, sp, after).
Proof.
  induction pre as [|l pre IH]; intros h sp after Hpre Hh Hsp.
  - simpl. rewrite Hh, Hsp. reflexivity.
  - destruct Hpre as [Hl Hpre].
    specialize (IH h sp after Hpre Hh Hsp).
    change ((l :: pre) ++ h :: sp :: after)
      with (l :: (pre ++ h :: sp :: after)).
    cbn [findHeader].
    destruct pre as [|x pre].
    + cbn [app hd] in *. rewrite Hl. rewrite IH. reflexivity.
    + cbn [app hd] in *. rewrite Hl. rewrite IH. reflexivity.
Qed.

Lemma takeWhile_run_then_stop {A} (p : A -> bool) : forall data post,
  Forall (fun l => p l = true) data ->
  (post = [] \/ exists l post', post = l :: post' /\ p l = false) ->
  takeWhile p (data ++ post) = data.
Proof.
  induction data as [|d data IH]; intros post Hd Hpost.
  - destruct Hpost as [-> | [l [post' [-> Hl]]]]; simpl; [reflexivity|].
    rewrite Hl. reflexivity.
  - inversion Hd as [|? ? Hd1 Hd2]; subst. simpl. rewrite Hd1.
    f_equal. apply IH; assumption.
Qed.

(** C3: a text whose lines hold a header line, a separator line and a run
    of lines starting with a pipe, with no header and separator before
    them, is located without an error whatever the number of its cells and
    rows (in both source files).  The located table keeps the first 20
    header cells, the first 99 data rows and the first 20 cells of each;
    its offsets are those of the whole block of lines, from the header
    line to the last line of the run, rows beyond the 99th included, so
    that the residual text is what stands before the block and what stands
    after it. *)
Theorem truncation_keeps_offsets_of_whole_block
        (markdown : jsstring) (pre : list jsstring) (h sp : jsstring)
        (data post : list jsstring) :
  split nl markdown = pre ++ (h :: sp :: data) ++ post ->
  noHeaderIn pre h ->
  headerLine h = true ->
  RichTable.isSeparatorRow (trim sp) = true ->
  data <> [] ->
  Forall (fun l => pipeLine l = true) data ->
  (post = [] \/ exists l post', post = l :: post' /\ pipeLine l = false) ->
  let cells := RichTable.parsePipeRow (trim h) in
  let t :=
    mkTableData
      (firstn 20 cells)
      (map (firstn 20)
           (firstn 99 (map (fun l => RichTable.parsePipeRow (trim l)) data)))
      (lengthNl pre)
      (lengthNl (pre ++ h :: sp :: data)) in
  let residual :=
    join [nl; nl]
      (filter truthy [trimEnd (unlines pre); trimStart (join [nl] post)]) in
  RichTable.extractFirstTable markdown = Returns (Some t)
  /\ RawTable.extractFirstTable markdown = Returns (Some t)
  /\ length (headers t) = Nat.min 20 (length cells)
  /\ length (rows t) = Nat.min 99 (length data)
  /\ Forall2 (fun row l =>
                row = firstn 20 (RichTable.parsePipeRow (trim l))
                /\ length row
                   = Nat.min 20 (length (RichTable.parsePipeRow (trim l))))
             (rows t) (firstn 99 data)
  /\ (exists b,
        RichTable.extractSlackTableBlock markdown
        = Returns (mkExtraction residual (Some b)))
  /\ RawTable.extractSlackTableBlock markdown
     = Returns (mkExtraction residual (Some (RawTable.buildTableBlock t))).
Proof.
  intros Hs Hpre Hh Hsp Hne Hd Hpost. cbn zeta.
  assert (Hloc : locate markdown
                 = Some (mkTableData
                      (firstn 20 (RichTable.parsePipeRow (trim h)))
                      (map (firstn 20)
                           (firstn 99
                              (map (fun l => RichTable.parsePipeRow (trim l))
                                   data)))
                      (lengthNl pre)
                      (lengthNl (pre ++ h :: sp :: data)))).
  { unfold locate. rewrite Hs.
    change (pre ++ (h :: sp :: data) ++ post)
      with (pre ++ h :: sp :: (data ++ post)).
    rewrite (findHeader_at pre h sp (data ++ post) Hpre Hh Hsp).
    rewrite (takeWhile_run_then_stop pipeLine data post Hd Hpost).
    destruct data as [|d data]; [congruence | reflexivity]. }
  pose proof (extractFirstTable_locate markdown) as Hrich.
  rewrite Hloc in Hrich.
  pose proof (extractFirstTable_locate markdown) as Hraw.
  rewrite Hloc in Hraw.
  assert (Hraw' : RawTable.extractFirstTable markdown
                  = RichTable.extractFirstTable markdown)
    by (rewrite locators_agree; reflexivity).
  rewrite <- Hraw' in Hraw. clear Hraw'.
  destruct (text_around_block markdown pre (h :: sp :: data) post Hs)
    as [_ [H0 [H1 _]]]; [discriminate|].
  split; [exact Hrich|]. split; [exact Hraw|].
  cbn [headers rows].
  split; [apply length_firstn|].
  split; [rewrite length_map, length_firstn, length_map; reflexivity|].
  split.
  { rewrite firstn_map, map_map.
    induction (firstn 99 data) as [|l ls IH]; cbn [map]; constructor;
      [|exact IH].
    split; [reflexivity | apply length_firstn]. }
  split.
  - destruct (rich_extract_cases markdown) as [[E _]|[t' [b [E [_ R]]]]];
      rewrite Hrich in E; [discriminate|]. injection E as <-.
    cbn [start end_] in R. rewrite H0, H1 in R. exists b. exact R.
  - destruct (raw_extract_cases markdown) as [[E _]|[t' [E R]]];
      rewrite Hraw in E; [discriminate|]. injection E as <-.
    cbn [start end_] in R. rewrite H0, H1 in R. exact R.
Qed.

Lemma truncation_keeps_offsets_of_whole_block_witness :
  exists t b,
    RichTable.extractFirstTable wideTable = Returns (Some t)
    /\ RawTable.extractFirstTable wideTable = Returns (Some t)
    /\ length (headers t) = 20
    /\ length (rows t) = 99
    /\ Forall (fun row => length row = 20) (rows t)
    /\ start t = 2%Z
    /\ end_ t = (Z.of_nat (length wideTable) - 1)%Z
    /\ RichTable.extractSlackTableBlock wideTable
       = Returns (mkExtraction (lit "x" ++ [nl; nl] ++ lit "y") (Some b)).
Proof.
  destruct (truncation_keeps_offsets_of_whole_block wideTable
              [lit "x"] (wideLine 21 (ch "a")) (lit "|-|")
              (repeat (wideLine 21 (ch "1")) 100) [lit "y"])
    as [Hrich [Hraw [_ [_ [_ [[b Hres] _]]]]]].
  - vm_compute. reflexivity.
  - vm_compute. auto.
  - vm_compute. reflexivity.
  - vm_compute. reflexivity.
  - discriminate.
  - apply Forall_forall. intros l Hl. apply repeat_spec in Hl. subst l.
    vm_compute. reflexivity.
  - right. exists (lit "y"), []. split; [reflexivity|].
    vm_compute. reflexivity.
  - eexists. exists b.
    split; [exact Hrich|]. split; [exact Hraw|].
    split; [vm_compute; reflexivity|].
    split; [vm_compute; reflexivity|].
    split.
    { cbn [rows]. apply Forall_map. apply Forall_firstn. apply Forall_map.
      apply Forall_forall. intros l Hl. apply repeat_spec in Hl. subst l.
      vm_compute. reflexivity. }
    split; [vm_compute; reflexivity|].
    split; [vm_compute; reflexivity|].
    exact Hres.
Defined.
